(** * Rapfi move picker: a shallow embedding of [search/movepick.cpp]

    The development follows the C++ source: the partial sorter
    [fastPartialSort], the scorer [scoreMoves], the three constructors of
    [MovePicker] and the streaming operator.  The board, the move
    generators, the history tables and the neural evaluator are external to
    the translation unit; they appear here as fields of records. *)

From Stdlib Require Import ZArith Lia List Permutation Sorted.
From stdpp Require Import base list sorting.
Import ListNotations.

Local Open Scope nat_scope.

(** ** Data model *)

(** Modelled from the spec: [Pos] is declared outside the translation unit.
    A position is a board coordinate or the sentinel [NONE]. *)
Inductive Pos : Type :=
  | NONE : Pos
  | At (x y : Z) : Pos.

#[global] Instance Pos_eq_dec : EqDecision Pos.
Proof. solve_decision. Defined.

Definition Pos_eqb (a b : Pos) : bool := bool_decide (a = b).

(** [Score] is a signed integer typedef of the engine, of fixed width; a
    value of it is carried by [Z].  The operands of an arithmetic
    expression are promoted to [int], and the result is converted back when
    it is stored into a [Score] or returned as one. *)
Definition Score : Type := Z.
Bind Scope Z_scope with Score.

(** The conversion of an [int] to [Score].  The width of [Score] is fixed
    outside the translation unit; it is read off
    [std::numeric_limits<Score>::lowest()], which is [- 2 ^ (w - 1)] for a
    width of [w] bits: the values of [Score] are [lowest .. - lowest - 1]
    and the conversion keeps a number modulo [2 ^ w = - 2 * lowest]. *)
Definition to_Score (lowest : Z) (z : Z) : Score :=
  ((z - lowest) mod (- 2 * lowest) + lowest)%Z.

(** The numbers a [Score] holds. *)
Definition fits_Score (lowest : Z) (z : Z) : Prop :=
  (lowest <= z < - lowest)%Z.

(** The buffer element of [Move moves[MAX_MOVES]]. *)
Record Move : Type := mkMove {
  pos : Pos;
  score : Score;
  rawScore : Score
}.

(** Modelled from the spec: the comparison operators of [Move] are declared
    outside the translation unit; the score is the ordering key. *)
Definition Move_lt (a b : Move) : bool := (score a <? score b)%Z.
Definition Move_gt (a b : Move) : bool := (score b <? score a)%Z.

(** Descending score order, the order [std::greater<>] sorts into. *)
Definition desc (a b : Move) : Prop := (score b <= score a)%Z.
Definition desc_sorted (l : list Move) : Prop := StronglySorted desc l.

(** ** The partial sorter *)

(** The inner loop of the insertion branch:
    [for (q = sortedEnd; q != begin && *(q - 1) < tmp; --q) *q = *(q - 1);]
    followed by [*q = tmp].  The array is a list, [q] an index into it. *)
Fixpoint insert_shift (a : list Move) (tmp : Move) (q : nat) : list Move :=
  match q with
  | O => <[O := tmp]> a
  | S q' =>
      match a !! q' with
      | Some prev =>
          if Move_lt prev tmp
          then insert_shift (<[q := prev]> a) tmp q'
          else <[q := tmp]> a
      | None => <[q := tmp]> a
      end
  end.

(** The outer loop, [for (sortedEnd = begin, p = begin + 1; p < end; ++p)];
    [n] bounds the number of iterations left. *)
Fixpoint insertion_loop (n : nat) (limit : Score) (a : list Move)
    (sortedEnd p : nat) : list Move :=
  match n with
  | O => a
  | S n' =>
      match a !! p with
      | None => a
      | Some tmp =>
          if (limit <=? score tmp)%Z then
            let sortedEnd' := S sortedEnd in
            let a1 := match a !! sortedEnd' with
                      | Some x => <[p := x]> a
                      | None => a
                      end in
            insertion_loop n' limit (insert_shift a1 tmp sortedEnd') sortedEnd' (S p)
          else insertion_loop n' limit a sortedEnd (S p)
      end
  end.

Definition partial_insertion_sort (limit : Score) (a : list Move) : list Move :=
  insertion_loop (length a) limit a 0 1.

(** [std::sort(begin, end, std::greater<>())]: a descending sort.  The
    standard leaves the order of moves of equal score open; the model
    inserts from the right, one admissible outcome. *)
Fixpoint insert_desc (m : Move) (l : list Move) : list Move :=
  match l with
  | [] => [m]
  | x :: l' => if Move_gt m x then m :: l else x :: insert_desc m l'
  end.

Definition std_sort (l : list Move) : list Move := foldr insert_desc [] l.

(** [std::partial_sort(begin, middle, end, std::greater<>())] as the
    standard library implements it (heap select): a heap is made of
    [begin, middle); each later element that compares greater than the heap
    top, the least of the heap, is exchanged with it; the heap is sorted at
    the end.  The heap is kept here as a descending list, its top being the
    last element; this fixes the outcome up to the order of equal scores. *)
Fixpoint heap_select (heap rest : list Move) : list Move * list Move :=
  match rest with
  | [] => (heap, [])
  | x :: rest' =>
      match last heap with
      | Some top =>
          if Move_gt x top
          then let '(h, t) := heap_select (insert_desc x (removelast heap)) rest' in
               (h, top :: t)
          else let '(h, t) := heap_select heap rest' in (h, x :: t)
      | None => let '(h, t) := heap_select heap rest' in (h, x :: t)
      end
  end.

Definition std_partial_sort (middle : nat) (l : list Move) : list Move :=
  let '(h, t) := heap_select (std_sort (take middle l)) (drop middle l) in
  h ++ t.


(** *** The insertion branch on lists

    The state of the outer loop seen as three lists: the sorted range
    [begin .. sortedEnd], the moves below the limit passed so far, and the
    moves not yet visited.  [insertion_view] is compared with
    [insertion_loop] below. *)
Fixpoint insert_rev (tmp : Move) (r : list Move) : list Move :=
  match r with
  | [] => [tmp]
  | x :: r' => if Move_lt x tmp then x :: insert_rev tmp r' else tmp :: r
  end.

Definition insert_back (tmp : Move) (l : list Move) : list Move :=
  rev (insert_rev tmp (rev l)).

Definition rotate (mid : list Move) : list Move :=
  match mid with
  | [] => []
  | y :: m => m ++ [y]
  end.

Fixpoint insertion_view (limit : Score) (pre mid rest : list Move) : list Move :=
  match rest with
  | [] => pre ++ mid
  | tmp :: rest' =>
      if (limit <=? score tmp)%Z
      then insertion_view limit (insert_back tmp pre) (rotate mid) rest'
      else insertion_view limit pre (mid ++ [tmp]) rest'
  end.

(** The post-condition the partial sorter is specified with: the moves of
    score at least [limit] are a prefix in descending order, the rest is
    below [limit]. *)
Definition partially_sorted (limit : Score) (l : list Move) : Prop :=
  exists hi lo,
    l = hi ++ lo /\ desc_sorted hi
    /\ Forall (fun m => (limit <= score m)%Z) hi
    /\ Forall (fun m => (score m < limit)%Z) lo.

(** A lower bound of a set of moves. *)
Definition below (b : Move) (l : list Move) : Prop :=
  forall a, a ∈ l -> (score b <= score a)%Z.

(** The number of moves of a range whose score reaches the limit. *)
Definition count_at_least (limit : Score) (l : list Move) : nat :=
  length (List.filter (fun m => (limit <=? score m)%Z) l).

(** A move that carries only a score, for the examples. *)
Definition mv (s : Z) : Move := mkMove NONE s s.

(** ** Board, patterns and histories (external to the translation unit) *)

Inductive Color : Type := BLACK | WHITE.

#[global] Instance Color_eq_dec : EqDecision Color.
Proof. solve_decision. Defined.

(** [~c], the opponent. *)
Definition opposite (c : Color) : Color :=
  match c with BLACK => WHITE | WHITE => BLACK end.

Inductive Rule : Type := FREESTYLE | STANDARD | RENJU.

#[global] Instance Rule_eq_dec : EqDecision Rule.
Proof. solve_decision. Defined.

(** Modelled from the spec: the enumeration [Pattern4] is declared outside
    the translation unit; its constants are ordered, a larger constant is a
    stronger threat, and [FORBID] lies below [E_BLOCK4]. *)
Inductive Pattern4 : Type :=
  | NONE_P4 | FORBID | L_FLEX2 | K_BLOCK3 | J_FLEX2_2X | I_BLOCK3_PLUS
  | H_FLEX3 | G_FLEX3_PLUS | F_FLEX3_2X | E_BLOCK4 | D_BLOCK4_PLUS
  | C_BLOCK4_FLEX3 | B_FLEX4 | A_FIVE.

#[global] Instance Pattern4_eq_dec : EqDecision Pattern4.
Proof. solve_decision. Defined.

Definition p4_rank (p : Pattern4) : Z :=
  match p with
  | NONE_P4 => 0 | FORBID => 1 | L_FLEX2 => 2 | K_BLOCK3 => 3
  | J_FLEX2_2X => 4 | I_BLOCK3_PLUS => 5 | H_FLEX3 => 6 | G_FLEX3_PLUS => 7
  | F_FLEX3_2X => 8 | E_BLOCK4 => 9 | D_BLOCK4_PLUS => 10
  | C_BLOCK4_FLEX3 => 11 | B_FLEX4 => 12 | A_FIVE => 13
  end%Z.

Definition p4_geb (a b : Pattern4) : bool := (p4_rank b <=? p4_rank a)%Z.
Definition p4_leb (a b : Pattern4) : bool := (p4_rank a <=? p4_rank b)%Z.
Definition p4_eqb (a b : Pattern4) : bool := bool_decide (a = b).

(** One board square: [pattern4[c]] and [score[c]] for both colours. *)
Module Cell.
Record t : Type := mk {
  pattern4 : Color -> Pattern4;
  score : Color -> Score
}.
End Cell.

(** The generation kinds, a flag set in the source ([DEFEND_FOUR | ALL]). *)
Inductive GenType : Type :=
  | WINNING | DEFEND_FIVE | DEFEND_FOUR | DEFEND_B4F3 | VCF | ALL | COMB
  | RULE_FREESTYLE | RULE_STANDARD | RULE_RENJU
  | GenOr (a b : GenType).

Inductive HistType : Type := HIST_ATTACK | HIST_QUIET.

(** The table behind [mainHistory], read at [side][pos][type]. *)
Definition MainHistory : Type := Color -> Pos -> HistType -> Z.

(** The table behind [counterMoveHistory], read at [side] and the move
    index of the last move; keyed here by the last move itself. *)
Definition CounterMoveHistory : Type := Color -> Pos -> Pos * Pattern4.

(** [const MoveHistory **continuationHistory]; no statement reads it. *)
Definition ContinuationHistory : Type := nat -> Pos -> Z.

(** The policy the evaluator computes: [evaluatePolicy] on the cells whose
    compute flag is set, then [policyBuf->score(pos)]. *)
Record Evaluator : Type := mkEvaluator {
  evaluatePolicy : list Pos -> Pos -> Score
}.

(** The capabilities of [const Board &board] the picker uses, the move
    generators included: [generate K] is the list of moves [generate<K>]
    writes from the pointer it is given on. *)
Record Board : Type := mkBoard {
  sideToMove : Color;
  cell : Pos -> Cell.t;
  isEmpty : Pos -> bool;
  isInBoard : Pos -> bool;
  p4Count : Color -> Pattern4 -> nat;
  getLastMove : Pos;
  getLastActualMoveOfSide : Color -> Pos;
  checkForbiddenPoint : Pos -> bool;
  validateOpponentCMove : bool;
  evaluator : option Evaluator;
  generate : GenType -> list Move;
  generateNeighbors : GenType -> Pos -> list Move
}.

(** ** The picker *)

(** [enum Stages], an [int8_t] in the class: the constructors add to it. *)
Definition MAIN_TT : Z := 0.
Definition MAIN_MOVES : Z := 1.
Definition DEFENDFIVE_TT : Z := 2.
Definition DEFENDFIVE_MOVES : Z := 3.
Definition DEFENDFOUR_TT : Z := 4.
Definition DEFENDFOUR_MOVES : Z := 5.
Definition DEFENDB4F3_TT : Z := 6.
Definition DEFENDB4F3_MOVES : Z := 7.
Definition QVCF_TT : Z := 8.
Definition QVCF_MOVES : Z := 9.
Definition ALLMOVES : Z := 10.

(** [enum ScoreType]. *)
Definition ATTACK : Z := 1.
Definition DEFEND : Z := 2.
Definition BALANCED : Z := Z.lor ATTACK DEFEND.
Definition POLICY : Z := 4.
Definition MAIN_HISTORY : Z := 8.
Definition COUNTER_MOVE : Z := 16.
Definition CONT_HISTORY : Z := 32.

(** [bool(Type & f)]. *)
Definition has (Type_ f : Z) : bool := negb (Z.land Type_ f =? 0)%Z.

Inductive PickType : Type := Next | Best.

(** The data members of [class MovePicker].  The buffer [moves] holds the
    range from [moves] to [endMove]; [curMove] is an index into it.  A
    score member is [None] until a statement assigns it. *)
Record MovePicker : Type := mkPicker {
  board : Board;
  mainHistory : option MainHistory;
  counterMoveHistory : option CounterMoveHistory;
  continuationHistory : option ContinuationHistory;
  stage : Z;
  rule : Rule;
  ttMove : Pos;
  allowPlainB4InVCF : bool;
  hasPolicy : bool;
  curScore : option Score;
  curPolicyScore : option Score;
  maxPolicyScore : option Score;
  curMove : nat;
  moves : list Move
}.

Definition set_stage (s : Z) (p : MovePicker) : MovePicker :=
  mkPicker (board p) (mainHistory p) (counterMoveHistory p) (continuationHistory p)
    s (rule p) (ttMove p) (allowPlainB4InVCF p) (hasPolicy p)
    (curScore p) (curPolicyScore p) (maxPolicyScore p) (curMove p) (moves p).

Definition set_buffer (cur : nat) (ms : list Move) (p : MovePicker) : MovePicker :=
  mkPicker (board p) (mainHistory p) (counterMoveHistory p) (continuationHistory p)
    (stage p) (rule p) (ttMove p) (allowPlainB4InVCF p) (hasPolicy p)
    (curScore p) (curPolicyScore p) (maxPolicyScore p) cur ms.

Definition set_cur (s r : Score) (p : MovePicker) : MovePicker :=
  mkPicker (board p) (mainHistory p) (counterMoveHistory p) (continuationHistory p)
    (stage p) (rule p) (ttMove p) (allowPlainB4InVCF p) (hasPolicy p)
    (Some s) (Some r) (maxPolicyScore p) (curMove p) (moves p).

Definition set_policy (mx : Score) (p : MovePicker) : MovePicker :=
  mkPicker (board p) (mainHistory p) (counterMoveHistory p) (continuationHistory p)
    (stage p) (rule p) (ttMove p) (allowPlainB4InVCF p) true
    (curScore p) (curPolicyScore p) (Some mx) (curMove p) (moves p).

(** [ExtraArgs<MAIN>]; the constructor asserts [mainHistory], and the
    scorer dereferences the tables without a test, so they are present. *)
Module MainArgs.
Record t : Type := mk {
  ttMove : Pos;
  mainHistory : MainHistory;
  counterMoveHistory : CounterMoveHistory;
  continuationHistory : ContinuationHistory
}.
End MainArgs.

(** [ExtraArgs<QVCF>]; the depth is kept as an integer, only its comparison
    with [DEPTH_QVCF_FULL] is used. *)
Module QvcfArgs.
Record t : Type := mk {
  ttMove : Pos;
  depth : Z;
  previousSelfP4 : Pattern4 * Pattern4
}.
End QvcfArgs.

(** The rule-qualified [DEFEND_B4F3] kind of the two [switch (rule)]. *)
Definition DEFEND_B4F3_of (r : Rule) : GenType :=
  match r with
  | FREESTYLE => GenOr DEFEND_B4F3 RULE_FREESTYLE
  | STANDARD => GenOr DEFEND_B4F3 RULE_STANDARD
  | RENJU => GenOr DEFEND_B4F3 RULE_RENJU
  end.

(** [MovePicker::MovePicker(Rule, const Board &, ExtraArgs<ROOT>)]. *)
Definition MovePicker_ROOT (rule_ : Rule) (b : Board) : MovePicker :=
  let self := sideToMove b in
  let oppo := opposite self in
  let ms :=
    if 0 <? p4Count b self A_FIVE then generate b WINNING
    else if 0 <? p4Count b oppo A_FIVE then generate b DEFEND_FIVE
    else if 0 <? p4Count b self B_FLEX4 then generate b WINNING
    else if 0 <? p4Count b oppo B_FLEX4
      then generate b (GenOr DEFEND_FOUR ALL) ++ generate b VCF
    else if (0 <? p4Count b oppo C_BLOCK4_FLEX3)
            && (negb (bool_decide (rule_ = RENJU)) || validateOpponentCMove b)
      then match generate b (DEFEND_B4F3_of rule_) with
           | [] => generate b ALL
           | d => d ++ generate b VCF
           end
    else generate b ALL in
  mkPicker b None None None ALLMOVES rule_ NONE false false None None None 0 ms.

(** The [ttmValid] of the main constructor before the emptiness check, with
    the stage the dispatch selects. *)
Definition dispatch_MAIN (rule_ : Rule) (b : Board) (tt : Pos) : Z * bool :=
  let oppo := opposite (sideToMove b) in
  if 0 <? p4Count b oppo A_FIVE then
    (DEFENDFIVE_TT, p4_eqb (Cell.pattern4 (cell b tt) oppo) A_FIVE)
  else if 0 <? p4Count b oppo B_FLEX4 then
    let ttCell := cell b tt in
    (DEFENDFOUR_TT,
     p4_geb (Cell.pattern4 ttCell BLACK) E_BLOCK4
     || p4_eqb (Cell.pattern4 ttCell BLACK) FORBID
     || p4_geb (Cell.pattern4 ttCell WHITE) E_BLOCK4)
  else if (0 <? p4Count b oppo C_BLOCK4_FLEX3)
          && (negb (bool_decide (rule_ = RENJU)) || validateOpponentCMove b) then
    (DEFENDB4F3_TT, true)
  else (MAIN_TT, true).

(** [!ttmValid] as the integer added to [stage]. *)
Definition not_as_int (v : bool) : Z := if v then 0%Z else 1%Z.

(** [MovePicker::MovePicker(Rule, const Board &, ExtraArgs<MAIN>)]. *)
Definition MovePicker_MAIN (rule_ : Rule) (b : Board) (args : MainArgs.t) : MovePicker :=
  let '(stage0, ttmValid0) := dispatch_MAIN rule_ b (MainArgs.ttMove args) in
  let ttmValid := ttmValid0 && isEmpty b (MainArgs.ttMove args) in
  mkPicker b (Some (MainArgs.mainHistory args))
    (Some (MainArgs.counterMoveHistory args))
    (Some (MainArgs.continuationHistory args))
    (stage0 + not_as_int ttmValid)%Z rule_
    (if ttmValid then MainArgs.ttMove args else NONE)
    false false None None None 0 [].

Definition dispatch_QVCF (b : Board) (tt : Pos) : Z * bool :=
  let self := sideToMove b in
  let oppo := opposite self in
  if 0 <? p4Count b oppo A_FIVE then
    (DEFENDFIVE_TT, p4_eqb (Cell.pattern4 (cell b tt) oppo) A_FIVE)
  else (QVCF_TT, p4_geb (Cell.pattern4 (cell b tt) self) E_BLOCK4).

Section Engine.

(** Constants of the engine declared outside the translation unit: the
    capacity of the move buffer, the least value of [Score] and the depth
    from which the quiescence search admits plain fours. *)
Variable MAX_MOVES : nat.
Variable Score_lowest : Z.
Variable DEPTH_QVCF_FULL : Z.

(** [MovePicker::MovePicker(Rule, const Board &, ExtraArgs<QVCF>)]. *)
Definition MovePicker_QVCF (rule_ : Rule) (b : Board) (args : QvcfArgs.t) : MovePicker :=
  let allow :=
    (DEPTH_QVCF_FULL <=? QvcfArgs.depth args)%Z
    || (p4_geb (fst (QvcfArgs.previousSelfP4 args)) D_BLOCK4_PLUS
        && p4_geb (snd (QvcfArgs.previousSelfP4 args)) D_BLOCK4_PLUS) in
  let '(stage0, ttmValid0) := dispatch_QVCF b (QvcfArgs.ttMove args) in
  let ttmValid := ttmValid0 && isEmpty b (QvcfArgs.ttMove args) in
  mkPicker b None None None
    (stage0 + not_as_int ttmValid)%Z rule_
    (if ttmValid then QvcfArgs.ttMove args else NONE)
    allow false None None None 0 [].

(** [void fastPartialSort(Move *begin, Move *end, Score limit)]; the range
    [begin, end) is the list [l], the result is the range afterwards. *)
Definition fastPartialSort (l : list Move) (limit : Score) : list Move :=
  let InsertionSortLimit := MAX_MOVES / 4 in
  let SortLimit := MAX_MOVES * 2 / 3 in
  let nMoves := length l in
  if nMoves <=? InsertionSortLimit then partial_insertion_sort limit l
  else if nMoves <=? SortLimit then std_sort l
  else std_partial_sort SortLimit l.

(** *** The scorer *)

(** [m.score += d]: the sum is computed on [int] and stored into the
    [Score] member. *)
Definition add_score (d : Z) (m : Move) : Move :=
  mkMove (pos m) (to_Score Score_lowest (score m + d)) (rawScore m).

(** The storage [policyBuf] is constructed in, after [evaluatePolicy]:
    present when [bool(Type & POLICY) && evaluator]. *)
Definition policyBuffer (Type_ : Z) (p : MovePicker) : option (Pos -> Score) :=
  if has Type_ POLICY then
    match evaluator (board p) with
    | Some ev => Some (evaluatePolicy ev (map pos (drop (curMove p) (moves p))))
    | None => None
    end
  else None.

(** The first [if / else if] chain of the loop body; integer division
    truncates, [Z.quot].  The quotients by 3 lie between the two cell
    scores they average, so storing them into a [Score] changes nothing. *)
Definition baseScore (Type_ : Z) (b : Board) (policyBuf : option (Pos -> Score))
    (m : Move) : Move :=
  let self := sideToMove b in
  let oppo := opposite self in
  let c := cell b (pos m) in
  match policyBuf with
  | Some buf => mkMove (pos m) (buf (pos m)) (buf (pos m))
  | None =>
      if has Type_ BALANCED then
        mkMove (pos m) (Cell.score c self) (Cell.score c self)
      else if has Type_ ATTACK then
        let v := ((Cell.score c self * 2 + Cell.score c oppo) ÷ 3)%Z in
        mkMove (pos m) v v
      else if has Type_ DEFEND then
        let v := ((Cell.score c self + Cell.score c oppo * 2) ÷ 3)%Z in
        mkMove (pos m) v v
      else m
  end.

(** [if constexpr (bool(Type & MAIN_HISTORY))]. *)
Definition addMainHistory (Type_ : Z) (p : MovePicker) (m : Move) : Move :=
  let self := sideToMove (board p) in
  let c := cell (board p) (pos m) in
  if has Type_ MAIN_HISTORY then
    match mainHistory p with
    | Some h =>
        if p4_geb (Cell.pattern4 c self) H_FLEX3
        then add_score (h self (pos m) HIST_ATTACK ÷ 128)%Z m
        else add_score (h self (pos m) HIST_QUIET ÷ 256)%Z m
    | None => m
    end
  else m.

Definition CounterMoveBonus : Z := 21.

(** [if constexpr (bool(Type & COUNTER_MOVE))]. *)
Definition addCounterMove (Type_ : Z) (p : MovePicker) (m : Move) : Move :=
  let b := board p in
  let self := sideToMove b in
  let oppo := opposite self in
  let c := cell b (pos m) in
  if has Type_ COUNTER_MOVE then
    let lastMove := getLastMove b in
    if isInBoard b lastMove then
      match counterMoveHistory p with
      | Some cmh =>
          let '(counterMove, counterMoveP4) := cmh oppo lastMove in
          if Pos_eqb counterMove (pos m) && p4_leb counterMoveP4 (Cell.pattern4 c self)
          then add_score CounterMoveBonus m
          else m
      | None => m
      end
    else m
  else m.

(** One iteration of [for (auto &m : *this)]; the block under
    [CONT_HISTORY] holds no statement. *)
Definition scoreMove (Type_ : Z) (p : MovePicker) (policyBuf : option (Pos -> Score))
    (m : Move) : Move :=
  addCounterMove Type_ p (addMainHistory Type_ p (baseScore Type_ (board p) policyBuf m)).

(** [template <ScoreType Type> void MovePicker::scoreMoves()]. *)
Definition scoreMoves (Type_ : Z) (p : MovePicker) : MovePicker :=
  let buf := policyBuffer Type_ p in
  let scored := map (scoreMove Type_ p buf) (drop (curMove p) (moves p)) in
  let p1 := set_buffer (curMove p) (take (curMove p) (moves p) ++ scored) p in
  match buf with
  | Some _ => set_policy (foldl Z.max (Score_lowest ÷ 2)%Z (map rawScore scored)) p1
  | None => p1
  end.

(** *** Streaming *)

(** [std::max_element]: the index of the first greatest element. *)
Fixpoint max_index (best : nat) (bestv : Move) (i : nat) (l : list Move) : nat :=
  match l with
  | [] => best
  | x :: l' =>
      if Move_lt bestv x then max_index i x (S i) l'
      else max_index best bestv (S i) l'
  end.

(** The exchange of the element at [curMove] with the one
    [std::max_element(curMove, endMove)] points to. *)
Definition swap_max (cur : nat) (ms : list Move) : list Move :=
  match ms !! cur with
  | Some c =>
      let j := max_index cur c (S cur) (drop (S cur) ms) in
      match ms !! j with
      | Some mx => <[j := c]> (<[cur := mx]> ms)
      | None => ms
      end
  | None => ms
  end.

(** The loop [while (curMove < endMove)] of [pickNextMove] for a predicate
    object of any kind; [n] bounds the iterations left.  A call [filter()]
    answers and may change what the object holds: the predicate is a
    function from the state [st] of the object to the answer and the state
    afterwards.  [&&] evaluates its operands from the left, so that
    [filter()] is called only for a move that is not the TT move and not a
    forbidden point. *)
Fixpoint pickLoop_Pred {St : Type} (T : PickType) (filter : St -> bool * St) (n : nat)
    (p : MovePicker) (st : St) : Pos * MovePicker * St :=
  match n with
  | O => (NONE, p, st)
  | S n' =>
      let p := match T with
               | Best => set_buffer (curMove p) (swap_max (curMove p) (moves p)) p
               | Next => p
               end in
      let forbidden :=
        bool_decide (rule p = RENJU) && bool_decide (sideToMove (board p) = BLACK) in
      match moves p !! curMove p with
      | None => (NONE, p, st)
      | Some m =>
          if negb (Pos_eqb (pos m) (ttMove p))
             && (negb forbidden || negb (checkForbiddenPoint (board p) (pos m)))
          then
            let '(answer, st') := filter st in
            if answer
            then (pos m,
                  set_buffer (S (curMove p)) (moves p)
                    (set_cur (score m) (rawScore m) p),
                  st')
            else pickLoop_Pred T filter n' (set_buffer (S (curMove p)) (moves p) p) st'
          else pickLoop_Pred T filter n' (set_buffer (S (curMove p)) (moves p) p) st
      end
  end.


(** The same loop for a predicate that holds no state, such as the lambda
    [[]() { return true; }] that [operator()] passes: its answer is the
    same at every call. *)
Fixpoint pickLoop (T : PickType) (filter : unit -> bool) (n : nat)
    (p : MovePicker) : Pos * MovePicker :=
  match n with
  | O => (NONE, p)
  | S n' =>
      let p := match T with
               | Best => set_buffer (curMove p) (swap_max (curMove p) (moves p)) p
               | Next => p
               end in
      let forbidden :=
        bool_decide (rule p = RENJU) && bool_decide (sideToMove (board p) = BLACK) in
      match moves p !! curMove p with
      | None => (NONE, p)
      | Some m =>
          if negb (Pos_eqb (pos m) (ttMove p))
             && (negb forbidden || negb (checkForbiddenPoint (board p) (pos m)))
             && filter tt
          then (pos m,
                set_buffer (S (curMove p)) (moves p) (set_cur (score m) (rawScore m) p))
          else pickLoop T filter n' (set_buffer (S (curMove p)) (moves p) p)
      end
  end.

(** [pickNextMove] for a predicate that holds no state. *)
Definition pickNextMove (T : PickType) (filter : unit -> bool) (p : MovePicker)
    : Pos * MovePicker :=
  pickLoop T filter (length (moves p) - curMove p) p.

(** [case ALLMOVES]. *)
Definition stage_ALLMOVES (p : MovePicker) : Pos * MovePicker :=
  pickNextMove Next (fun _ => true) p.

(** The tail shared by the scored stages: sort the range at threshold 0,
    set the stage, re-enter at [ALLMOVES]. *)
Definition sort_and_stream (p : MovePicker) : Pos * MovePicker :=
  let sorted :=
    take (curMove p) (moves p) ++ fastPartialSort (drop (curMove p) (moves p)) 0%Z in
  stage_ALLMOVES (set_stage ALLMOVES (set_buffer (curMove p) sorted p)).

(** [case MAIN_MOVES]. *)
Definition stage_MAIN_MOVES (p : MovePicker) : Pos * MovePicker :=
  let p1 := set_buffer 0 (generate (board p) ALL) p in
  let Type_ :=
    Z.lor BALANCED (Z.lor POLICY (Z.lor MAIN_HISTORY (Z.lor COUNTER_MOVE CONT_HISTORY))) in
  sort_and_stream (scoreMoves Type_ p1).

(** [case DEFENDFIVE_MOVES]; [!ttMove] holds when [ttMove] is [NONE]. *)
Definition stage_DEFENDFIVE_MOVES (p : MovePicker) : Pos * MovePicker :=
  let ms := if Pos_eqb (ttMove p) NONE then generate (board p) DEFEND_FIVE else [] in
  stage_ALLMOVES (set_stage ALLMOVES (set_buffer 0 ms p)).

(** [case DEFENDFOUR_MOVES]. *)
Definition stage_DEFENDFOUR_MOVES (p : MovePicker) : Pos * MovePicker :=
  let ms := generate (board p) DEFEND_FOUR ++ generate (board p) VCF in
  let p1 := set_buffer 0 ms p in
  sort_and_stream (scoreMoves (Z.lor BALANCED (Z.lor POLICY MAIN_HISTORY)) p1).

(** [case DEFENDB4F3_MOVES]. *)
Definition stage_DEFENDB4F3_MOVES (p : MovePicker) : Pos * MovePicker :=
  match generate (board p) (DEFEND_B4F3_of (rule p)) with
  | [] => stage_MAIN_MOVES (set_stage MAIN_MOVES (set_buffer 0 [] p))
  | d =>
      let p1 := set_buffer 0 (d ++ generate (board p) VCF) p in
      sort_and_stream (scoreMoves (Z.lor BALANCED (Z.lor POLICY MAIN_HISTORY)) p1)
  end.

(** [case QVCF_MOVES]; the range table passed to [generateNeighbors] is a
    constant. *)
Definition stage_QVCF_MOVES (p : MovePicker) : Pos * MovePicker :=
  let selfLast := getLastActualMoveOfSide (board p) (sideToMove (board p)) in
  let ms :=
    generateNeighbors (board p)
      (if allowPlainB4InVCF p then VCF else GenOr VCF COMB) selfLast in
  sort_and_stream (scoreMoves BALANCED (set_buffer 0 ms p)).

Definition is_TT_stage (s : Z) : bool :=
  (s =? MAIN_TT)%Z || (s =? DEFENDFIVE_TT)%Z || (s =? DEFENDFOUR_TT)%Z
  || (s =? DEFENDB4F3_TT)%Z || (s =? QVCF_TT)%Z.

(** [Pos MovePicker::operator()()]: the yielded position and the picker
    afterwards.  Each [goto top] is the call of the stage it jumps to. *)
Definition operator_call (p : MovePicker) : Pos * MovePicker :=
  let s := stage p in
  if is_TT_stage s then (ttMove p, set_stage (s + 1)%Z p)
  else if (s =? MAIN_MOVES)%Z then stage_MAIN_MOVES p
  else if (s =? DEFENDFIVE_MOVES)%Z then stage_DEFENDFIVE_MOVES p
  else if (s =? DEFENDFOUR_MOVES)%Z then stage_DEFENDFOUR_MOVES p
  else if (s =? DEFENDB4F3_MOVES)%Z then stage_DEFENDB4F3_MOVES p
  else if (s =? QVCF_MOVES)%Z then stage_QVCF_MOVES p
  else if (s =? ALLMOVES)%Z then stage_ALLMOVES p
  else (NONE, p).

(** The picker after [n] calls, and the position the call after them
    yields. *)
Fixpoint after_calls (n : nat) (p : MovePicker) : MovePicker :=
  match n with
  | O => p
  | S n' => after_calls n' (snd (operator_call p))
  end.

Definition yield (n : nat) (p : MovePicker) : Pos :=
  fst (operator_call (after_calls n p)).

(** The positions yielded by repeated calls up to the first [NONE], at
    most [fuel] of them. *)
Fixpoint drain (fuel : nat) (p : MovePicker) : list Pos :=
  match fuel with
  | O => []
  | S fuel' =>
      let '(r, p') := operator_call p in
      if Pos_eqb r NONE then [] else r :: drain fuel' p'
  end.

End Engine.

(** ** The constructors over a board with bounds

    [board.cell(pos)] and [board.isEmpty(pos)] index the board by [pos].
    Here each accessor has a domain; a read outside it is a fault, and the
    constructors are followed statement by statement, [&&] evaluating its
    right operand only when the left one holds. *)
Module Checked.

Inductive Fault : Type := cell_out_of_bounds | isEmpty_out_of_bounds.

Inductive result (A : Type) : Type :=
  | Ok (a : A)
  | Failed (f : Fault).
Arguments Ok {A} a.
Arguments Failed {A} f.

Definition bind {A B : Type} (r : result A) (k : A -> result B) : result B :=
  match r with
  | Ok a => k a
  | Failed f => Failed f
  end.

Record BBoard : Type := mkBBoard {
  the_board : Board;
  cell_dom : Pos -> bool;
  isEmpty_dom : Pos -> bool
}.

Definition cell_at (b : BBoard) (p : Pos) : result Cell.t :=
  if cell_dom b p then Ok (cell (the_board b) p) else Failed cell_out_of_bounds.

Definition isEmpty_at (b : BBoard) (p : Pos) : result bool :=
  if isEmpty_dom b p then Ok (isEmpty (the_board b) p) else Failed isEmpty_out_of_bounds.

(** [ttmValid && board.isEmpty(args.ttMove)]. *)
Definition and_isEmpty (b : BBoard) (ttmValid : bool) (tt : Pos) : result bool :=
  if ttmValid then isEmpty_at b tt else Ok false.

Definition dispatch_MAIN (rule_ : Rule) (b : BBoard) (tt : Pos) : result (Z * bool) :=
  let bd := the_board b in
  let oppo := opposite (sideToMove bd) in
  if 0 <? p4Count bd oppo A_FIVE then
    bind (cell_at b tt) (fun c =>
      Ok (DEFENDFIVE_TT, p4_eqb (Cell.pattern4 c oppo) A_FIVE))
  else if 0 <? p4Count bd oppo B_FLEX4 then
    bind (cell_at b tt) (fun ttCell =>
      Ok (DEFENDFOUR_TT,
          p4_geb (Cell.pattern4 ttCell BLACK) E_BLOCK4
          || p4_eqb (Cell.pattern4 ttCell BLACK) FORBID
          || p4_geb (Cell.pattern4 ttCell WHITE) E_BLOCK4))
  else if (0 <? p4Count bd oppo C_BLOCK4_FLEX3)
          && (negb (bool_decide (rule_ = RENJU)) || validateOpponentCMove bd) then
    Ok (DEFENDB4F3_TT, true)
  else Ok (MAIN_TT, true).

Definition MovePicker_MAIN (rule_ : Rule) (b : BBoard) (args : MainArgs.t)
    : result MovePicker :=
  bind (dispatch_MAIN rule_ b (MainArgs.ttMove args)) (fun d =>
  bind (and_isEmpty b (snd d) (MainArgs.ttMove args)) (fun ttmValid =>
  Ok (mkPicker (the_board b) (Some (MainArgs.mainHistory args))
        (Some (MainArgs.counterMoveHistory args))
        (Some (MainArgs.continuationHistory args))
        (fst d + not_as_int ttmValid)%Z rule_
        (if ttmValid then MainArgs.ttMove args else NONE)
        false false None None None 0 []))).

Definition dispatch_QVCF (b : BBoard) (tt : Pos) : result (Z * bool) :=
  let bd := the_board b in
  let self := sideToMove bd in
  let oppo := opposite self in
  if 0 <? p4Count bd oppo A_FIVE then
    bind (cell_at b tt) (fun c =>
      Ok (DEFENDFIVE_TT, p4_eqb (Cell.pattern4 c oppo) A_FIVE))
  else
    bind (cell_at b tt) (fun c =>
      Ok (QVCF_TT, p4_geb (Cell.pattern4 c self) E_BLOCK4)).

Definition MovePicker_QVCF (DEPTH_QVCF_FULL : Z) (rule_ : Rule) (b : BBoard)
    (args : QvcfArgs.t) : result MovePicker :=
  let allow :=
    (DEPTH_QVCF_FULL <=? QvcfArgs.depth args)%Z
    || (p4_geb (fst (QvcfArgs.previousSelfP4 args)) D_BLOCK4_PLUS
        && p4_geb (snd (QvcfArgs.previousSelfP4 args)) D_BLOCK4_PLUS) in
  bind (dispatch_QVCF b (QvcfArgs.ttMove args)) (fun d =>
  bind (and_isEmpty b (snd d) (QvcfArgs.ttMove args)) (fun ttmValid =>
  Ok (mkPicker (the_board b) None None None
        (fst d + not_as_int ttmValid)%Z rule_
        (if ttmValid then QvcfArgs.ttMove args else NONE)
        allow false None None None 0 []))).

End Checked.

(** ** Notions used by the properties of the stage machine *)

(** The invariant of the move buffer: no list a constructor or a stage
    writes exceeds the capacity [MAX_MOVES]. *)
Definition buffers_fit (MAX_MOVES : nat) (b : Board) : Prop :=
  length (generate b ALL) <= MAX_MOVES
  /\ length (generate b WINNING) <= MAX_MOVES
  /\ length (generate b DEFEND_FIVE) <= MAX_MOVES
  /\ length (generate b DEFEND_FOUR ++ generate b VCF) <= MAX_MOVES
  /\ length (generate b (GenOr DEFEND_FOUR ALL) ++ generate b VCF) <= MAX_MOVES
  /\ (forall r, length (generate b (DEFEND_B4F3_of r) ++ generate b VCF) <= MAX_MOVES)
  /\ (forall g q, length (generateNeighbors b g q) <= MAX_MOVES).

(** The yield predicate of [pickNextMove] on a buffer move, the
    caller's filter left out. *)
Definition accepted (p : MovePicker) (m : Move) : bool :=
  negb (Pos_eqb (pos m) (ttMove p))
  && (negb (bool_decide (rule p = RENJU) && bool_decide (sideToMove (board p) = BLACK))
      || negb (checkForbiddenPoint (board p) (pos m))).

(** After a call that yielded [r], the picker records the scores of the
    yielded move: the buffer move just passed by [curMove] is at [r] and
    [curScore], [curPolicyScore] hold its [score] and [rawScore]. *)
Definition records_scores (r : Pos) (p' : MovePicker) : Prop :=
  exists m,
    moves p' !! (curMove p' - 1) = Some m /\ pos m = r
    /\ curScore p' = Some (score m) /\ curPolicyScore p' = Some (rawScore m).

(** [q] is [p] about to stream a buffer it has just filled. *)
Definition entered (p q : MovePicker) : Prop :=
  board q = board p /\ rule q = rule p /\ ttMove q = ttMove p
  /\ stage q = ALLMOVES /\ curMove q = 0
  /\ curScore q = curScore p /\ curPolicyScore q = curPolicyScore p.

(** The positions the generators of a board produce. *)
Definition generated (b : Board) (x : Pos) : Prop :=
  (exists g, x ∈ map pos (generate b g))
  \/ (exists g s, x ∈ map pos (generateNeighbors b g s)).

(** The stages that generate. *)
Definition is_gen_stage (s : Z) : Prop :=
  s = MAIN_MOVES \/ s = DEFENDFIVE_MOVES \/ s = DEFENDFOUR_MOVES
  \/ s = DEFENDB4F3_MOVES \/ s = QVCF_MOVES.

(** What one call leaves alone. *)
Definition same_node (p q : MovePicker) : Prop :=
  board q = board p /\ rule q = rule p /\ ttMove q = ttMove p.

(** ** The accessors of [movepick.h]

    A difference of scores is defined once both members it reads have been
    assigned; it is computed on [int] and returned as a [Score]. *)
Definition hasPolicyScore (p : MovePicker) : bool := hasPolicy p.
Definition maxMovePolicy (p : MovePicker) : option Score := maxPolicyScore p.
Definition curMovePolicy (p : MovePicker) : option Score := curPolicyScore p.
Definition curMoveScore (p : MovePicker) : option Score := curScore p.

Definition curMovePolicyDiff (Score_lowest : Z) (p : MovePicker) : option Score :=
  match maxPolicyScore p, curPolicyScore p with
  | Some mx, Some c => Some (to_Score Score_lowest (mx - c))
  | _, _ => None
  end.

Definition curMoveScoreDiff (Score_lowest : Z) (p : MovePicker) : option Score :=
  match maxPolicyScore p, curScore p with
  | Some mx, Some c => Some (to_Score Score_lowest (mx - c))
  | _, _ => None
  end.

(** The quotient the [MAIN_HISTORY] block adds to the score of the move
    [m]. *)
Definition mainHistory_term (h : MainHistory) (b : Board) (m : Move) : Z :=
  let self := sideToMove b in
  if p4_geb (Cell.pattern4 (cell b (pos m)) self) H_FLEX3
  then (h self (pos m) HIST_ATTACK ÷ 128)%Z
  else (h self (pos m) HIST_QUIET ÷ 256)%Z.

(** The picker [p] reading another main history table. *)
Definition with_mainHistory (h : MainHistory) (p : MovePicker) : MovePicker :=
  mkPicker (board p) (Some h) (counterMoveHistory p) (continuationHistory p)
    (stage p) (rule p) (ttMove p) (allowPlainB4InVCF p) (hasPolicy p)
    (curScore p) (curPolicyScore p) (maxPolicyScore p) (curMove p) (moves p).

(** The positions of a list in front of the first [NONE]. *)
Fixpoint until_NONE (l : list Pos) : list Pos :=
  match l with
  | [] => []
  | x :: l' => if Pos_eqb x NONE then [] else x :: until_NONE l'
  end.

(** The stages that score and sort what they generate. *)
Definition is_scored_stage (s : Z) : Prop :=
  s = MAIN_MOVES \/ s = DEFENDFOUR_MOVES \/ s = DEFENDB4F3_MOVES \/ s = QVCF_MOVES.

(** The stages that score with the [POLICY] flag. *)
Definition is_policy_stage (s : Z) : Prop :=
  s = MAIN_MOVES \/ s = DEFENDFOUR_MOVES \/ s = DEFENDB4F3_MOVES.

(** The policy members are assigned together: [maxPolicyScore] holds a
    value exactly when [hasPolicy] is set. *)
Definition policy_guarded (p : MovePicker) : Prop :=
  hasPolicy p = true <-> exists mx, maxPolicyScore p = Some mx.

(** The stages of a quiescence picker, and [ALLMOVES]. *)
Definition quiescence_stage (s : Z) : Prop :=
  s = DEFENDFIVE_TT \/ s = DEFENDFIVE_MOVES \/ s = QVCF_TT \/ s = QVCF_MOVES
  \/ s = ALLMOVES.

(** ** The dataset readers of [tuning/dataset.cpp]

    The pure parts of the readers: the unpacking of bit planes, the
    conversion of a board array into a move sequence, and the checks
    [PackedBinaryDataset::next] makes on an entry.  What the C++ code reads
    from a stream is an argument here. *)
Module Dataset.

(** [(byte >> (7 - i)) & 0x1]. *)
Definition bit_of (byte : Z) (i : nat) : Z :=
  Z.land (Z.shiftr byte (7 - Z.of_nat i)) 1.

(** The loop [for (i = 0; i < n; i++) bits[i] = (byte >> (7 - i)) & 0x1]. *)
Definition unpack_byte (byte : Z) (n : nat) : list Z :=
  map (bit_of byte) (seq 0 n).

(** The loop over the whole bytes: [byte = *bytes++] faults when the array
    holds no further byte.  The result carries the bits written and the
    bytes from the pointer on. *)
Fixpoint unpack_whole (n : nat) (bytes : list Z) : option (list Z * list Z) :=
  match n with
  | O => Some ([], bytes)
  | S n' =>
      match bytes with
      | [] => None
      | byte :: bytes' =>
          match unpack_whole n' bytes' with
          | Some (bits, rest) => Some (unpack_byte byte 8 ++ bits, rest)
          | None => None
          end
      end
  end.

(** [void unpackBytesToBits(const uint8_t *bytes, size_t numBits, uint8_t *bits)]:
    the bits written, or [None] when a byte is read behind the end of
    [bytes].  The read [uint8_t byte = *bytes] in front of the last loop is
    made whatever [numBits] is. *)
Definition unpackBytesToBits (bytes : list Z) (numBits : nat) : option (list Z) :=
  let numBytesFloored := numBits / 8 in
  let numBitsRemained := numBits mod 8 in
  match unpack_whole numBytesFloored bytes with
  | None => None
  | Some (bits, rest) =>
      match rest with
      | [] => None
      | byte :: _ => Some (bits ++ unpack_byte byte numBitsRemained)
      end
  end.

(** [Pos pos(i % boardSize, i / boardSize)]; the C++ expression divides by
    [boardSize], which is positive wherever the function is called. *)
Definition pos_of_index (boardSize i : nat) : Pos :=
  At (Z.of_nat (i mod boardSize)) (Z.of_nat (i / boardSize)).

(** The first loop of [boardArrayToPosSequence], from index [i] on: the
    positions pushed to [blackPos] and to [whitePos].  A cell of the board
    array is [Some BLACK], [Some WHITE] or, for every other value of the
    enumeration, [None]. *)
Fixpoint split_colors (boardSize i : nat) (boardArray : list (option Color))
    : list Pos * list Pos :=
  match boardArray with
  | [] => ([], [])
  | c :: rest =>
      let '(blackPos, whitePos) := split_colors boardSize (S i) rest in
      match c with
      | Some BLACK => (pos_of_index boardSize i :: blackPos, whitePos)
      | Some WHITE => (blackPos, pos_of_index boardSize i :: whitePos)
      | None => (blackPos, whitePos)
      end
  end.

(** The second loop: [numCommonPos] pairs, black first. *)
Fixpoint interleave (numCommonPos : nat) (blackPos whitePos : list Pos) : list Pos :=
  match numCommonPos, blackPos, whitePos with
  | S n, b :: bl, w :: wh => b :: w :: interleave n bl wh
  | _, _, _ => []
  end.

(** [void boardArrayToPosSequence(const std::vector<Color> &, int, std::vector<Pos> &)]:
    the sequence left in [posSequence]. *)
Definition boardArrayToPosSequence (boardArray : list (option Color)) (boardSize : nat)
    : list Pos :=
  let '(blackPos, whitePos) := split_colors boardSize 0 boardArray in
  let numCommonPos := Nat.min (length blackPos) (length whitePos) in
  interleave numCommonPos blackPos whitePos
  ++ (if numCommonPos <? length blackPos
      then match blackPos !! numCommonPos with
           | Some b => [b]
           | None => []
           end
      else []).

(** The widths of the bit fields of [struct EntryHead]: [result : 2],
    [ply : 9], [boardsize : 5], [rule : 3], [move : 13], all unsigned. *)
Definition head_fits (result : Z) (ply : nat) (boardsize rule move : Z) : bool :=
  (0 <=? result)%Z && (result <? 4)%Z
  && (ply <? 512)
  && (0 <=? boardsize)%Z && (boardsize <? 32)%Z
  && (0 <=? rule)%Z && (rule <? 8)%Z
  && (0 <=? move)%Z && (move <? 8192)%Z.

(** [struct EntryHead]: each bit field as the number it holds, which is
    below two to the power of its width. *)
Record EntryHead : Type := mkHead {
  result : Z;
  ply : nat;
  boardsize : Z;
  rule : Z;
  move : Z;
  head_bits : head_fits result ply boardsize rule move = true
}.

(** [enum Result], numbered as the header encodes it. *)
Inductive Result : Type := RESULT_LOSS | RESULT_DRAW | RESULT_WIN.

Definition Result_of (r : Z) : Result :=
  if (r =? 0)%Z then RESULT_LOSS else if (r =? 1)%Z then RESULT_DRAW else RESULT_WIN.

(** [ehead.rule == 4 ? RENJU : Rule(ehead.rule)]. *)
Definition Rule_of (r : Z) : Rule :=
  if (r =? 4)%Z then RENJU else if (r =? 0)%Z then FREESTYLE else STANDARD.

(** The members of [DataEntry] that [next] assigns. *)
Record DataEntry : Type := mkEntry {
  entry_boardsize : Z;
  entry_rule : Rule;
  entry_result : Result;
  entry_position : list Pos;
  entry_move : Pos
}.

(** The ways [next] fails: its [std::runtime_error]s; [stream_failure],
    the exception of the stream when it holds fewer words than [ply]; and
    [position_overflow], which is no exception: [ply] words are read into
    [uint16_t position[MAX_MOVES]], and with [ply] above [MAX_MOVES] the
    read writes behind the array. *)
Inductive DataError : Type :=
  | wrong_boardsize
  | wrong_rule
  | wrong_result
  | wrong_ply
  | wrong_move_sequence (x y : Z)
  | duplicate_move (p : Pos)
  | wrong_best_move (x y : Z)
  | stream_failure
  | position_overflow.

(** [coordX] and [coordY] of a 16-bit move word. *)
Definition coordX (w : Z) : Z := Z.land (Z.shiftr w 5) 31.
Definition coordY (w : Z) : Z := Z.land w 31.

Definition off_board (bs x y : Z) : bool :=
  (x <? 0)%Z || (y <? 0)%Z || (bs <=? x)%Z || (bs <=? y)%Z.

(** The loop [for (ply = 0; ply < ehead.ply; ply++)] over the words read:
    [movedPos] is the set of positions seen, [position] the sequence built. *)
Fixpoint read_moves (bs : Z) (words : list Z) (movedPos position : list Pos)
    : DataError + (list Pos * list Pos) :=
  match words with
  | [] => inr (movedPos, position)
  | w :: ws =>
      let x := coordX w in
      let y := coordY w in
      let p := At x y in
      if off_board bs x y then inl (wrong_move_sequence x y)
      else if bool_decide (p ∈ movedPos) then inl (duplicate_move p)
      else read_moves bs ws (p :: movedPos) (position ++ [p])
  end.

(** The checks of the entry head. *)
Definition check_head (ehead : EntryHead) : option DataError :=
  if (boardsize ehead =? 0)%Z then Some wrong_boardsize
  else if negb ((rule ehead =? 0)%Z || (rule ehead =? 1)%Z || (rule ehead =? 4)%Z)
  then Some wrong_rule
  else if negb ((result ehead =? 0)%Z || (result ehead =? 1)%Z || (result ehead =? 2)%Z)
  then Some wrong_result
  else if (boardsize ehead * boardsize ehead <? Z.of_nat (ply ehead))%Z
  then Some wrong_ply
  else None.

(** [bool PackedBinaryDataset::next(DataEntry *entry)] once the head
    [ehead] has been read; [stream] holds the 16-bit words that follow it
    and [MAX_MOVES] is the length of the local array [position].  With
    [entry] null the words are skipped unread; otherwise the entry is
    built or the call fails. *)
Definition next (MAX_MOVES : nat) (ehead : EntryHead) (stream : list Z) (entry : bool)
    : DataError + option DataEntry :=
  match check_head ehead with
  | Some e => inl e
  | None =>
      if entry then
        if MAX_MOVES <? ply ehead then inl position_overflow
        else if length stream <? ply ehead then inl stream_failure
        else
          match read_moves (boardsize ehead) (take (ply ehead) stream) [] [] with
          | inl e => inl e
          | inr (movedPos, position) =>
              let bestX := coordX (move ehead) in
              let bestY := coordY (move ehead) in
              let bestMove := At bestX bestY in
              if (bestX =? boardsize ehead)%Z && (bestY =? boardsize ehead)%Z
              then inr (Some (mkEntry (boardsize ehead) (Rule_of (rule ehead))
                                (Result_of (result ehead)) position bestMove))
              else if off_board (boardsize ehead) bestX bestY
                      || bool_decide (bestMove ∈ movedPos)
              then inl (wrong_best_move bestX bestY)
              else inr (Some (mkEntry (boardsize ehead) (Rule_of (rule ehead))
                                (Result_of (result ehead)) position bestMove))
      end
      else inr None
  end.

(** The indices of the cells that hold a stone of colour [c], ascending;
    the first cell of [boardArray] has index [i]. *)
Fixpoint stones_of (c : Color) (i : nat) (boardArray : list (option Color)) : list nat :=
  match boardArray with
  | [] => []
  | x :: rest =>
      if bool_decide (x = Some c) then i :: stones_of c (S i) rest
      else stones_of c (S i) rest
  end.

(** The packing the comment in [next] gives for a move word:
    [uint16_t move = (x << 5) | y]. *)
Definition pack (x y : Z) : Z := Z.lor (Z.shiftl x 5) y.

(** A position on a board of size [bs]. *)
Definition on_board (bs : Z) (p : Pos) : Prop :=
  match p with
  | At x y => (0 <= x < bs)%Z /\ (0 <= y < bs)%Z
  | NONE => False
  end.

(** [Pos pos {x, y}] for the coordinates of a move word. *)
Definition word_pos (w : Z) : Pos := At (coordX w) (coordY w).

(** A board of three rows with three black and two white stones, and a
    packed entry of three moves on a board of size 15 under Renju. *)
Definition sample_board : list (option Color) :=
  [Some WHITE; Some BLACK; None;
   None; Some BLACK; Some WHITE;
   Some BLACK; None; None].

Definition sample_head : EntryHead := mkHead 2 3 15 4 (pack 15 15) eq_refl.

Definition sample_words : list Z := [pack 7 7; pack 8 7; pack 6 8; 999%Z].

Definition sample_entry : DataEntry :=
  mkEntry 15 RENJU RESULT_WIN [At 7 7; At 8 7; At 6 8] (At 15 15).

End Dataset.

(** ** Sample positions

    Concrete boards and pickers on which the definitions are run. *)
Module Sample.

Definition a_cell (p4b p4w : Pattern4) (sb sw : Score) : Cell.t :=
  Cell.mk (fun c => match c with BLACK => p4b | WHITE => p4w end)
          (fun c => match c with BLACK => sb | WHITE => sw end).

Definition H8 : Pos := At 7 7.
Definition G7 : Pos := At 6 6.
Definition J9 : Pos := At 8 8.

(** Black to move, no threat on the board; [H8] makes a three for Black
    and scores 3 for Black, 0 for White; every square is empty. *)
Definition quiet : Board :=
  mkBoard BLACK
    (fun p => if Pos_eqb p H8 then a_cell H_FLEX3 NONE_P4 3 0
              else a_cell NONE_P4 NONE_P4 1 1)
    (fun p => negb (Pos_eqb p NONE)) (fun p => negb (Pos_eqb p NONE))
    (fun _ _ => 0) NONE (fun _ => NONE) (fun _ => false) true None
    (fun g => match g with
              | ALL => [mkMove G7 0 0; mkMove H8 0 0; mkMove J9 0 0]
              | _ => []
              end)
    (fun _ _ => []).

(** A main history whose every entry is -1. *)
Definition minus_one : MainHistory := fun _ _ _ => (-1)%Z.
Definition no_counter : CounterMoveHistory := fun _ _ => (NONE, NONE_P4).
Definition no_cont : ContinuationHistory := fun _ _ => 0%Z.

(** A picker over [quiet] whose buffer holds the move [H8]. *)
Definition scoring : MovePicker :=
  mkPicker quiet (Some minus_one) (Some no_counter) (Some no_cont)
    MAIN_MOVES FREESTYLE NONE false false None None None 0 [mkMove H8 0 0].

(** Renju, Black to move, White threatens an open four; [H8] is empty and
    a forbidden point for Black. *)
Definition renju_four : Board :=
  mkBoard BLACK
    (fun p => if Pos_eqb p H8 then a_cell FORBID E_BLOCK4 0 5
              else a_cell NONE_P4 NONE_P4 1 1)
    (fun p => negb (Pos_eqb p NONE)) (fun p => negb (Pos_eqb p NONE))
    (fun c p => match c, p with WHITE, B_FLEX4 => 1 | _, _ => 0 end)
    G7 (fun _ => G7) (fun p => Pos_eqb p H8) true None
    (fun g => match g with
              | DEFEND_FOUR => [mkMove H8 0 0; mkMove J9 0 0]
              | _ => []
              end)
    (fun _ _ => []).

Definition main_args (tt : Pos) : MainArgs.t :=
  MainArgs.mk tt minus_one no_counter no_cont.

(** White has made a five threat at [H8]; Black to move. *)
Definition five_threat : Board :=
  mkBoard BLACK
    (fun p => if Pos_eqb p H8 then a_cell NONE_P4 A_FIVE 0 9
              else a_cell NONE_P4 NONE_P4 1 1)
    (fun p => negb (Pos_eqb p NONE)) (fun p => negb (Pos_eqb p NONE))
    (fun c p => match c, p with WHITE, A_FIVE => 1 | _, _ => 0 end)
    G7 (fun _ => G7) (fun _ => false) true None
    (fun g => match g with
              | DEFEND_FIVE => [mkMove H8 4 2]
              | _ => []
              end)
    (fun _ _ => []).

(** [quiet] with no square inside the bounds of [cell]. *)
Definition unbounded_cell : Checked.BBoard :=
  Checked.mkBBoard quiet (fun _ => false) (fun _ => true).

(** [quiet] with every position but [NONE] inside the bounds of both
    accessors. *)
Definition none_outside : Checked.BBoard :=
  Checked.mkBBoard quiet (fun p => negb (Pos_eqb p NONE)) (fun p => negb (Pos_eqb p NONE)).

(** [quiet] with an evaluator whose policy prefers [J9] to [H8] and [H8]
    to every other position. *)
Definition quiet_policy : Board :=
  mkBoard BLACK
    (fun p => if Pos_eqb p H8 then a_cell H_FLEX3 NONE_P4 3 0
              else a_cell NONE_P4 NONE_P4 1 1)
    (fun p => negb (Pos_eqb p NONE)) (fun p => negb (Pos_eqb p NONE))
    (fun _ _ => 0) NONE (fun _ => NONE) (fun _ => false) true
    (Some (mkEvaluator (fun _ p => if Pos_eqb p J9 then 40%Z
                                   else if Pos_eqb p H8 then 20%Z else 10%Z)))
    (fun g => match g with
              | ALL => [mkMove G7 0 0; mkMove H8 0 0; mkMove J9 0 0]
              | _ => []
              end)
    (fun _ _ => []).



End Sample.

(** * Properties *)

(** ** The partial sorter *)

Example fps_small :
  map score (fastPartialSort 16 (map mv [-5; 3; 7; -1]%Z) 0%Z) = [7; 3; -5; -1]%Z.
Proof. reflexivity. Qed.

Example fps_mid :
  map score (fastPartialSort 6 (map mv [-5; 3; 7; -1]%Z) 0%Z) = [7; 3; -1; -5]%Z.
Proof. reflexivity. Qed.

Example fps_large :
  map score (fastPartialSort 6 (map mv [1; 2; 3; 4; 5; 6]%Z) 0%Z) = [6; 5; 4; 3; 1; 2]%Z.
Proof. reflexivity. Qed.

Lemma Move_lt_spec (a b : Move) : Move_lt a b = true <-> (score a < score b)%Z.
Proof. unfold Move_lt. apply Z.ltb_lt. Qed.

Lemma Move_lt_false (a b : Move) : Move_lt a b = false <-> (score b <= score a)%Z.
Proof. unfold Move_lt. apply Z.ltb_ge. Qed.

Lemma Move_gt_spec (a b : Move) : Move_gt a b = true <-> (score b < score a)%Z.
Proof. unfold Move_gt. apply Z.ltb_lt. Qed.

Lemma Move_gt_false (a b : Move) : Move_gt a b = false <-> (score a <= score b)%Z.
Proof. unfold Move_gt. apply Z.ltb_ge. Qed.

#[local] Instance desc_trans : Transitive desc.
Proof. intros a b c; unfold desc; lia. Qed.

Section InsertionBranch.

Variable tmp : Move.

Lemma insert_back_nil : insert_back tmp [] = [tmp].
Proof. reflexivity. Qed.

Lemma insert_back_snoc (l : list Move) (x : Move) :
  insert_back tmp (l ++ [x]) =
  if Move_lt x tmp then insert_back tmp l ++ [x] else l ++ [x; tmp].
Proof.
  unfold insert_back. rewrite rev_app_distr. simpl.
  destruct (Move_lt x tmp); simpl.
  - reflexivity.
  - rewrite rev_involutive, <- app_assoc. reflexivity.
Qed.

Lemma insert_back_length (l : list Move) : length (insert_back tmp l) = S (length l).
Proof.
  induction l as [|x l IH] using rev_ind; [reflexivity|].
  rewrite insert_back_snoc. destruct (Move_lt x tmp);
    rewrite !length_app; simpl; rewrite ?IH; lia.
Qed.

Lemma insert_back_perm (l : list Move) : Permutation (insert_back tmp l) (tmp :: l).
Proof.
  induction l as [|x l IH] using rev_ind; [reflexivity|].
  rewrite insert_back_snoc. destruct (Move_lt x tmp).
  - rewrite IH. simpl. reflexivity.
  - change [x; tmp] with ([x] ++ [tmp]). rewrite app_assoc.
    rewrite <- Permutation_cons_append. reflexivity.
Qed.

Lemma insert_back_sorted (l : list Move) :
  desc_sorted l -> desc_sorted (insert_back tmp l).
Proof.
  unfold desc_sorted.
  induction l as [|x l IH] using rev_ind; intros Hs.
  - repeat constructor.
  - rewrite insert_back_snoc. apply StronglySorted_app in Hs as (Hle & Hl & _).
    destruct (Move_lt x tmp) eqn:E.
    + apply Move_lt_spec in E. apply StronglySorted_app_2.
      * intros a b Ha Hb. apply list_elem_of_singleton in Hb as ->.
        rewrite insert_back_perm in Ha. apply elem_of_cons in Ha as [->|Ha].
        -- unfold desc; lia.
        -- apply Hle; [done | apply list_elem_of_singleton; done].
      * auto.
      * repeat constructor.
    + apply Move_lt_false in E.
      change [x; tmp] with ([x] ++ [tmp]). rewrite app_assoc.
      apply StronglySorted_app_2.
      * intros a b Ha Hb. apply list_elem_of_singleton in Hb as ->.
        apply elem_of_app in Ha as [Ha|Ha].
        -- specialize (Hle a x Ha). unfold desc in *.
           assert (score x <= score a)%Z by (apply Hle, list_elem_of_singleton; done). lia.
        -- apply list_elem_of_singleton in Ha as ->. exact E.
      * apply StronglySorted_app_2; [exact Hle | exact Hl | repeat constructor].
      * repeat constructor.
Qed.

(** The inner loop, run from the end of a range [l1], is [insert_back]. *)
Lemma insert_shift_app (l1 : list Move) :
  forall (y : Move) (l2 : list Move),
    insert_shift (l1 ++ y :: l2) tmp (length l1) = insert_back tmp l1 ++ l2.
Proof.
  induction l1 as [|prev l IH] using rev_ind; intros y l2.
  - reflexivity.
  - rewrite length_app. simpl. rewrite Nat.add_1_r. simpl.
    rewrite <- app_assoc. simpl.
    rewrite list_lookup_middle by reflexivity.
    rewrite insert_back_snoc.
    replace (S (length l)) with (length (l ++ [prev]) + 0)
      by (rewrite length_app; simpl; lia).
    change (l ++ prev :: y :: l2) with (l ++ [prev] ++ y :: l2).
    rewrite (app_assoc l [prev]).
    rewrite !insert_app_r. simpl.
    destruct (Move_lt prev tmp).
    + rewrite <- !app_assoc. simpl. apply IH.
    + rewrite <- !app_assoc. reflexivity.
Qed.

End InsertionBranch.

Lemma rotate_perm (mid : list Move) : Permutation (rotate mid) mid.
Proof.
  destruct mid as [|y m]; simpl; [reflexivity|].
  symmetry. apply Permutation_cons_append.
Qed.

Lemma rotate_length (mid : list Move) : length (rotate mid) = length mid.
Proof. apply Permutation_length, rotate_perm. Qed.

Lemma insertion_loop_S (n : nat) (limit : Score) (a : list Move) (sortedEnd p : nat) :
  insertion_loop (S n) limit a sortedEnd p =
  match a !! p with
  | None => a
  | Some tmp =>
      if (limit <=? score tmp)%Z then
        insertion_loop n limit
          (insert_shift (match a !! S sortedEnd with
                         | Some x => <[p := x]> a
                         | None => a
                         end) tmp (S sortedEnd))
          (S sortedEnd) (S p)
      else insertion_loop n limit a sortedEnd (S p)
  end.
Proof. reflexivity. Qed.

(** [insertion_loop] on the array [pre ++ mid ++ rest], with [sortedEnd] at
    the last element of [pre] and [p] at the first of [rest], computes
    [insertion_view]. *)
Lemma insertion_loop_view (limit : Score) (rest : list Move) :
  forall (n : nat) (pre mid : list Move),
    pre <> [] -> length rest <= n ->
    insertion_loop n limit (pre ++ mid ++ rest) (length pre - 1)
      (length pre + length mid)
    = insertion_view limit pre mid rest.
Proof.
  induction rest as [|tmp rest IH]; intros n pre mid Hpre Hn.
  - rewrite !app_nil_r. destruct n; simpl; [reflexivity|].
    rewrite lookup_ge_None_2 by (rewrite length_app; lia). reflexivity.
  - destruct n as [|n]; [simpl in Hn; lia|]. simpl in Hn.
    rewrite insertion_loop_S. simpl insertion_view.
    assert (Hp : (pre ++ mid ++ tmp :: rest) !! (length pre + length mid) = Some tmp).
    { rewrite app_assoc, <- length_app. apply list_lookup_middle. reflexivity. }
    rewrite Hp.
    destruct (limit <=? score tmp)%Z.
    + assert (HS : S (length pre - 1) = length pre)
        by (destruct pre; [congruence | simpl; lia]).
      rewrite HS.
      destruct mid as [|y mid].
      * simpl length in *. simpl app in *. rewrite Nat.add_0_r in *. rewrite Hp.
        rewrite list_insert_id by exact Hp.
        rewrite insert_shift_app.
        specialize (IH n (insert_back tmp pre) []).
        rewrite insert_back_length in IH. simpl in IH.
        rewrite Nat.sub_0_r, Nat.add_0_r in IH. simpl rotate.
        apply IH; [|lia].
        intros E. apply (f_equal length) in E.
        rewrite insert_back_length in E. discriminate.
      * assert (Hy : (pre ++ (y :: mid) ++ tmp :: rest) !! length pre = Some y).
        { simpl. apply list_lookup_middle. reflexivity. }
        rewrite Hy.
        assert (Hupd : <[length pre + length (y :: mid) := y]>
                         (pre ++ (y :: mid) ++ tmp :: rest)
                       = pre ++ y :: (mid ++ y :: rest)).
        { rewrite insert_app_r. simpl. f_equal. f_equal.
          replace (length mid) with (length mid + 0) by lia.
          rewrite insert_app_r. reflexivity. }
        rewrite Hupd, insert_shift_app.
        specialize (IH n (insert_back tmp pre) (mid ++ [y])).
        rewrite insert_back_length, length_app in IH. simpl in IH.
        rewrite Nat.sub_0_r, <- app_assoc in IH. simpl in IH.
        simpl. replace (S (length pre + S (length mid)))
          with (S (length pre + (length mid + 1))) by lia.
        apply IH; [|lia].
        intros E. apply (f_equal length) in E.
        rewrite insert_back_length in E. discriminate.
    + specialize (IH n pre (mid ++ [tmp]) Hpre).
      rewrite length_app, <- app_assoc in IH. simpl in IH.
      replace (S (length pre + length mid)) with (length pre + (length mid + 1)) by lia.
      apply IH. lia.
Qed.

Lemma partial_insertion_sort_view (limit : Score) (x : Move) (l : list Move) :
  partial_insertion_sort limit (x :: l) = insertion_view limit [x] [] l.
Proof.
  unfold partial_insertion_sort.
  apply (insertion_loop_view limit l (length (x :: l)) [x] []).
  - discriminate.
  - simpl. lia.
Qed.

(** A descending range followed by moves below the limit is partially
    sorted: the range splits where its scores fall below the limit. *)
Lemma sorted_then_below (limit : Score) (pre mid : list Move) :
  desc_sorted pre -> Forall (fun m => (score m < limit)%Z) mid ->
  partially_sorted limit (pre ++ mid).
Proof.
  unfold partially_sorted, desc_sorted.
  induction pre as [|x pre IH]; intros Hs Hmid.
  - exists [], mid. repeat split; auto.
  - apply StronglySorted_cons in Hs as [Hx Hs].
    destruct (Z_lt_le_dec (score x) limit) as [Hlt|Hge].
    + exists [], ((x :: pre) ++ mid).
      split; [reflexivity|]. split; [constructor|]. split; [constructor|].
      apply Forall_app. split; [|exact Hmid].
      constructor; [exact Hlt|].
      eapply Forall_impl; [exact Hx|]. unfold desc. intros; simpl in *; lia.
    + destruct (IH Hs Hmid) as (hi & lo & E & Hhi & Hge' & Hlo).
      exists (x :: hi), lo. simpl. rewrite E. repeat split; auto.
      apply StronglySorted_cons. split; [|exact Hhi].
      apply Forall_forall. intros a Ha.
      rewrite Forall_forall in Hx. apply Hx.
      assert (a ∈ hi ++ lo) by (apply elem_of_app; auto).
      rewrite <- E in H. apply elem_of_app in H as [H|H]; [exact H|].
      rewrite Forall_forall in Hmid, Hge'.
      specialize (Hmid a H). specialize (Hge' a Ha). simpl in *. lia.
Qed.

Lemma insertion_view_spec (limit : Score) (rest : list Move) :
  forall pre mid : list Move,
    desc_sorted pre -> Forall (fun m => (score m < limit)%Z) mid ->
    Permutation (pre ++ mid ++ rest) (insertion_view limit pre mid rest)
    /\ partially_sorted limit (insertion_view limit pre mid rest).
Proof.
  induction rest as [|tmp rest IH]; intros pre mid Hs Hmid; simpl.
  - rewrite app_nil_r. split; [reflexivity|]. apply sorted_then_below; auto.
  - destruct (limit <=? score tmp)%Z eqn:E.
    + destruct (IH (insert_back tmp pre) (rotate mid)) as [Hp Hq].
      * apply insert_back_sorted, Hs.
      * rewrite rotate_perm. exact Hmid.
      * split; [|exact Hq]. rewrite <- Hp.
        rewrite insert_back_perm, rotate_perm.
        rewrite (app_assoc pre mid), <- Permutation_middle. simpl.
        rewrite <- app_assoc. reflexivity.
    + apply Z.leb_gt in E.
      destruct (IH pre (mid ++ [tmp]) Hs) as [Hp Hq].
      * apply Forall_app. split; [exact Hmid|]. constructor; [exact E|constructor].
      * split; [|exact Hq]. rewrite <- Hp, <- app_assoc. reflexivity.
Qed.

(** The insertion branch: a reordering of the range that is partially
    sorted at the limit. *)
Lemma partial_insertion_sort_spec (limit : Score) (l : list Move) :
  Permutation l (partial_insertion_sort limit l)
  /\ partially_sorted limit (partial_insertion_sort limit l).
Proof.
  destruct l as [|x l].
  - split; [reflexivity|]. exists [], []. repeat split; constructor.
  - rewrite partial_insertion_sort_view.
    apply (insertion_view_spec limit l [x] []).
    + repeat constructor.
    + constructor.
Qed.

(** *** The library sorts *)

Lemma insert_desc_perm (m : Move) (l : list Move) :
  Permutation (insert_desc m l) (m :: l).
Proof.
  induction l as [|x l IH]; simpl; [reflexivity|].
  destruct (Move_gt m x); [reflexivity|].
  rewrite IH. apply perm_swap.
Qed.

Lemma insert_desc_sorted (m : Move) (l : list Move) :
  desc_sorted l -> desc_sorted (insert_desc m l).
Proof.
  unfold desc_sorted. induction l as [|x l IH]; intros Hs; simpl.
  - repeat constructor.
  - apply StronglySorted_cons in Hs as [Hx Hs].
    destruct (Move_gt m x) eqn:E.
    + apply Move_gt_spec in E. apply StronglySorted_cons. split.
      * constructor; [unfold desc; lia|].
        eapply Forall_impl; [exact Hx|]. unfold desc. intros; simpl in *; lia.
      * apply StronglySorted_cons. auto.
    + apply Move_gt_false in E. apply StronglySorted_cons. split; [|auto].
      rewrite insert_desc_perm. constructor; [exact E | exact Hx].
Qed.

Lemma std_sort_perm (l : list Move) : Permutation (std_sort l) l.
Proof.
  induction l as [|x l IH]; simpl; [reflexivity|].
  rewrite insert_desc_perm, IH. reflexivity.
Qed.

Lemma std_sort_sorted (l : list Move) : desc_sorted (std_sort l).
Proof.
  induction l as [|x l IH]; simpl; [constructor|].
  apply insert_desc_sorted, IH.
Qed.

Lemma last_is_least (heap : list Move) (top : Move) :
  desc_sorted heap -> last heap = Some top ->
  heap = removelast heap ++ [top] /\ below top heap
  /\ desc_sorted (removelast heap).
Proof.
  intros Hs Hl. apply last_Some in Hl as [l' ->].
  rewrite removelast_last. split; [reflexivity|].
  apply StronglySorted_app in Hs as (Hle & Hl' & _). split; [|exact Hl'].
  intros a Ha. apply elem_of_app in Ha as [Ha|Ha].
  - apply (Hle a top Ha). apply list_elem_of_singleton. reflexivity.
  - apply list_elem_of_singleton in Ha as ->. lia.
Qed.

(** Heap select: the heap stays sorted and of the same size, nothing is
    lost, bounds of the heap remain bounds, and what is left behind does
    not exceed what is kept. *)
Lemma heap_select_spec (rest : list Move) :
  forall heap h t : list Move,
    desc_sorted heap -> heap_select heap rest = (h, t) ->
    desc_sorted h /\ length h = length heap
    /\ Permutation (heap ++ rest) (h ++ t)
    /\ (forall b, below b heap -> below b h)
    /\ (forall b, b ∈ t -> below b h).
Proof.
  induction rest as [|x rest IH]; intros heap h t Hs Hsel; simpl in Hsel.
  - injection Hsel as <- <-. rewrite app_nil_r. repeat split; auto.
    intros b Hb. apply elem_of_nil in Hb. contradiction.
  - destruct (last heap) as [top|] eqn:Hlast.
    + destruct (last_is_least heap top Hs Hlast) as (Hheap & Htop & Hrl).
      destruct (Move_gt x top) eqn:Hgt.
      * apply Move_gt_spec in Hgt.
        destruct (heap_select (insert_desc x (removelast heap)) rest)
          as [h' t'] eqn:Hrec.
        injection Hsel as <- <-.
        destruct (IH _ _ _ (insert_desc_sorted x _ Hrl) Hrec)
          as (Hh & Hlen & Hperm & Hlow & Htail).
        assert (Hkeep : forall b, below b heap -> (score b <= score x)%Z ->
                                  below b (insert_desc x (removelast heap))).
        { intros b Hb Hbx a Ha. rewrite insert_desc_perm in Ha.
          apply elem_of_cons in Ha as [->|Ha]; [exact Hbx|].
          apply Hb. rewrite Hheap. apply elem_of_app. auto. }
        split; [exact Hh|]. split.
        { rewrite Hlen. rewrite (Permutation_length (insert_desc_perm _ _)).
          rewrite Hheap at 2. rewrite length_app. simpl. lia. }
        split.
        { transitivity (top :: h' ++ t'); [|apply Permutation_middle].
          rewrite <- Hperm, insert_desc_perm.
          rewrite Hheap at 1. rewrite <- app_assoc. simpl.
          rewrite <- (Permutation_middle (removelast heap) (x :: rest) top).
          apply perm_skip. symmetry. apply Permutation_middle. }
        split.
        { intros b Hb. apply Hlow, Hkeep; [exact Hb|].
          assert (score b <= score top)%Z; [|lia].
          apply Hb. rewrite Hheap. apply elem_of_app. right.
          apply list_elem_of_singleton. reflexivity. }
        { intros b Hb. apply elem_of_cons in Hb as [->|Hb]; [|auto].
          apply Hlow, Hkeep; [exact Htop | lia]. }
      * apply Move_gt_false in Hgt.
        destruct (heap_select heap rest) as [h' t'] eqn:Hrec.
        injection Hsel as <- <-.
        destruct (IH _ _ _ Hs Hrec) as (Hh & Hlen & Hperm & Hlow & Htail).
        repeat split; auto.
        { transitivity (x :: h' ++ t'); [|apply Permutation_middle].
          rewrite <- Hperm. symmetry. apply Permutation_middle. }
        { intros b Hb. apply elem_of_cons in Hb as [->|Hb]; [|auto].
          apply Hlow. intros a Ha. specialize (Htop a Ha). lia. }
    + destruct (heap_select heap rest) as [h' t'] eqn:Hrec.
      injection Hsel as <- <-.
      destruct (IH _ _ _ Hs Hrec) as (Hh & Hlen & Hperm & Hlow & Htail).
      repeat split; auto.
      { transitivity (x :: h' ++ t'); [|apply Permutation_middle].
        rewrite <- Hperm. symmetry. apply Permutation_middle. }
      { intros b Hb. apply elem_of_cons in Hb as [->|Hb]; [|auto].
        apply last_None in Hlast. subst heap. destruct h'; [|discriminate].
        intros a Ha. apply elem_of_nil in Ha. contradiction. }
Qed.

(** The contract of [std::partial_sort]: the first [middle] moves are the
    greatest, in descending order. *)
Lemma std_partial_sort_spec (middle : nat) (l : list Move) :
  exists h t,
    std_partial_sort middle l = h ++ t
    /\ length h = Nat.min middle (length l)
    /\ desc_sorted h
    /\ Permutation l (h ++ t)
    /\ (forall b, b ∈ t -> below b h).
Proof.
  unfold std_partial_sort.
  destruct (heap_select (std_sort (take middle l)) (drop middle l)) as [h t] eqn:E.
  destruct (heap_select_spec _ _ _ _ (std_sort_sorted _) E)
    as (Hh & Hlen & Hperm & _ & Htail).
  exists h, t. repeat split; auto.
  - rewrite Hlen, (Permutation_length (std_sort_perm _)). apply length_take.
  - rewrite <- Hperm, std_sort_perm, take_drop. reflexivity.
Qed.

(** No exchange takes place when nothing behind [middle] exceeds the
    least of the heap: the tail is left as it stands. *)
Lemma heap_select_untouched (rest heap : list Move) :
  (forall b a, b ∈ rest -> a ∈ heap -> (score b <= score a)%Z) ->
  heap_select heap rest = (heap, rest).
Proof.
  induction rest as [|x rest IH]; intros Hle; simpl; [reflexivity|].
  assert (Hrec : heap_select heap rest = (heap, rest)).
  { apply IH. intros b a Hb Ha. apply Hle; [|exact Ha]. apply elem_of_cons. auto. }
  destruct (last heap) as [top|] eqn:Hlast.
  - assert (Hx : Move_gt x top = false).
    { apply Move_gt_false. apply Hle; [apply elem_of_cons; auto|].
      apply last_Some in Hlast as [l' ->]. apply elem_of_app. right.
      apply list_elem_of_singleton. reflexivity. }
    rewrite Hx, Hrec. reflexivity.
  - rewrite Hrec. reflexivity.
Qed.

(** *** [fastPartialSort] *)

Lemma count_at_least_app (limit : Score) (l1 l2 : list Move) :
  count_at_least limit (l1 ++ l2) = count_at_least limit l1 + count_at_least limit l2.
Proof. unfold count_at_least. rewrite List.filter_app, length_app. reflexivity. Qed.

Lemma count_at_least_perm (limit : Score) (l1 l2 : list Move) :
  Permutation l1 l2 -> count_at_least limit l1 = count_at_least limit l2.
Proof.
  unfold count_at_least. induction 1; simpl; auto.
  - destruct (limit <=? score x)%Z; simpl; auto.
  - destruct (limit <=? score x)%Z, (limit <=? score y)%Z; reflexivity.
  - congruence.
Qed.

Lemma count_at_least_le (limit : Score) (l : list Move) :
  count_at_least limit l <= length l.
Proof. apply List.filter_length_le. Qed.

Lemma count_at_least_all (limit : Score) (l : list Move) :
  Forall (fun m => (limit <= score m)%Z) l -> count_at_least limit l = length l.
Proof.
  unfold count_at_least. induction 1 as [|x l Hx _ IH]; simpl; [reflexivity|].
  apply Z.leb_le in Hx. rewrite Hx. simpl. congruence.
Qed.

Lemma count_at_least_pos (limit : Score) (l : list Move) (b : Move) :
  b ∈ l -> (limit <= score b)%Z -> 0 < count_at_least limit l.
Proof.
  intros Hb Hge. apply list_elem_of_In in Hb.
  assert (Hin : In b (List.filter (fun m => (limit <=? score m)%Z) l)).
  { apply List.filter_In. split; [exact Hb|]. apply Z.leb_le. exact Hge. }
  unfold count_at_least.
  destruct (List.filter _ l); [destruct Hin | simpl; lia].
Qed.

(** In a partially sorted range a move that reaches the limit is not
    preceded by a move of lower score. *)
Lemma partially_sorted_order (limit : Score) (l : list Move) (i j : nat) (x y : Move) :
  partially_sorted limit l -> i < j ->
  l !! i = Some x -> l !! j = Some y -> (limit <= score y)%Z ->
  (score y <= score x)%Z.
Proof.
  intros (hi & lo & -> & Hs & _ & Hlo) Hij Hx Hy Hge.
  destruct (decide (j < length hi)) as [Hj|Hj].
  - rewrite lookup_app_l in Hx by lia. rewrite lookup_app_l in Hy by lia.
    apply list_elem_of_split_length in Hy as (l1 & l2 & -> & Hl1).
    rewrite lookup_app_l in Hx by lia.
    apply StronglySorted_app in Hs as (Hle & _ & _).
    apply (Hle x y).
    + apply list_elem_of_lookup. eauto.
    + apply elem_of_cons. auto.
  - rewrite lookup_app_r in Hy by lia.
    rewrite Forall_forall in Hlo.
    assert (score y < limit)%Z; [|lia].
    apply Hlo. apply list_elem_of_lookup. eauto.
Qed.

Section FastPartialSort.

Variable MAX_MOVES : nat.
Variable limit : Score.

Local Abbreviation SortLimit := (MAX_MOVES * 2 / 3).

(** Every branch reorders the range. *)
Lemma fastPartialSort_perm (l : list Move) :
  Permutation l (fastPartialSort MAX_MOVES l limit).
Proof.
  unfold fastPartialSort.
  destruct (length l <=? MAX_MOVES / 4).
  - apply partial_insertion_sort_spec.
  - destruct (length l <=? SortLimit).
    + symmetry. apply std_sort_perm.
    + destruct (std_partial_sort_spec SortLimit l) as (h & t & -> & _ & _ & Hp & _).
      exact Hp.
Qed.

(** A range longer than [SortLimit]: its first [SortLimit] moves are the
    greatest, in descending order; the limit plays no part. *)
Lemma fastPartialSort_long (l : list Move) :
  SortLimit < length l ->
  exists h t,
    fastPartialSort MAX_MOVES l limit = h ++ t
    /\ length h = SortLimit /\ desc_sorted h
    /\ (forall b, b ∈ t -> below b h).
Proof.
  intros Hlen. unfold fastPartialSort.
  assert (H4 : MAX_MOVES / 4 <= SortLimit).
  { pose proof (Nat.div_mod_eq MAX_MOVES 4).
    pose proof (Nat.mod_upper_bound MAX_MOVES 4).
    pose proof (Nat.div_mod_eq (MAX_MOVES * 2) 3).
    pose proof (Nat.mod_upper_bound (MAX_MOVES * 2) 3). lia. }
  destruct (Nat.leb_spec (length l) (MAX_MOVES / 4)); [lia|].
  destruct (Nat.leb_spec (length l) SortLimit); [lia|].
  destruct (std_partial_sort_spec SortLimit l) as (h & t & E & Hl & Hs & _ & Ht).
  exists h, t. repeat split; auto. lia.
Qed.

End FastPartialSort.

(** Ranges of length up to [SortLimit] are partially sorted at any limit. *)
Lemma fastPartialSort_short (MAX_MOVES : nat) (l : list Move) (limit : Score) :
  length l <= MAX_MOVES * 2 / 3 ->
  partially_sorted limit (fastPartialSort MAX_MOVES l limit).
Proof.
  intros Hlen. unfold fastPartialSort.
  destruct (length l <=? MAX_MOVES / 4).
  - apply partial_insertion_sort_spec.
  - apply Nat.leb_le in Hlen. rewrite Hlen.
    rewrite <- (app_nil_r (std_sort l)).
    apply sorted_then_below; [apply std_sort_sorted | constructor].
Qed.

(** In the third branch the moves behind [SortLimit] stay where they are
    when none of them exceeds a move in front of it. *)
Lemma fastPartialSort_tail_kept (MAX_MOVES : nat) (l : list Move) (limit : Score) :
  MAX_MOVES * 2 / 3 < length l ->
  (forall b a, b ∈ drop (MAX_MOVES * 2 / 3) l -> a ∈ take (MAX_MOVES * 2 / 3) l ->
               (score b <= score a)%Z) ->
  fastPartialSort MAX_MOVES l limit
  = std_sort (take (MAX_MOVES * 2 / 3) l) ++ drop (MAX_MOVES * 2 / 3) l.
Proof.
  intros Hlen Hle. unfold fastPartialSort.
  assert (H4 : MAX_MOVES / 4 <= MAX_MOVES * 2 / 3).
  { pose proof (Nat.div_mod_eq MAX_MOVES 4).
    pose proof (Nat.mod_upper_bound MAX_MOVES 4).
    pose proof (Nat.div_mod_eq (MAX_MOVES * 2) 3).
    pose proof (Nat.mod_upper_bound (MAX_MOVES * 2) 3). lia. }
  destruct (Nat.leb_spec (length l) (MAX_MOVES / 4)); [lia|].
  destruct (Nat.leb_spec (length l) (MAX_MOVES * 2 / 3)); [lia|].
  unfold std_partial_sort. rewrite heap_select_untouched; [reflexivity|].
  intros b a Hb Ha. rewrite std_sort_perm in Ha. auto.
Qed.

(** Whatever the capacity, from 4 on, some range that fits the buffer
    comes out of the third branch with a move reaching the limit behind a
    move below it. *)
Lemma fastPartialSort_unsorted_tail (MAX_MOVES : nat) :
  4 <= MAX_MOVES ->
  let l := replicate (MAX_MOVES * 2 / 3) (mv 3) ++ [mv 1; mv 2] in
  length l <= MAX_MOVES
  /\ ~ partially_sorted 1 (fastPartialSort MAX_MOVES l 1).
Proof.
  intros HM l.
  assert (Hlen : length l = MAX_MOVES * 2 / 3 + 2).
  { unfold l. rewrite length_app, length_replicate. reflexivity. }
  split.
  { rewrite Hlen. pose proof (Nat.div_mod_eq (MAX_MOVES * 2) 3).
    pose proof (Nat.mod_upper_bound (MAX_MOVES * 2) 3). lia. }
  assert (Htake : take (MAX_MOVES * 2 / 3) l = replicate (MAX_MOVES * 2 / 3) (mv 3)).
  { unfold l. apply take_app_length'. symmetry. apply length_replicate. }
  assert (Hdrop : drop (MAX_MOVES * 2 / 3) l = [mv 1; mv 2]).
  { unfold l. apply drop_app_length'. symmetry. apply length_replicate. }
  rewrite fastPartialSort_tail_kept.
  - rewrite Htake, Hdrop. intros Hps.
    assert (Hl : length (std_sort (replicate (MAX_MOVES * 2 / 3) (mv 3)))
                 = MAX_MOVES * 2 / 3).
    { rewrite (Permutation_length (std_sort_perm _)). apply length_replicate. }
    assert (H := partially_sorted_order 1 _ (MAX_MOVES * 2 / 3) (S (MAX_MOVES * 2 / 3))
                   (mv 1) (mv 2) Hps).
    rewrite !lookup_app_r in H by lia.
    rewrite Hl, Nat.sub_diag in H.
    replace (S (MAX_MOVES * 2 / 3) - MAX_MOVES * 2 / 3) with 1 in H by lia.
    simpl in H. specialize (H ltac:(lia) eq_refl eq_refl). lia.
  - lia.
  - rewrite Htake, Hdrop. intros b a Hb Ha.
    apply elem_of_replicate in Ha as [-> _].
    apply elem_of_cons in Hb as [->|Hb]; [simpl; lia|].
    apply list_elem_of_singleton in Hb as ->. simpl; lia.
Qed.

(** C1 (amended): for every range and every limit, [fastPartialSort]
    reorders the range, and whenever at most [2 * MAX_MOVES / 3] of its
    moves reach the limit (every range of at most that length is such a
    range) the moves of score at least [limit] are a prefix in descending
    score order and every move of the remaining tail is below [limit]. *)
Theorem fastPartialSort_sorted_prefix (MAX_MOVES : nat) (l : list Move) (limit : Score) :
  count_at_least limit l <= MAX_MOVES * 2 / 3 ->
  Permutation l (fastPartialSort MAX_MOVES l limit)
  /\ partially_sorted limit (fastPartialSort MAX_MOVES l limit).
Proof.
  intros Hcount. split; [apply fastPartialSort_perm|].
  destruct (le_lt_dec (length l) (MAX_MOVES * 2 / 3)) as [Hlen|Hlen].
  - apply fastPartialSort_short, Hlen.
  - pose proof (fastPartialSort_perm MAX_MOVES limit l) as Hperm.
    destruct (fastPartialSort_long MAX_MOVES limit l Hlen)
      as (h & t & E & Hh & Hs & Ht).
    rewrite E in *. apply sorted_then_below; [exact Hs|].
    apply Forall_forall. intros b Hb.
    destruct (Z_lt_le_dec (score b) limit) as [Hlt|Hge]; [exact Hlt|].
    exfalso.
    rewrite (count_at_least_perm limit _ _ Hperm), count_at_least_app in Hcount.
    assert (Hall : Forall (fun m => (limit <= score m)%Z) h).
    { apply Forall_forall. intros a Ha. specialize (Ht b Hb a Ha). lia. }
    rewrite (count_at_least_all _ _ Hall) in Hcount.
    pose proof (count_at_least_pos limit t b Hb Hge). lia.
Qed.

Lemma fastPartialSort_sorted_prefix_witness :
  count_at_least 0 (map mv [5; -4; 3; 2; -1; 1]%Z) <= 6 * 2 / 3
  /\ Permutation (map mv [5; -4; 3; 2; -1; 1]%Z)
       (fastPartialSort 6 (map mv [5; -4; 3; 2; -1; 1]%Z) 0)
  /\ partially_sorted 0 (fastPartialSort 6 (map mv [5; -4; 3; 2; -1; 1]%Z) 0).
Proof.
  assert (H : count_at_least 0 (map mv [5; -4; 3; 2; -1; 1]%Z) <= 6 * 2 / 3)
    by (vm_compute; lia).
  split; [exact H|].
  exact (fastPartialSort_sorted_prefix 6 (map mv [5; -4; 3; 2; -1; 1]%Z) 0 H).
Defined.

(** C1 fails as stated on ranges longer than [2 * MAX_MOVES / 3]: with a
    capacity of 6 the range of scores 5 4 3 2 -1 1 is left as it is at limit
    0, the move of score 1 behind the move of score -1; with a capacity of
    484 the same happens to 322 moves of score 3 followed by scores 1 and 2
    at limit 1. *)
Lemma fastPartialSort_long_range_counterexample :
  (length (map mv [5; 4; 3; 2; -1; 1]%Z) <= 6
   /\ ~ partially_sorted 0 (fastPartialSort 6 (map mv [5; 4; 3; 2; -1; 1]%Z) 0))
  /\ (let l := replicate (484 * 2 / 3) (mv 3) ++ [mv 1; mv 2] in
      length l <= 484 /\ ~ partially_sorted 1 (fastPartialSort 484 l 1)).
Proof.
  split.
  - split; [simpl; lia|]. intros Hps.
    assert (H := partially_sorted_order 0 _ 4 5 (mv (-1)) (mv 1) Hps).
    specialize (H ltac:(lia) eq_refl eq_refl). simpl in H. lia.
  - apply fastPartialSort_unsorted_tail. lia.
Qed.

(** ** The scorer *)

Lemma has_ATTACK_BALANCED (Type_ : Z) :
  has Type_ ATTACK = true -> has Type_ BALANCED = true.
Proof.
  change BALANCED with 3%Z. unfold has, ATTACK.
  rewrite !negb_true_iff, !Z.eqb_neq. intros H E. apply H.
  change 1%Z with (Z.land 3 1). rewrite Z.land_assoc, E. reflexivity.
Qed.

Lemma has_DEFEND_BALANCED (Type_ : Z) :
  has Type_ DEFEND = true -> has Type_ BALANCED = true.
Proof.
  change BALANCED with 3%Z. unfold has, DEFEND.
  rewrite !negb_true_iff, !Z.eqb_neq. intros H E. apply H.
  change 2%Z with (Z.land 3 2). rewrite Z.land_assoc, E. reflexivity.
Qed.

(** Without a policy buffer every score type that names [ATTACK] or
    [DEFEND] takes the branch guarded by [bool(Type & BALANCED)]: the two
    branches behind it are never entered. *)
Lemma baseScore_balanced_branch (Type_ : Z) (b : Board) (m : Move) :
  has Type_ ATTACK = true \/ has Type_ DEFEND = true ->
  baseScore Type_ b None m
  = mkMove (pos m) (Cell.score (cell b (pos m)) (sideToMove b))
      (Cell.score (cell b (pos m)) (sideToMove b)).
Proof.
  intros [H|H];
    [apply has_ATTACK_BALANCED in H | apply has_DEFEND_BALANCED in H];
    unfold baseScore; rewrite H; reflexivity.
Qed.

(** C3: [scoreMoves<ATTACK>] run on the move [H8], whose cell scores 3 for
    the side to move and 0 for the opponent, sets [score] and [rawScore] to
    3, the value of the [BALANCED] branch, and not to (2 * 3 + 0) / 3 = 2;
    [scoreMoves<DEFEND>] does the same, where (3 + 2 * 0) / 3 = 1. *)
Theorem scoreMoves_ATTACK_only_scores_balanced :
  moves (scoreMoves 0 ATTACK Sample.scoring) = [mkMove Sample.H8 3 3]
  /\ moves (scoreMoves 0 DEFEND Sample.scoring) = [mkMove Sample.H8 3 3]
  /\ ((3 * 2 + 0) ÷ 3 = 2)%Z /\ ((3 + 0 * 2) ÷ 3 = 1)%Z.
Proof. repeat split; reflexivity. Qed.

Lemma baseScore_pos (Type_ : Z) (b : Board) (buf : option (Pos -> Score)) (m : Move) :
  pos (baseScore Type_ b buf m) = pos m.
Proof.
  unfold baseScore. destruct buf; [reflexivity|].
  destruct (has Type_ BALANCED); [reflexivity|].
  destruct (has Type_ ATTACK); [reflexivity|].
  destruct (has Type_ DEFEND); reflexivity.
Qed.

Lemma addMainHistory_keeps (Score_lowest Type_ : Z) (p : MovePicker) (m : Move) :
  pos (addMainHistory Score_lowest Type_ p m) = pos m
  /\ rawScore (addMainHistory Score_lowest Type_ p m) = rawScore m.
Proof.
  unfold addMainHistory. destruct (has Type_ MAIN_HISTORY); [|auto].
  destruct (mainHistory p); [|auto].
  destruct (p4_geb _ _); auto.
Qed.

Lemma addCounterMove_keeps (Score_lowest Type_ : Z) (p : MovePicker) (m : Move) :
  pos (addCounterMove Score_lowest Type_ p m) = pos m
  /\ rawScore (addCounterMove Score_lowest Type_ p m) = rawScore m.
Proof.
  unfold addCounterMove. destruct (has Type_ COUNTER_MOVE); [|auto].
  destruct (isInBoard _ _); [|auto].
  destruct (counterMoveHistory p) as [cmh|]; [|auto].
  destruct (cmh _ _) as [cm cp]. destruct (_ && _); auto.
Qed.

Lemma scoreMove_pos (Score_lowest Type_ : Z) (p : MovePicker) (buf : option (Pos -> Score)) (m : Move) :
  pos (scoreMove Score_lowest Type_ p buf m) = pos m.
Proof.
  unfold scoreMove.
  rewrite (proj1 (addCounterMove_keeps _ _ _ _)), (proj1 (addMainHistory_keeps _ _ _ _)).
  apply baseScore_pos.
Qed.

(** A number that fits [Score] is unchanged by the conversion. *)
Lemma to_Score_fits (lowest z : Z) : fits_Score lowest z -> to_Score lowest z = z.
Proof.
  unfold fits_Score, to_Score. intros H.
  rewrite Z.mod_small by lia. lia.
Qed.

(** The conversion yields a value of [Score], equal to the number modulo
    the width. *)
Lemma to_Score_spec (lowest z : Z) :
  (lowest < 0)%Z ->
  fits_Score lowest (to_Score lowest z)
  /\ exists k, (to_Score lowest z = z + k * (- 2 * lowest))%Z.
Proof.
  intros Hl. unfold fits_Score, to_Score.
  pose proof (Z.mod_pos_bound (z - lowest) (- 2 * lowest) ltac:(lia)) as Hb.
  split; [lia|].
  exists (- ((z - lowest) / (- 2 * lowest)))%Z.
  pose proof (Z.div_mod (z - lowest) (- 2 * lowest) ltac:(lia)). lia.
Qed.

(** Converting twice is converting the sum once. *)
Lemma to_Score_add (lowest a d : Z) :
  to_Score lowest (to_Score lowest a + d) = to_Score lowest (a + d).
Proof.
  unfold to_Score.
  replace ((a - lowest) mod (- 2 * lowest) + lowest + d - lowest)%Z
    with ((a - lowest) mod (- 2 * lowest) + d)%Z by lia.
  replace (a + d - lowest)%Z with ((a - lowest) + d)%Z by lia.
  rewrite Zplus_mod_idemp_l. reflexivity.
Qed.

(** Truncating division by a power of two is the arithmetic shift exactly
    on the values that are not negative or are multiples of the power. *)
Lemma quot_pow2_shiftr (v n : Z) :
  (0 <= n)%Z ->
  ((v ÷ 2 ^ n)%Z = Z.shiftr v n <-> (0 <= v)%Z \/ (v mod 2 ^ n = 0)%Z).
Proof.
  intros Hn. rewrite Z.shiftr_div_pow2 by exact Hn.
  assert (Hb : (0 < 2 ^ n)%Z) by (apply Z.pow_pos_nonneg; lia).
  set (b := (2 ^ n)%Z) in *. clearbody b.
  destruct (Z.le_gt_cases 0 v) as [Hv|Hv].
  - split; [intros _; left; exact Hv|]. intros _.
    apply Z.quot_div_nonneg; lia.
  - pose proof (Z.quot_rem' v b) as Hqr.
    pose proof (Z.rem_nonpos v b ltac:(lia) ltac:(lia)) as Hr.
    pose proof (Z.rem_bound_abs v b ltac:(lia)) as Hra.
    pose proof (Z.div_mod v b ltac:(lia)) as Hdm.
    pose proof (Z.mod_pos_bound v b Hb) as Hm.
    split.
    + intros E. right. rewrite E in Hqr. lia.
    + intros [H|H]; [lia|]. rewrite H in Hdm. nia.
Qed.

(** C7 (amended): when the scorer runs with [MAIN_HISTORY], the move at
    cell [c] receives a contribution to [score], and none to [rawScore]:
    [mainHistory[self][pos][ATTACK] / 128] when [c.pattern4[self] >= H_FLEX3]
    and [mainHistory[self][pos][QUIET] / 256] otherwise, the division
    truncating toward zero, is added and the sum is stored back into the
    [Score] member: it is the exact sum when that fits [Score], and the
    sum modulo the width of [Score] in general.  The quotient is the
    arithmetic shift by 7, respectively 8, exactly when the history value
    is not negative or is a multiple of 128, respectively 256. *)
Theorem mainHistory_contribution (Score_lowest Type_ : Z) (p : MovePicker)
    (h : MainHistory) (buf : option (Pos -> Score)) (m : Move) :
  has Type_ MAIN_HISTORY = true ->
  mainHistory p = Some h ->
  let self := sideToMove (board p) in
  let c := cell (board p) (pos m) in
  let base := baseScore Type_ (board p) buf m in
  let d := if p4_geb (Cell.pattern4 c self) H_FLEX3
           then (h self (pos m) HIST_ATTACK ÷ 128)%Z
           else (h self (pos m) HIST_QUIET ÷ 256)%Z in
  addMainHistory Score_lowest Type_ p base
  = mkMove (pos m) (to_Score Score_lowest (score base + d)) (rawScore base)
  /\ rawScore (scoreMove Score_lowest Type_ p buf m) = rawScore base
  /\ (has Type_ COUNTER_MOVE = false ->
      score (scoreMove Score_lowest Type_ p buf m)
      = to_Score Score_lowest (score base + d))
  /\ (fits_Score Score_lowest (score base + d) ->
      score (addMainHistory Score_lowest Type_ p base) = (score base + d)%Z)
  /\ ((Score_lowest < 0)%Z ->
      fits_Score Score_lowest (score (addMainHistory Score_lowest Type_ p base))
      /\ exists k,
           score (addMainHistory Score_lowest Type_ p base)
           = (score base + d + k * (- 2 * Score_lowest))%Z)
  /\ (forall a : Z, (a ÷ 128)%Z = Z.shiftr a 7 <-> (0 <= a)%Z \/ (a mod 128 = 0)%Z)
  /\ (forall a : Z, (a ÷ 256)%Z = Z.shiftr a 8 <-> (0 <= a)%Z \/ (a mod 256 = 0)%Z)
  /\ (d = (if p4_geb (Cell.pattern4 c self) H_FLEX3
           then Z.shiftr (h self (pos m) HIST_ATTACK) 7
           else Z.shiftr (h self (pos m) HIST_QUIET) 8)
      <-> (if p4_geb (Cell.pattern4 c self) H_FLEX3
           then (0 <= h self (pos m) HIST_ATTACK)%Z
                \/ (h self (pos m) HIST_ATTACK mod 128 = 0)%Z
           else (0 <= h self (pos m) HIST_QUIET)%Z
                \/ (h self (pos m) HIST_QUIET mod 256 = 0)%Z)).
Proof.
  intros Hflag Hh self c base d.
  assert (Hadd : addMainHistory Score_lowest Type_ p base
                 = mkMove (pos m) (to_Score Score_lowest (score base + d))
                     (rawScore base)).
  { assert (Hpos : pos base = pos m) by apply baseScore_pos.
    unfold addMainHistory. rewrite Hflag, Hh, !Hpos. fold self c.
    unfold d, add_score. rewrite Hpos.
    destruct (p4_geb (Cell.pattern4 c self) H_FLEX3); reflexivity. }
  split; [exact Hadd|]. split; [|split; [|split; [|split; [|split; [|split]]]]].
  - unfold scoreMove. rewrite (proj2 (addCounterMove_keeps _ _ _ _)).
    fold base. rewrite Hadd. reflexivity.
  - intros Hc. unfold scoreMove, addCounterMove at 1. rewrite Hc.
    fold base. rewrite Hadd. reflexivity.
  - intros Hfit. rewrite Hadd. simpl. apply to_Score_fits, Hfit.
  - intros Hl. rewrite Hadd. simpl. apply to_Score_spec, Hl.
  - intros a. apply (quot_pow2_shiftr a 7). lia.
  - intros a. apply (quot_pow2_shiftr a 8). lia.
  - unfold d. destruct (p4_geb (Cell.pattern4 c self) H_FLEX3).
    + apply (quot_pow2_shiftr _ 7). lia.
    + apply (quot_pow2_shiftr _ 8). lia.
Qed.

Lemma mainHistory_contribution_witness :
  has (Z.lor BALANCED MAIN_HISTORY) MAIN_HISTORY = true
  /\ mainHistory Sample.scoring = Some Sample.minus_one
  /\ addMainHistory (-32768) (Z.lor BALANCED MAIN_HISTORY) Sample.scoring
       (baseScore (Z.lor BALANCED MAIN_HISTORY) Sample.quiet None (mkMove Sample.H8 0 0))
     = mkMove Sample.H8 (to_Score (-32768) (3 + (-1) ÷ 128)) 3.
Proof.
  assert (Hf : has (Z.lor BALANCED MAIN_HISTORY) MAIN_HISTORY = true) by reflexivity.
  assert (Hh : mainHistory Sample.scoring = Some Sample.minus_one) by reflexivity.
  split; [exact Hf|]. split; [exact Hh|].
  exact (proj1 (mainHistory_contribution (-32768) (Z.lor BALANCED MAIN_HISTORY)
                  Sample.scoring Sample.minus_one None (mkMove Sample.H8 0 0) Hf Hh)).
Defined.

(** C7 fails as stated on a negative history value: with every entry of
    the main history at -1 the scorer adds [-1 / 128 = 0] to the move at
    [H8] (a three) and [-1 / 256 = 0] to the move at [G7] (quiet), while the
    shifts [-1 >> 7] and [-1 >> 8] are -1. *)
Lemma mainHistory_shift_counterexample :
  let T := Z.lor BALANCED MAIN_HISTORY in
  let m1 := mkMove Sample.H8 0 0 in
  let m2 := mkMove Sample.G7 0 0 in
  p4_geb (Cell.pattern4 (cell Sample.quiet Sample.H8) BLACK) H_FLEX3 = true
  /\ score (scoreMove (-32768) T Sample.scoring None m1)
     <> (score (baseScore T Sample.quiet None m1)
         + Z.shiftr (Sample.minus_one BLACK Sample.H8 HIST_ATTACK) 7)%Z
  /\ p4_geb (Cell.pattern4 (cell Sample.quiet Sample.G7) BLACK) H_FLEX3 = false
  /\ score (scoreMove (-32768) T Sample.scoring None m2)
     <> (score (baseScore T Sample.quiet None m2)
         + Z.shiftr (Sample.minus_one BLACK Sample.G7 HIST_QUIET) 8)%Z.
Proof.
  repeat split; try reflexivity; vm_compute; discriminate.
Qed.

(** On a 16-bit [Score] the sum wraps: a base score of 32767 with a
    history value of 12800, whose quotient by 128 is 100, leaves -32669;
    and a multiple of 128 below zero is shifted and divided alike. *)
Example mainHistory_contribution_wraps :
  score (scoreMove (-32768) (Z.lor BALANCED MAIN_HISTORY)
           (with_mainHistory (fun _ _ _ => 12800%Z) Sample.scoring)
           (Some (fun _ => 32767%Z)) (mkMove Sample.H8 0 0))
  = (-32669)%Z
  /\ ((-128) ÷ 128 = Z.shiftr (-128) 7)%Z /\ ((-256) ÷ 256 = Z.shiftr (-256) 8)%Z.
Proof. repeat split. Qed.

(** ** The stage machine *)

Lemma Pos_eqb_eq (a b : Pos) : Pos_eqb a b = true <-> a = b.
Proof. unfold Pos_eqb. apply bool_decide_eq_true. Qed.

Lemma Pos_eqb_neq (a b : Pos) : Pos_eqb a b = false <-> a <> b.
Proof. unfold Pos_eqb. apply bool_decide_eq_false. Qed.

Lemma same_node_refl (p : MovePicker) : same_node p p.
Proof. repeat split. Qed.

Lemma same_node_trans (p q r : MovePicker) :
  same_node p q -> same_node q r -> same_node p r.
Proof. unfold same_node. intros (-> & -> & ->) (-> & -> & ->). auto. Qed.

(** The loop of [pickNextMove<Next>] with the filter that accepts: either
    the range is used up and [NONE] comes back with the scores untouched,
    or a buffer move that passes the yield predicate is returned, [curMove]
    is moved behind it and its scores are recorded. *)
Lemma pickLoop_Next (n : nat) :
  forall (p p' : MovePicker) (r : Pos),
    pickLoop Next (fun _ => true) n p = (r, p') ->
    same_node p p' /\ stage p' = stage p /\ moves p' = moves p
    /\ curMove p <= curMove p'
    /\ ((r = NONE /\ curScore p' = curScore p /\ curPolicyScore p' = curPolicyScore p)
        \/ (exists m,
              moves p !! (curMove p' - 1) = Some m /\ curMove p < curMove p'
              /\ r = pos m /\ accepted p m = true
              /\ curScore p' = Some (score m)
              /\ curPolicyScore p' = Some (rawScore m))).
Proof.
  induction n as [|n IH]; intros p p' r H; simpl in H.
  - injection H as <- <-. repeat split; auto.
  - destruct (moves p !! curMove p) as [m|] eqn:Hm.
    + fold (accepted p m) in H.
      destruct (accepted p m && true) eqn:Hacc.
      * injection H as <- <-. simpl. repeat split; auto.
        right. exists m. rewrite Nat.sub_0_r.
        rewrite andb_true_r in Hacc. repeat split; auto.
      * apply IH in H. simpl in H.
        destruct H as (Hn & Hst & Hmv & Hle & Hres).
        repeat split; try tauto; try lia; try apply Hn.
        destruct Hres as [Hres|(m' & ? & ? & ? & ? & ? & ?)]; [left; exact Hres|].
        right. exists m'. repeat split; auto; lia.
    + injection H as <- <-. repeat split; auto.
Qed.

Lemma stage_ALLMOVES_spec (p p' : MovePicker) (r : Pos) :
  stage_ALLMOVES p = (r, p') ->
  same_node p p' /\ stage p' = stage p /\ moves p' = moves p
  /\ curMove p <= curMove p'
  /\ ((r = NONE /\ curScore p' = curScore p /\ curPolicyScore p' = curPolicyScore p)
      \/ (exists m,
            moves p !! (curMove p' - 1) = Some m /\ curMove p < curMove p'
            /\ r = pos m /\ accepted p m = true
            /\ curScore p' = Some (score m)
            /\ curPolicyScore p' = Some (rawScore m))).
Proof. apply pickLoop_Next. Qed.

Section Streaming.

Variable MAX_MOVES : nat.
Variable Score_lowest : Z.

Local Abbreviation call := (operator_call MAX_MOVES Score_lowest).

Lemma scoreMoves_keeps (Type_ : Z) (p : MovePicker) :
  let p' := scoreMoves Score_lowest Type_ p in
  board p' = board p /\ rule p' = rule p /\ ttMove p' = ttMove p
  /\ stage p' = stage p /\ curMove p' = curMove p
  /\ curScore p' = curScore p /\ curPolicyScore p' = curPolicyScore p
  /\ map pos (moves p') = map pos (moves p).
Proof.
  unfold scoreMoves.
  assert (Hpos : map pos (take (curMove p) (moves p)
                          ++ map (scoreMove Score_lowest Type_ p (policyBuffer Type_ p))
                               (drop (curMove p) (moves p)))
                 = map pos (moves p)).
  { rewrite map_app, map_map.
    rewrite (map_ext _ pos (scoreMove_pos Score_lowest Type_ p (policyBuffer Type_ p))).
    rewrite <- map_app, take_drop. reflexivity. }
  destruct (policyBuffer Type_ p); simpl; repeat split; auto.
Qed.

(** Sorting the scored range and re-entering at [ALLMOVES]. *)
Lemma scored_stage_enters (Type_ : Z) (ms : list Move) (p : MovePicker) :
  exists q,
    sort_and_stream MAX_MOVES (scoreMoves Score_lowest Type_ (set_buffer 0 ms p))
    = stage_ALLMOVES q
    /\ entered p q /\ Permutation (map pos ms) (map pos (moves q)).
Proof.
  pose proof (scoreMoves_keeps Type_ (set_buffer 0 ms p)) as H. simpl in H.
  destruct H as (Hb & Hr & Ht & Hs & Hc & Hcs & Hcp & Hpos).
  unfold sort_and_stream. eexists. split; [reflexivity|].
  simpl. rewrite Hc. rewrite take_0, drop_0. simpl.
  repeat split; auto.
  rewrite <- Hpos. apply Permutation_map, fastPartialSort_perm.
Qed.

(** Two pickers with the same data members are the same picker. *)
Lemma MovePicker_ext (p q : MovePicker) :
  board p = board q -> mainHistory p = mainHistory q ->
  counterMoveHistory p = counterMoveHistory q ->
  continuationHistory p = continuationHistory q ->
  stage p = stage q -> rule p = rule q -> ttMove p = ttMove q ->
  allowPlainB4InVCF p = allowPlainB4InVCF q -> hasPolicy p = hasPolicy q ->
  curScore p = curScore q -> curPolicyScore p = curPolicyScore q ->
  maxPolicyScore p = maxPolicyScore q -> curMove p = curMove q ->
  moves p = moves q -> p = q.
Proof. destruct p, q; simpl; intros; subst; reflexivity. Qed.

Lemma policyBuffer_set_stage (Type_ s : Z) (p : MovePicker) :
  policyBuffer Type_ (set_stage s p) = policyBuffer Type_ p.
Proof. reflexivity. Qed.

Lemma scoreMove_set_stage (Type_ s : Z) (p : MovePicker) :
  scoreMove Score_lowest Type_ (set_stage s p) = scoreMove Score_lowest Type_ p.
Proof. reflexivity. Qed.

(** The scorer does not read the stage. *)
Lemma scoreMoves_set_stage (Type_ s : Z) (p : MovePicker) :
  scoreMoves Score_lowest Type_ (set_stage s p)
  = set_stage s (scoreMoves Score_lowest Type_ p).
Proof.
  unfold scoreMoves. cbv zeta.
  rewrite policyBuffer_set_stage, scoreMove_set_stage.
  destruct (policyBuffer Type_ p); apply MovePicker_ext; reflexivity.
Qed.

Lemma sort_and_stream_set_stage (s : Z) (p : MovePicker) :
  sort_and_stream MAX_MOVES (set_stage s p) = sort_and_stream MAX_MOVES p.
Proof.
  unfold sort_and_stream. apply f_equal, MovePicker_ext; reflexivity.
Qed.

(** [MAIN_MOVES] reads neither the stage nor the buffer it is entered
    with. *)
Lemma stage_MAIN_MOVES_restart (s : Z) (c : nat) (ms : list Move) (p : MovePicker) :
  stage_MAIN_MOVES MAX_MOVES Score_lowest (set_stage s (set_buffer c ms p))
  = stage_MAIN_MOVES MAX_MOVES Score_lowest p.
Proof.
  unfold stage_MAIN_MOVES. cbv zeta.
  assert (E : set_buffer 0 (generate (board (set_stage s (set_buffer c ms p))) ALL)
                (set_stage s (set_buffer c ms p))
              = set_stage s (set_buffer 0 (generate (board p) ALL) p))
    by (apply MovePicker_ext; reflexivity).
  rewrite E, scoreMoves_set_stage, sort_and_stream_set_stage. reflexivity.
Qed.

(** Every generation stage fills the buffer from the generators of the
    board and re-enters at [ALLMOVES]. *)
Lemma generation_stage_enters (p : MovePicker) :
  is_gen_stage (stage p) ->
  exists q,
    call p = stage_ALLMOVES q /\ entered p q
    /\ (buffers_fit MAX_MOVES (board p) -> length (moves q) <= MAX_MOVES)
    /\ (forall x, x ∈ map pos (moves q) -> generated (board p) x).
Proof.
  assert (Hgen : forall g x, x ∈ map pos (generate (board p) g) -> generated (board p) x).
  { intros g x Hx. left. eauto. }
  assert (Hgen2 : forall g1 g2 x,
             x ∈ map pos (generate (board p) g1 ++ generate (board p) g2) ->
             generated (board p) x).
  { intros g1 g2 x Hx. rewrite map_app in Hx.
    apply elem_of_app in Hx as [Hx|Hx]; eauto. }
  assert (Hmain : exists q,
             stage_MAIN_MOVES MAX_MOVES Score_lowest p = stage_ALLMOVES q /\ entered p q
             /\ (buffers_fit MAX_MOVES (board p) -> length (moves q) <= MAX_MOVES)
             /\ (forall x, x ∈ map pos (moves q) -> generated (board p) x)).
  { unfold stage_MAIN_MOVES.
    destruct (scored_stage_enters
                (Z.lor BALANCED (Z.lor POLICY (Z.lor MAIN_HISTORY
                   (Z.lor COUNTER_MOVE CONT_HISTORY))))
                (generate (board p) ALL) p) as (q & E & He & Hp).
    exists q. repeat split; try apply He; auto.
    - intros (Hf & _). rewrite <- (length_map pos), <- Hp, length_map. exact Hf.
    - intros x Hx. rewrite <- Hp in Hx. eauto. }
  intros [Hs|[Hs|[Hs|[Hs|Hs]]]]; unfold operator_call; rewrite Hs; simpl.
  - exact Hmain.
  - unfold stage_DEFENDFIVE_MOVES. eexists. split; [reflexivity|]. simpl.
    repeat split; auto.
    + intros (_ & _ & Hf & _). destruct (Pos_eqb (ttMove p) NONE); simpl; [exact Hf|lia].
    + intros x Hx. destruct (Pos_eqb (ttMove p) NONE); [eauto|].
      apply elem_of_nil in Hx. contradiction.
  - unfold stage_DEFENDFOUR_MOVES.
    destruct (scored_stage_enters (Z.lor BALANCED (Z.lor POLICY MAIN_HISTORY))
                (generate (board p) DEFEND_FOUR ++ generate (board p) VCF) p)
      as (q & E & He & Hp).
    exists q. repeat split; try apply He; auto.
    + intros (_ & _ & _ & Hf & _).
      rewrite <- (length_map pos), <- Hp, length_map. exact Hf.
    + intros x Hx. rewrite <- Hp in Hx. eauto.
  - unfold stage_DEFENDB4F3_MOVES.
    destruct (generate (board p) (DEFEND_B4F3_of (rule p))) as [|d0 d] eqn:Hd.
    + destruct Hmain as (q & E & He & Hf & Hg).
      rewrite stage_MAIN_MOVES_restart. exists q. auto.
    + destruct (scored_stage_enters (Z.lor BALANCED (Z.lor POLICY MAIN_HISTORY))
                  ((d0 :: d) ++ generate (board p) VCF) p)
        as (q & E & He & Hp).
      exists q. repeat split; try apply He; auto.
      * intros (_ & _ & _ & _ & _ & Hf & _).
        rewrite <- (length_map pos), <- Hp, length_map, <- Hd. apply Hf.
      * intros x Hx. rewrite <- Hp, <- Hd in Hx. eauto.
  - unfold stage_QVCF_MOVES.
    destruct (scored_stage_enters BALANCED
                (generateNeighbors (board p)
                   (if allowPlainB4InVCF p then VCF else GenOr VCF COMB)
                   (getLastActualMoveOfSide (board p) (sideToMove (board p)))) p)
      as (q & E & He & Hp).
    exists q. repeat split; try apply He; auto.
    + intros (_ & _ & _ & _ & _ & _ & Hf).
      rewrite <- (length_map pos), <- Hp, length_map. apply Hf.
    + intros x Hx. rewrite <- Hp in Hx. right. eauto.
Qed.
Lemma stage_cases (s : Z) :
  is_TT_stage s = true \/ is_gen_stage s \/ s = ALLMOVES
  \/ (is_TT_stage s = false /\ ~ is_gen_stage s /\ s <> ALLMOVES).
Proof.
  destruct (is_TT_stage s) eqn:E; [auto|]. right.
  destruct (decide (s = ALLMOVES)); [auto|].
  destruct (decide (s = MAIN_MOVES)); [left; left; auto|].
  destruct (decide (s = DEFENDFIVE_MOVES)); [left; right; left; auto|].
  destruct (decide (s = DEFENDFOUR_MOVES)); [left; right; right; left; auto|].
  destruct (decide (s = DEFENDB4F3_MOVES)); [left; right; right; right; left; auto|].
  destruct (decide (s = QVCF_MOVES)); [left; right; right; right; right; auto|].
  right. right. repeat split; auto. unfold is_gen_stage. tauto.
Qed.

Lemma is_TT_stage_cases (s : Z) :
  is_TT_stage s = true ->
  s = MAIN_TT \/ s = DEFENDFIVE_TT \/ s = DEFENDFOUR_TT \/ s = DEFENDB4F3_TT
  \/ s = QVCF_TT.
Proof.
  unfold is_TT_stage. rewrite !orb_true_iff, !Z.eqb_eq. tauto.
Qed.

(** The stage behind a TT stage is its generation stage. *)
Lemma TT_stage_succ (s : Z) :
  is_TT_stage s = true -> is_gen_stage (s + 1)%Z /\ is_TT_stage (s + 1)%Z = false.
Proof.
  intros H. apply is_TT_stage_cases in H.
  destruct H as [->|[->|[->|[->| ->]]]]; split; try reflexivity; unfold is_gen_stage;
    compute; tauto.
Qed.

Lemma gen_stage_not_TT (s : Z) : is_gen_stage s -> is_TT_stage s = false.
Proof. intros [->|[->|[->|[->| ->]]]]; reflexivity. Qed.

Lemma call_TT (p : MovePicker) :
  is_TT_stage (stage p) = true -> call p = (ttMove p, set_stage (stage p + 1)%Z p).
Proof. intros H. unfold operator_call. rewrite H. reflexivity. Qed.

Lemma call_ALLMOVES (p : MovePicker) :
  stage p = ALLMOVES -> call p = stage_ALLMOVES p.
Proof. intros H. unfold operator_call. rewrite H. reflexivity. Qed.

Lemma call_unknown (p : MovePicker) :
  is_TT_stage (stage p) = false -> ~ is_gen_stage (stage p) -> stage p <> ALLMOVES ->
  call p = (NONE, p).
Proof.
  intros HT Hg Ha. unfold operator_call. rewrite HT. unfold is_gen_stage in Hg.
  repeat match goal with
         | |- context [(?a =? ?b)%Z] => destruct (Z.eqb_spec a b); [tauto|]
         end.
  reflexivity.
Qed.

Lemma accepted_same_node (p q : MovePicker) (m : Move) :
  same_node p q -> accepted q m = accepted p m.
Proof. intros (Hb & Hr & Ht). unfold accepted. rewrite Hb, Hr, Ht. reflexivity. Qed.

Lemma entered_same_node (p q : MovePicker) : entered p q -> same_node p q.
Proof. unfold entered, same_node. tauto. Qed.

(** One call behind the TT stage: the node is unchanged and the picker
    stays behind the TT stage; the call returns [NONE] with the scores
    untouched, or a buffer move that passes the yield predicate, whose scores
    it records. *)
Lemma call_past_TT (p p' : MovePicker) (r : Pos) :
  is_TT_stage (stage p) = false -> call p = (r, p') ->
  same_node p p' /\ is_TT_stage (stage p') = false
  /\ ((r = NONE /\ curScore p' = curScore p /\ curPolicyScore p' = curPolicyScore p)
      \/ (exists m,
            moves p' !! (curMove p' - 1) = Some m /\ 0 < curMove p'
            /\ r = pos m /\ accepted p m = true
            /\ (is_gen_stage (stage p) -> generated (board p) r)
            /\ curScore p' = Some (score m)
            /\ curPolicyScore p' = Some (rawScore m))).
Proof.
  intros HT Hcall.
  destruct (stage_cases (stage p)) as [H|[Hg|[Ha|(_ & Hg & Ha)]]].
  - congruence.
  - destruct (generation_stage_enters p Hg) as (q & E & He & _ & Hgen).
    rewrite E in Hcall. apply stage_ALLMOVES_spec in Hcall.
    destruct Hcall as (Hn & Hst & Hmv & Hle & Hres).
    pose proof (entered_same_node _ _ He) as Hpq.
    destruct He as (_ & _ & _ & Hsq & _ & Hcs & Hcp).
    split; [eapply same_node_trans; eauto|].
    split; [rewrite Hst, Hsq; reflexivity|].
    destruct Hres as [(-> & H1 & H2)|(m & Hm & Hlt & -> & Hacc & H1 & H2)].
    + left. repeat split; congruence.
    + right. exists m. rewrite Hmv.
      rewrite (accepted_same_node _ _ _ Hpq) in Hacc.
      repeat split; auto; try lia.
      intros _. apply Hgen. apply list_elem_of_fmap. exists m. split; [reflexivity|].
      apply list_elem_of_lookup. eauto.
  - rewrite (call_ALLMOVES p Ha) in Hcall. apply stage_ALLMOVES_spec in Hcall.
    destruct Hcall as (Hn & Hst & Hmv & Hle & Hres).
    split; [exact Hn|]. split; [rewrite Hst; exact HT|].
    destruct Hres as [Hres|(m & Hm & Hlt & -> & Hacc & H1 & H2)]; [left; exact Hres|].
    right. exists m. rewrite Hmv. repeat split; auto; try lia.
    intros Hg. rewrite Ha in Hg.
    destruct Hg as [H|[H|[H|[H|H]]]]; discriminate H.
  - rewrite (call_unknown p HT Hg Ha) in Hcall. injection Hcall as <- <-.
    split; [apply same_node_refl|]. split; [exact HT|]. left. auto.
Qed.

Lemma yield_0 (p : MovePicker) : yield MAX_MOVES Score_lowest 0 p = fst (call p).
Proof. reflexivity. Qed.

Lemma yield_S (n : nat) (p : MovePicker) :
  yield MAX_MOVES Score_lowest (S n) p = yield MAX_MOVES Score_lowest n (snd (call p)).
Proof. reflexivity. Qed.

Lemma yield_congr (p q : MovePicker) :
  call p = call q ->
  forall n, yield MAX_MOVES Score_lowest n p = yield MAX_MOVES Score_lowest n q.
Proof.
  intros E [|n].
  - rewrite !yield_0, E. reflexivity.
  - rewrite !yield_S, E. reflexivity.
Qed.

Lemma after_calls_S (n : nat) (p : MovePicker) :
  after_calls MAX_MOVES Score_lowest (S n) p
  = snd (call (after_calls MAX_MOVES Score_lowest n p)).
Proof.
  revert p. induction n as [|n IH]; intros p; [reflexivity|].
  change (after_calls MAX_MOVES Score_lowest (S (S n)) p)
    with (after_calls MAX_MOVES Score_lowest (S n) (snd (call p))).
  rewrite IH. reflexivity.
Qed.

(** Calls never change the board, the rule or the stored TT move. *)
Lemma call_same_node (p : MovePicker) : same_node p (snd (call p)).
Proof.
  destruct (is_TT_stage (stage p)) eqn:HT.
  - rewrite (call_TT p HT). repeat split.
  - destruct (call p) as [r p'] eqn:E. apply (call_past_TT p p' r HT E).
Qed.

Lemma after_calls_same_node (n : nat) :
  forall p, same_node p (after_calls MAX_MOVES Score_lowest n p).
Proof.
  induction n as [|n IH]; intros p; [apply same_node_refl|].
  eapply same_node_trans; [apply call_same_node|]. apply IH.
Qed.

(** C2 (amended): for every picker under rule RENJU with BLACK to move,
    no call made behind the TT stage yields a forbidden point, whatever the
    number of calls before it; the call at a TT stage yields the stored TT
    move as it is, without a forbidden-point check. *)
Theorem no_forbidden_point_behind_TT (p : MovePicker) (n : nat) :
  rule p = RENJU -> sideToMove (board p) = BLACK ->
  let pn := after_calls MAX_MOVES Score_lowest n p in
  (is_TT_stage (stage pn) = false ->
   yield MAX_MOVES Score_lowest n p <> NONE ->
   checkForbiddenPoint (board p) (yield MAX_MOVES Score_lowest n p) = false)
  /\ (is_TT_stage (stage pn) = true ->
      yield MAX_MOVES Score_lowest n p = ttMove p).
Proof.
  intros Hr Hb pn.
  destruct (after_calls_same_node n p) as (Hbn & Hrn & Htn). fold pn in Hbn, Hrn, Htn.
  split.
  - intros HT Hy. unfold yield in *. fold pn in Hy |- *.
    destruct (call pn) as [r p'] eqn:E. simpl in *.
    destruct (call_past_TT pn p' r HT E) as (_ & _ & [(-> & _)|(m & _ & _ & -> & Hacc & _)]).
    + congruence.
    + unfold accepted in Hacc. rewrite Hrn, Hbn, Hr, Hb in Hacc.
      apply andb_true_iff in Hacc as [_ Hacc]. simpl in Hacc.
      apply negb_true_iff in Hacc. exact Hacc.
  - intros HT. unfold yield. fold pn. rewrite (call_TT pn HT). simpl. exact Htn.
Qed.

(** C4 (amended): after every call that returns a position rather than
    [NONE] from the move buffer, [curScore] is the [score] and
    [curPolicyScore] the [rawScore] of the yielded move; the yield made at a
    TT stage returns the stored TT move and leaves [curScore] and
    [curPolicyScore] as they were. *)
Theorem yield_records_scores (p p' : MovePicker) (r : Pos) :
  call p = (r, p') -> r <> NONE ->
  if is_TT_stage (stage p)
  then r = ttMove p /\ curScore p' = curScore p /\ curPolicyScore p' = curPolicyScore p
  else records_scores r p'.
Proof.
  intros E Hr. destruct (is_TT_stage (stage p)) eqn:HT.
  - rewrite (call_TT p HT) in E. injection E as <- <-. auto.
  - destruct (call_past_TT p p' r HT E) as (_ & _ & [(-> & _)|(m & Hm & _ & -> & _ & _ & H1 & H2)]).
    + congruence.
    + exists m. auto.
Qed.

(** Behind the TT stage no call yields the stored TT move. *)
Lemma past_TT_never_ttMove (n : nat) :
  forall p,
    is_TT_stage (stage p) = false ->
    yield MAX_MOVES Score_lowest n p = NONE
    \/ yield MAX_MOVES Score_lowest n p <> ttMove p.
Proof.
  induction n as [|n IH]; intros p HT.
  - rewrite yield_0. destruct (call p) as [r p'] eqn:E. simpl.
    destruct (call_past_TT p p' r HT E) as (_ & _ & [(-> & _)|(m & _ & _ & -> & Hacc & _)]).
    + auto.
    + right. unfold accepted in Hacc. apply andb_true_iff in Hacc as [Hacc _].
      apply negb_true_iff, Pos_eqb_neq in Hacc. exact Hacc.
  - rewrite yield_S. destruct (call p) as [r p'] eqn:E. simpl.
    destruct (call_past_TT p p' r HT E) as ((_ & _ & Ht) & HT' & _).
    rewrite <- Ht. apply IH, HT'.
Qed.

(** C9: for every picker at a TT stage, the first call yields the stored
    TT move and every later call returns [NONE] or a position other than the
    TT move; when the TT move is a position, no later call yields it.  Each
    buffer move equal to the TT move fails the yield predicate. *)
Theorem ttMove_not_yielded_again (p : MovePicker) :
  is_TT_stage (stage p) = true ->
  yield MAX_MOVES Score_lowest 0 p = ttMove p
  /\ (forall n,
        (yield MAX_MOVES Score_lowest (S n) p = NONE
         \/ yield MAX_MOVES Score_lowest (S n) p <> ttMove p)
        /\ (ttMove p <> NONE -> yield MAX_MOVES Score_lowest (S n) p <> ttMove p))
  /\ (forall m, pos m = ttMove p -> accepted p m = false).
Proof.
  intros HT. rewrite yield_0, (call_TT p HT). simpl. split; [reflexivity|]. split.
  - intros n. rewrite yield_S, (call_TT p HT). simpl.
    destruct (TT_stage_succ _ HT) as [_ Hs].
    pose proof (past_TT_never_ttMove n (set_stage (stage p + 1)%Z p) Hs) as H.
    simpl in H. split; [exact H|]. intros Hne. destruct H as [H|H]; congruence.
  - intros m Hm. unfold accepted. rewrite Hm.
    assert (Pos_eqb (ttMove p) (ttMove p) = true) as -> by (apply Pos_eqb_eq; reflexivity).
    reflexivity.
Qed.

(** *** Exhaustion *)

Lemma streaming_exhausts (k : nat) :
  forall p,
    stage p = ALLMOVES -> length (moves p) - curMove p <= k ->
    exists n, n <= k /\ yield MAX_MOVES Score_lowest n p = NONE
              /\ forall i, i < n -> yield MAX_MOVES Score_lowest i p <> NONE.
Proof.
  induction k as [|k IH]; intros p Hs Hk.
  - exists 0. split; [lia|]. split; [|intros; lia].
    rewrite yield_0, (call_ALLMOVES p Hs).
    destruct (stage_ALLMOVES p) as [r p'] eqn:E. simpl.
    destruct (stage_ALLMOVES_spec p p' r E)
      as (_ & _ & _ & _ & [(-> & _)|(m & Hm & Hlt & _)]); [reflexivity|].
    apply lookup_lt_Some in Hm. lia.
  - destruct (stage_ALLMOVES p) as [r p'] eqn:E.
    destruct (decide (r = NONE)) as [->|Hr].
    + exists 0. split; [lia|]. split; [|intros; lia].
      rewrite yield_0, (call_ALLMOVES p Hs), E. reflexivity.
    + destruct (stage_ALLMOVES_spec p p' r E)
        as (_ & Hst & Hmv & _ & [(-> & _)|(m & Hm & Hlt & _)]); [congruence|].
      apply lookup_lt_Some in Hm.
      destruct (IH p') as (n & Hn & Hy & Hlow).
      * congruence.
      * rewrite Hmv. lia.
      * exists (S n). split; [lia|].
        rewrite yield_S, (call_ALLMOVES p Hs), E. simpl. split; [exact Hy|].
        intros [|i] Hi.
        -- rewrite yield_0, (call_ALLMOVES p Hs), E. exact Hr.
        -- rewrite yield_S, (call_ALLMOVES p Hs), E. simpl. apply Hlow. lia.
Qed.

Lemma gen_stage_exhausts (p : MovePicker) :
  is_gen_stage (stage p) -> buffers_fit MAX_MOVES (board p) ->
  exists n, n <= MAX_MOVES /\ yield MAX_MOVES Score_lowest n p = NONE
            /\ forall i, i < n -> yield MAX_MOVES Score_lowest i p <> NONE.
Proof.
  intros Hg Hfit.
  destruct (generation_stage_enters p Hg) as (q & E & He & Hlen & _).
  destruct He as (_ & _ & _ & Hsq & Hcq & _).
  rewrite <- (call_ALLMOVES q Hsq) in E.
  destruct (streaming_exhausts MAX_MOVES q Hsq) as (n & Hn & Hy & Hlow).
  { specialize (Hlen Hfit). lia. }
  exists n. split; [exact Hn|]. split.
  - rewrite (yield_congr p q E). exact Hy.
  - intros i Hi. rewrite (yield_congr p q E). apply Hlow, Hi.
Qed.

(** Any picker whose buffer respects the capacity reaches [NONE] within
    [MAX_MOVES + 1] yields. *)
Lemma picker_exhausts (p : MovePicker) :
  buffers_fit MAX_MOVES (board p) ->
  (stage p = ALLMOVES -> length (moves p) - curMove p <= MAX_MOVES) ->
  exists n, n <= MAX_MOVES + 1 /\ yield MAX_MOVES Score_lowest n p = NONE
            /\ forall i, i < n -> yield MAX_MOVES Score_lowest i p <> NONE.
Proof.
  intros Hfit Hbuf.
  destruct (stage_cases (stage p)) as [HT|[Hg|[Ha|(HT & Hg & Ha)]]].
  - destruct (decide (ttMove p = NONE)) as [Hn|Hn].
    + exists 0. split; [lia|]. split; [|intros; lia].
      rewrite yield_0, (call_TT p HT). exact Hn.
    + destruct (TT_stage_succ _ HT) as [Hg _].
      destruct (gen_stage_exhausts (set_stage (stage p + 1)%Z p) Hg Hfit)
        as (n & Hle & Hy & Hlow).
      exists (S n). split; [lia|]. rewrite yield_S, (call_TT p HT). simpl.
      split; [exact Hy|]. intros [|i] Hi.
      * rewrite yield_0, (call_TT p HT). exact Hn.
      * rewrite yield_S, (call_TT p HT). simpl. apply Hlow. lia.
  - destruct (gen_stage_exhausts p Hg Hfit) as (n & Hle & H). exists n. split; [lia|exact H].
  - destruct (streaming_exhausts MAX_MOVES p Ha (Hbuf Ha)) as (n & Hle & H).
    exists n. split; [lia|exact H].
  - exists 0. split; [lia|]. split; [|intros; lia].
    rewrite yield_0, (call_unknown p HT Hg Ha). reflexivity.
Qed.

Lemma MovePicker_ROOT_fits (rule_ : Rule) (b : Board) :
  buffers_fit MAX_MOVES b ->
  length (moves (MovePicker_ROOT rule_ b)) <= MAX_MOVES.
Proof.
  intros (Hall & Hwin & Hfive & _ & Hfour & Hb4f3 & _).
  unfold MovePicker_ROOT. simpl.
  repeat match goal with
         | |- context [if ?c then _ else _] => destruct c
         end; auto.
  pose proof (Hb4f3 rule_) as H.
  destruct (generate b (DEFEND_B4F3_of rule_)) as [|d0 d]; [exact Hall | exact H].
Qed.

(** C5: for every constructed picker (root, main or quiescence-VCF) over
    a board whose generated lists respect the buffer capacity, the repeated
    calls reach [NONE] after finitely many yields, and the number of yields
    before that [NONE] is at most [MAX_MOVES + 1]. *)
Theorem constructed_picker_exhausts (DEPTH_QVCF_FULL : Z) (rule_ : Rule) (b : Board)
    (margs : MainArgs.t) (qargs : QvcfArgs.t) (p : MovePicker) :
  buffers_fit MAX_MOVES b ->
  p = MovePicker_ROOT rule_ b \/ p = MovePicker_MAIN rule_ b margs
  \/ p = MovePicker_QVCF DEPTH_QVCF_FULL rule_ b qargs ->
  exists n,
    n <= MAX_MOVES + 1
    /\ yield MAX_MOVES Score_lowest n p = NONE
    /\ forall i, i < n -> yield MAX_MOVES Score_lowest i p <> NONE.
Proof.
  intros Hfit [->|[->| ->]]; apply picker_exhausts.
  - exact Hfit.
  - intros _. pose proof (MovePicker_ROOT_fits rule_ b Hfit). lia.
  - unfold MovePicker_MAIN. destruct (dispatch_MAIN _ _ _). exact Hfit.
  - unfold MovePicker_MAIN. destruct (dispatch_MAIN _ _ _). simpl. lia.
  - unfold MovePicker_QVCF. destruct (dispatch_QVCF _ _). exact Hfit.
  - unfold MovePicker_QVCF. destruct (dispatch_QVCF _ _). simpl. lia.
Qed.

(** *** The TT move at construction *)

Lemma dispatch_MAIN_stage (rule_ : Rule) (b : Board) (tt : Pos) :
  is_TT_stage (fst (dispatch_MAIN rule_ b tt)) = true.
Proof.
  unfold dispatch_MAIN.
  repeat match goal with
         | |- context [if ?c then _ else _] => destruct c
         end; reflexivity.
Qed.

Lemma dispatch_QVCF_stage (b : Board) (tt : Pos) :
  is_TT_stage (fst (dispatch_QVCF b tt)) = true.
Proof. unfold dispatch_QVCF. destruct (0 <? _); reflexivity. Qed.

(** The first call of a picker at a generation stage returns [NONE] or a
    position its generators produced. *)
Lemma first_yield_generated (p : MovePicker) :
  is_gen_stage (stage p) ->
  yield MAX_MOVES Score_lowest 0 p = NONE
  \/ generated (board p) (yield MAX_MOVES Score_lowest 0 p).
Proof.
  intros Hg. rewrite yield_0. destruct (call p) as [r p'] eqn:E. simpl.
  destruct (call_past_TT p p' r (gen_stage_not_TT _ Hg) E)
    as (_ & _ & [(-> & _)|(m & _ & _ & _ & _ & Hgen & _)]); auto.
Qed.

(** What the two constructors share once the dispatch has chosen the stage
    [s0] and the validity [v0] of the TT move [tt]. *)
Lemma constructed_tt (p : MovePicker) (b : Board) (s0 : Z) (v0 : bool) (tt : Pos) :
  is_TT_stage s0 = true -> board p = b ->
  stage p = (s0 + not_as_int (v0 && isEmpty b tt))%Z ->
  ttMove p = (if v0 && isEmpty b tt then tt else NONE) ->
  (v0 && isEmpty b tt = true ->
   stage p = s0 /\ ttMove p = tt /\ yield MAX_MOVES Score_lowest 0 p = tt)
  /\ (v0 && isEmpty b tt = false ->
      stage p = (s0 + 1)%Z /\ ttMove p = NONE
      /\ is_TT_stage (stage p) = false /\ is_gen_stage (stage p)
      /\ (yield MAX_MOVES Score_lowest 0 p = NONE
          \/ generated b (yield MAX_MOVES Score_lowest 0 p))
      /\ (tt <> NONE -> ~ generated b tt -> yield MAX_MOVES Score_lowest 0 p <> tt)).
Proof.
  intros HT Hb Hs Ht. split; intros Hv; rewrite Hv in Hs, Ht; simpl in Hs.
  - rewrite Z.add_0_r in Hs. repeat split; auto.
    rewrite yield_0, call_TT by (rewrite Hs; exact HT). simpl. exact Ht.
  - destruct (TT_stage_succ _ HT) as [Hg Hn]. rewrite <- Hs in Hg, Hn.
    pose proof (first_yield_generated p Hg) as Hy. rewrite Hb in Hy.
    repeat split; auto.
    intros Hne Hgen E. rewrite E in Hy. destruct Hy; auto.
Qed.



(** *** Streaming in buffer order *)

(** One run of the loop of [pickNextMove] over the moves [rest] left in the
    buffer: it stops at the first move that passes the yield predicate. *)
Lemma pickLoop_scan (rest : list Move) :
  forall q,
    drop (curMove q) (moves q) = rest ->
    match List.filter (accepted q) rest with
    | [] => fst (pickLoop Next (fun _ => true) (length rest) q) = NONE
    | m :: fl =>
        exists q',
          pickLoop Next (fun _ => true) (length rest) q = (pos m, q')
          /\ same_node q q' /\ stage q' = stage q
          /\ List.filter (accepted q) (drop (curMove q') (moves q')) = fl
          /\ length (drop (curMove q') (moves q')) < length rest
    end.
Proof.
  induction rest as [|x rest IH]; intros q Hd; [reflexivity|].
  assert (Hx : moves q !! curMove q = Some x).
  { rewrite <- (Nat.add_0_r (curMove q)), <- lookup_drop, Hd. reflexivity. }
  assert (Hrest : drop (S (curMove q)) (moves q) = rest).
  { rewrite (drop_S _ _ _ Hx) in Hd. congruence. }
  simpl. rewrite Hx. fold (accepted q x).
  destruct (accepted q x) eqn:Hacc; simpl.
  - eexists. split; [reflexivity|]. simpl. rewrite Hrest.
    repeat split; auto.
  - specialize (IH (set_buffer (S (curMove q)) (moves q) q) Hrest).
    change (accepted (set_buffer (S (curMove q)) (moves q) q)) with (accepted q) in IH.
    destruct (List.filter (accepted q) rest) as [|m fl]; [exact IH|].
    destruct IH as (q' & E & Hn & Hs & Hf & Hl).
    exists q'. split; [exact E|]. split; [exact Hn|]. split; [exact Hs|].
    split; [exact Hf|]. lia.
Qed.

Lemma drain_S (fuel : nat) (p : MovePicker) :
  drain MAX_MOVES Score_lowest (S fuel) p
  = (if Pos_eqb (fst (call p)) NONE then []
     else fst (call p) :: drain MAX_MOVES Score_lowest fuel (snd (call p))).
Proof. simpl. destruct (operator_call MAX_MOVES Score_lowest p). reflexivity. Qed.

Lemma drain_congr (p q : MovePicker) (fuel : nat) :
  call p = call q ->
  drain MAX_MOVES Score_lowest fuel p = drain MAX_MOVES Score_lowest fuel q.
Proof. intros E. destruct fuel; [reflexivity|]. rewrite !drain_S, E. reflexivity. Qed.

(** With no TT move stored, the calls at [ALLMOVES] yield the moves left in
    the buffer that pass the yield predicate, in buffer order. *)
Lemma drain_streaming (k : nat) :
  forall q fuel,
    stage q = ALLMOVES -> ttMove q = NONE ->
    length (drop (curMove q) (moves q)) <= k -> k < fuel ->
    drain MAX_MOVES Score_lowest fuel q
    = map pos (List.filter (accepted q) (drop (curMove q) (moves q))).
Proof.
  induction k as [|k IH]; intros q fuel Hs Ht Hk Hf;
    (destruct fuel as [|fuel]; [lia|]);
    rewrite drain_S, (call_ALLMOVES q Hs);
    unfold stage_ALLMOVES, pickNextMove; rewrite <- length_drop;
    pose proof (pickLoop_scan _ q eq_refl) as H;
    destruct (List.filter (accepted q) (drop (curMove q) (moves q))) as [|m fl] eqn:Hfl.
  - rewrite H. reflexivity.
  - destruct H as (q' & _ & _ & _ & _ & Hl). lia.
  - rewrite H. reflexivity.
  - destruct H as (q' & E & Hn & Hs' & Hf' & Hl). rewrite E. simpl.
    assert (Hacc : accepted q m = true).
    { assert (Hin : In m (List.filter (accepted q) (drop (curMove q) (moves q))))
        by (rewrite Hfl; left; reflexivity).
      apply List.filter_In in Hin. tauto. }
    assert (Hne : Pos_eqb (pos m) NONE = false).
    { unfold accepted in Hacc. rewrite Ht in Hacc.
      apply andb_true_iff in Hacc as [Hacc _]. apply negb_true_iff in Hacc. exact Hacc. }
    rewrite Hne. f_equal.
    rewrite (IH q' fuel); try lia.
    + rewrite (List.filter_ext _ _ (fun a => accepted_same_node q q' a Hn)), Hf'.
      reflexivity.
    + destruct Hn as (_ & _ & Hn). congruence.
Qed.

Lemma always_NONE (q : MovePicker) :
  call q = (NONE, q) -> forall n, yield MAX_MOVES Score_lowest n q = NONE.
Proof.
  intros E n. induction n as [|n IH].
  - rewrite yield_0, E. reflexivity.
  - rewrite yield_S, E. exact IH.
Qed.

(** C8: at stage [DEFENDFIVE_MOVES], when a TT move is stored no
    generation is performed, the buffer is left empty and every call from
    there on yields [NONE]; when none is stored the buffer is exactly the
    list [generate<DEFEND_FIVE>] writes, neither scored nor sorted, and the
    calls yield its moves that pass the yield predicate in generation
    order. *)
Theorem DEFENDFIVE_MOVES_streams_generation (p : MovePicker) :
  stage p = DEFENDFIVE_MOVES ->
  (ttMove p <> NONE ->
   moves (snd (call p)) = []
   /\ forall n, yield MAX_MOVES Score_lowest n p = NONE)
  /\ (ttMove p = NONE ->
      moves (snd (call p)) = generate (board p) DEFEND_FIVE
      /\ forall fuel,
           length (generate (board p) DEFEND_FIVE) < fuel ->
           drain MAX_MOVES Score_lowest fuel p
           = map pos (List.filter (accepted p) (generate (board p) DEFEND_FIVE))).
Proof.
  intros Hs.
  assert (Hc : call p = stage_DEFENDFIVE_MOVES p).
  { unfold operator_call. rewrite Hs. reflexivity. }
  split; intros Ht.
  - apply Pos_eqb_neq in Ht.
    assert (E : call p = (NONE, set_stage ALLMOVES (set_buffer 0 [] p))).
    { rewrite Hc. unfold stage_DEFENDFIVE_MOVES. rewrite Ht. reflexivity. }
    rewrite E. simpl. split; [reflexivity|].
    intros [|n]; [rewrite yield_0, E; reflexivity|].
    rewrite yield_S, E. simpl. apply always_NONE. reflexivity.
  - assert (Ht' := Ht). apply Pos_eqb_eq in Ht'.
    set (q := set_stage ALLMOVES (set_buffer 0 (generate (board p) DEFEND_FIVE) p)).
    assert (E : call p = call q).
    { rewrite Hc, (call_ALLMOVES q eq_refl).
      unfold stage_DEFENDFIVE_MOVES. rewrite Ht'. reflexivity. }
    split.
    + rewrite E, (call_ALLMOVES q eq_refl).
      destruct (stage_ALLMOVES q) as [r q'] eqn:Eq.
      apply stage_ALLMOVES_spec in Eq. simpl. destruct Eq as (_ & _ & -> & _).
      reflexivity.
    + intros fuel Hf. rewrite (drain_congr p q fuel E).
      rewrite (drain_streaming (length (generate (board p) DEFEND_FIVE)) q fuel);
        auto.
Qed.

End Streaming.

(** ** Reads of the board at the TT move during construction *)

Lemma and_isEmpty_in_bounds (b : Checked.BBoard) (v : bool) (tt : Pos) :
  Checked.isEmpty_dom b tt = true ->
  Checked.and_isEmpty b v tt = Checked.Ok (v && isEmpty (Checked.the_board b) tt).
Proof.
  intros H. unfold Checked.and_isEmpty, Checked.isEmpty_at. rewrite H.
  destruct v; reflexivity.
Qed.

Lemma Checked_dispatch_MAIN_in_bounds (rule_ : Rule) (b : Checked.BBoard) (tt : Pos) :
  Checked.cell_dom b tt = true ->
  Checked.dispatch_MAIN rule_ b tt
  = Checked.Ok (dispatch_MAIN rule_ (Checked.the_board b) tt).
Proof.
  intros H. unfold Checked.dispatch_MAIN, dispatch_MAIN, Checked.cell_at.
  rewrite H. simpl.
  repeat match goal with
         | |- context [if ?c then _ else _] => destruct c
         end; reflexivity.
Qed.

Lemma Checked_dispatch_QVCF_in_bounds (b : Checked.BBoard) (tt : Pos) :
  Checked.cell_dom b tt = true ->
  Checked.dispatch_QVCF b tt = Checked.Ok (dispatch_QVCF (Checked.the_board b) tt).
Proof.
  intros H. unfold Checked.dispatch_QVCF, dispatch_QVCF, Checked.cell_at.
  rewrite H. simpl. destruct (0 <? _); reflexivity.
Qed.

(** C10 (amended): the quiescence-VCF constructor always, and the main
    constructor when the opponent has an [A_FIVE] or a [B_FLEX4], read
    [board.cell(ttMove)] before the emptiness check, whatever [ttMove] is,
    [NONE] included: when that read is out of bounds the construction faults
    on it, whether or not [isEmpty] is defined there.  In the two other
    dispatches of the main constructor the cell of the TT move is not read:
    the construction depends on the bounds of [isEmpty] only.  Where both
    reads are in bounds the constructors are those of the total model. *)
Theorem tt_cell_read_before_isEmpty (DEPTH_QVCF_FULL : Z) (rule_ : Rule)
    (b : Checked.BBoard) (margs : MainArgs.t) (qargs : QvcfArgs.t) :
  let bd := Checked.the_board b in
  let oppo := opposite (sideToMove bd) in
  let ttm := MainArgs.ttMove margs in
  let ttq := QvcfArgs.ttMove qargs in
  let threat := (0 <? p4Count bd oppo A_FIVE) || (0 <? p4Count bd oppo B_FLEX4) in
  (Checked.cell_dom b ttq = false ->
   Checked.MovePicker_QVCF DEPTH_QVCF_FULL rule_ b qargs
   = Checked.Failed Checked.cell_out_of_bounds)
  /\ (threat = true -> Checked.cell_dom b ttm = false ->
      Checked.MovePicker_MAIN rule_ b margs
      = Checked.Failed Checked.cell_out_of_bounds)
  /\ (threat = false ->
      Checked.MovePicker_MAIN rule_ b margs
      = if Checked.isEmpty_dom b ttm
        then Checked.Ok (MovePicker_MAIN rule_ bd margs)
        else Checked.Failed Checked.isEmpty_out_of_bounds)
  /\ (Checked.cell_dom b ttm = true -> Checked.isEmpty_dom b ttm = true ->
      Checked.MovePicker_MAIN rule_ b margs = Checked.Ok (MovePicker_MAIN rule_ bd margs))
  /\ (Checked.cell_dom b ttq = true -> Checked.isEmpty_dom b ttq = true ->
      Checked.MovePicker_QVCF DEPTH_QVCF_FULL rule_ b qargs
      = Checked.Ok (MovePicker_QVCF DEPTH_QVCF_FULL rule_ bd qargs)).
Proof.
  intros bd oppo ttm ttq threat. repeat split.
  - intros Hc. unfold Checked.MovePicker_QVCF, Checked.dispatch_QVCF, Checked.cell_at.
    fold ttq. rewrite Hc. destruct (0 <? _); reflexivity.
  - intros Ht Hc. unfold Checked.MovePicker_MAIN, Checked.dispatch_MAIN, Checked.cell_at.
    fold ttm bd oppo. rewrite Hc. unfold threat in Ht.
    destruct (0 <? p4Count bd oppo A_FIVE); [reflexivity|].
    simpl in Ht. rewrite Ht. reflexivity.
  - intros Ht. unfold threat in Ht. apply orb_false_iff in Ht as [H5 H4].
    unfold Checked.MovePicker_MAIN, Checked.dispatch_MAIN, MovePicker_MAIN, dispatch_MAIN.
    fold ttm bd oppo. rewrite H5, H4.
    unfold Checked.and_isEmpty, Checked.isEmpty_at. fold bd.
    destruct ((0 <? p4Count bd oppo C_BLOCK4_FLEX3) && _); simpl;
      destruct (Checked.isEmpty_dom b ttm); reflexivity.
  - intros Hc He. unfold Checked.MovePicker_MAIN, MovePicker_MAIN. fold ttm bd.
    rewrite (Checked_dispatch_MAIN_in_bounds rule_ b ttm Hc). fold bd. simpl.
    rewrite (and_isEmpty_in_bounds b _ ttm He). fold bd.
    destruct (dispatch_MAIN rule_ bd ttm). reflexivity.
  - intros Hc He. unfold Checked.MovePicker_QVCF, MovePicker_QVCF. fold ttq bd.
    rewrite (Checked_dispatch_QVCF_in_bounds b ttq Hc). fold bd. simpl.
    rewrite (and_isEmpty_in_bounds b _ ttq He). fold bd.
    destruct (dispatch_QVCF bd ttq). reflexivity.
Qed.

(** ** The properties on the sample positions *)

Lemma tt_cell_read_before_isEmpty_witness :
  Checked.cell_dom Sample.unbounded_cell Sample.H8 = false
  /\ Checked.MovePicker_QVCF 0 FREESTYLE Sample.unbounded_cell
       (QvcfArgs.mk Sample.H8 0 (NONE_P4, NONE_P4))
     = Checked.Failed Checked.cell_out_of_bounds.
Proof.
  assert (H : Checked.cell_dom Sample.unbounded_cell Sample.H8 = false) by reflexivity.
  split; [exact H|].
  exact (proj1 (tt_cell_read_before_isEmpty 0 FREESTYLE Sample.unbounded_cell
                  (Sample.main_args Sample.H8)
                  (QvcfArgs.mk Sample.H8 0 (NONE_P4, NONE_P4))) H).
Defined.

(** C10 fails as stated for the main constructor: on a board without
    threat, whose [cell] accessor has no position in bounds, the main
    constructor called with [ttMove = NONE] is well defined; and where
    [NONE] is outside the bounds of both accessors, the fault is that of
    [isEmpty]: no read of the cell precedes the emptiness check. *)
Lemma main_constructor_without_cell_read_counterexample :
  MainArgs.ttMove (Sample.main_args NONE) = NONE
  /\ Checked.cell_dom Sample.unbounded_cell NONE = false
  /\ Checked.MovePicker_MAIN FREESTYLE Sample.unbounded_cell (Sample.main_args NONE)
     = Checked.Ok (MovePicker_MAIN FREESTYLE Sample.quiet (Sample.main_args NONE))
  /\ Checked.cell_dom Sample.none_outside NONE = false
  /\ Checked.MovePicker_MAIN FREESTYLE Sample.none_outside (Sample.main_args NONE)
     = Checked.Failed Checked.isEmpty_out_of_bounds.
Proof. repeat split. Qed.

Lemma no_forbidden_point_behind_TT_witness :
  let p := MovePicker_MAIN RENJU Sample.renju_four (Sample.main_args Sample.G7) in
  rule p = RENJU /\ sideToMove (board p) = BLACK
  /\ yield 484 (-32768) 0 p = Sample.J9
  /\ checkForbiddenPoint (board p) (yield 484 (-32768) 0 p) = false.
Proof.
  intros p.
  assert (Hr : rule p = RENJU) by reflexivity.
  assert (Hb : sideToMove (board p) = BLACK) by reflexivity.
  split; [exact Hr|]. split; [exact Hb|]. split; [reflexivity|].
  apply (proj1 (no_forbidden_point_behind_TT 484 (-32768) p 0 Hr Hb)).
  - reflexivity.
  - vm_compute. discriminate.
Defined.

(** C2 fails as stated at the TT stage: under RENJU with BLACK to move and
    a white open four on the board, the main constructor accepts the empty
    square [H8], whose [pattern4[BLACK]] is [FORBID], as TT move, and the
    first call yields it although it is a forbidden point. *)
Lemma forbidden_ttMove_yielded_counterexample :
  let p := MovePicker_MAIN RENJU Sample.renju_four (Sample.main_args Sample.H8) in
  rule p = RENJU /\ sideToMove (board p) = BLACK
  /\ p4Count (board p) WHITE B_FLEX4 = 1
  /\ Cell.pattern4 (cell (board p) Sample.H8) BLACK = FORBID
  /\ stage p = DEFENDFOUR_TT
  /\ yield 484 (-32768) 0 p = Sample.H8
  /\ checkForbiddenPoint (board p) (yield 484 (-32768) 0 p) = true.
Proof. repeat split. Qed.

Lemma yield_records_scores_witness :
  let p := after_calls 484 (-32768) 1
             (MovePicker_MAIN FREESTYLE Sample.quiet (Sample.main_args Sample.H8)) in
  let r := fst (operator_call 484 (-32768) p) in
  let p' := snd (operator_call 484 (-32768) p) in
  operator_call 484 (-32768) p = (r, p') /\ r <> NONE /\ records_scores r p'.
Proof.
  intros p r p'.
  assert (H1 : operator_call 484 (-32768) p = (r, p')) by apply surjective_pairing.
  assert (H2 : r <> NONE) by (vm_compute; discriminate).
  split; [exact H1|]. split; [exact H2|].
  exact (yield_records_scores 484 (-32768) p p' r H1 H2).
Defined.

(** C4 fails as stated at a TT stage: the first call of a main picker
    over the quiet board with TT move [H8] yields [H8], and afterwards
    [curScore] holds no score of any move: it has never been assigned. *)
Lemma ttMove_yield_records_nothing_counterexample :
  let p := MovePicker_MAIN FREESTYLE Sample.quiet (Sample.main_args Sample.H8) in
  let r := fst (operator_call 484 (-32768) p) in
  let p' := snd (operator_call 484 (-32768) p) in
  stage p = MAIN_TT /\ r = Sample.H8 /\ r <> NONE
  /\ curScore p' = None /\ curPolicyScore p' = None
  /\ ~ records_scores r p'.
Proof.
  intros p r p'. repeat split; try reflexivity.
  - vm_compute. discriminate.
  - intros (m & _ & _ & H & _). vm_compute in H. discriminate.
Qed.

Lemma quiet_buffers_fit : buffers_fit 484 Sample.quiet.
Proof.
  unfold buffers_fit. repeat split; try (simpl; lia).
  intros r. destruct r; simpl; lia.
Defined.

Lemma constructed_picker_exhausts_witness :
  let p := MovePicker_MAIN FREESTYLE Sample.quiet (Sample.main_args Sample.H8) in
  buffers_fit 484 Sample.quiet
  /\ exists n, n <= 484 + 1 /\ yield 484 (-32768) n p = NONE
               /\ forall i, i < n -> yield 484 (-32768) i p <> NONE.
Proof.
  intros p. split; [exact quiet_buffers_fit|].
  exact (constructed_picker_exhausts 484 (-32768) 0 FREESTYLE Sample.quiet
           (Sample.main_args Sample.H8) (QvcfArgs.mk NONE 0 (NONE_P4, NONE_P4)) p
           quiet_buffers_fit (or_intror (or_introl eq_refl))).
Defined.



Lemma DEFENDFIVE_MOVES_streams_generation_witness :
  let p := MovePicker_MAIN FREESTYLE Sample.five_threat (Sample.main_args Sample.G7) in
  stage p = DEFENDFIVE_MOVES /\ ttMove p = NONE
  /\ moves (snd (operator_call 484 (-32768) p)) = [mkMove Sample.H8 4 2]
  /\ drain 484 (-32768) 2 p
     = map pos (List.filter (accepted p) (generate Sample.five_threat DEFEND_FIVE)).
Proof.
  intros p.
  assert (Hs : stage p = DEFENDFIVE_MOVES) by reflexivity.
  assert (Ht : ttMove p = NONE) by reflexivity.
  split; [exact Hs|]. split; [exact Ht|].
  pose proof (proj2 (DEFENDFIVE_MOVES_streams_generation 484 (-32768) p Hs) Ht) as W.
  split; [exact (proj1 W)|].
  apply (proj2 W). simpl. lia.
Defined.

Lemma ttMove_not_yielded_again_witness :
  let p := MovePicker_MAIN FREESTYLE Sample.quiet (Sample.main_args Sample.H8) in
  is_TT_stage (stage p) = true
  /\ yield 484 (-32768) 0 p = ttMove p
  /\ yield 484 (-32768) 1 p <> ttMove p
  /\ yield 484 (-32768) 2 p <> ttMove p.
Proof.
  intros p.
  assert (H : is_TT_stage (stage p) = true) by reflexivity.
  assert (Hne : ttMove p <> NONE) by (vm_compute; discriminate).
  pose proof (ttMove_not_yielded_again 484 (-32768) p H) as (H0 & Hn & _).
  split; [exact H|]. split; [exact H0|].
  split; [exact (proj2 (Hn 0) Hne) | exact (proj2 (Hn 1) Hne)].
Defined.

(** The sample main picker over the quiet board: the TT move first, then
    the other generated moves, the TT move skipped. *)
Example quiet_stream :
  drain 484 (-32768) 5 (MovePicker_MAIN FREESTYLE Sample.quiet (Sample.main_args Sample.H8))
  = [Sample.H8; Sample.G7; Sample.J9].
Proof. vm_compute. reflexivity. Qed.

Example renju_stream :
  drain 484 (-32768) 5 (MovePicker_MAIN RENJU Sample.renju_four (Sample.main_args Sample.G7))
  = [Sample.J9].
Proof. vm_compute. reflexivity. Qed.

(** * Further properties of the picker *)

Section MoreStreaming.

Variable MAX_MOVES : nat.
Variable Score_lowest : Z.

Local Abbreviation call := (operator_call MAX_MOVES Score_lowest).
Local Abbreviation drain_ := (drain MAX_MOVES Score_lowest).
Local Abbreviation yield_ := (yield MAX_MOVES Score_lowest).
Local Abbreviation after_ := (after_calls MAX_MOVES Score_lowest).

(** The calls at [ALLMOVES] scan the buffer from the cursor on. *)
Lemma drain_until_NONE (q : MovePicker) (fuel : nat) :
  stage q = ALLMOVES ->
  length (moves q) - curMove q < fuel ->
  drain_ fuel q
  = until_NONE (map pos (List.filter (accepted q) (drop (curMove q) (moves q)))).
Proof.
  intros Hs Hf. rewrite <- length_drop in Hf.
  remember (length (drop (curMove q) (moves q))) as k eqn:Hk.
  assert (Hle : length (drop (curMove q) (moves q)) <= k) by lia. clear Hk.
  revert q fuel Hs Hf Hle.
  induction k as [|k IH]; intros q fuel Hs Hf Hk;
    (destruct fuel as [|fuel]; [lia|]);
    rewrite (drain_S MAX_MOVES Score_lowest), (call_ALLMOVES MAX_MOVES Score_lowest q Hs);
    unfold stage_ALLMOVES, pickNextMove; rewrite <- length_drop;
    pose proof (pickLoop_scan _ q eq_refl) as H;
    destruct (List.filter (accepted q) (drop (curMove q) (moves q))) as [|m fl] eqn:Hfl.
  - rewrite H. reflexivity.
  - destruct H as (q' & _ & _ & _ & _ & Hl). lia.
  - rewrite H. reflexivity.
  - destruct H as (q' & E & Hn & Hs' & Hf' & Hl). rewrite E. simpl.
    destruct (Pos_eqb (pos m) NONE); [reflexivity|]. f_equal.
    rewrite (IH q' fuel); try lia.
    rewrite (List.filter_ext _ _ (fun a => accepted_same_node q q' a Hn)), Hf'.
    reflexivity.
Qed.

(** X1: at [ALLMOVES] the repeated calls yield the moves left in the
    buffer that pass the yield predicate, one after the other in buffer
    order, each at most once, up to the first of them that lies at [NONE]. *)
Theorem ALLMOVES_streams_buffer_order (q : MovePicker) (fuel : nat) :
  stage q = ALLMOVES ->
  length (moves q) - curMove q < fuel ->
  drain_ fuel q
  = until_NONE (map pos (List.filter (accepted q) (drop (curMove q) (moves q)))).
Proof. apply drain_until_NONE. Qed.

(** X2: the root picker neither scores nor sorts: its calls yield the
    moves its constructor generated, in generation order, leaving out only
    those the yield predicate rejects, which with no TT move stored are the
    moves at [NONE] and, under RENJU with BLACK to move, the forbidden
    points. *)
Theorem ROOT_streams_generation_order (rule_ : Rule) (b : Board) (fuel : nat) :
  let p := MovePicker_ROOT rule_ b in
  length (moves p) < fuel ->
  stage p = ALLMOVES /\ ttMove p = NONE
  /\ drain_ fuel p = map pos (List.filter (accepted p) (moves p))
  /\ forall x, x ∈ drain_ fuel p ->
       generated b x /\ x <> NONE
       /\ (rule_ = RENJU -> sideToMove b = BLACK -> checkForbiddenPoint b x = false).
Proof.
  intros p Hf.
  assert (Hd : drain_ fuel p = map pos (List.filter (accepted p) (moves p))).
  { rewrite (drain_streaming MAX_MOVES Score_lowest (length (moves p)) p fuel);
      try reflexivity; exact Hf. }
  split; [reflexivity|]. split; [reflexivity|]. split; [exact Hd|].
  intros x Hx. rewrite Hd in Hx. apply list_elem_of_fmap in Hx as (m & -> & Hm).
  apply list_elem_of_In, List.filter_In in Hm as [Hin Hacc].
  unfold accepted in Hacc. apply andb_true_iff in Hacc as [Hne Hfb].
  change (ttMove p) with NONE in Hne. change (rule p) with rule_ in Hfb.
  change (board p) with b in Hfb.
  apply negb_true_iff, Pos_eqb_neq in Hne.
  split; [|split; [exact Hne|]].
  - apply list_elem_of_In in Hin.
    assert (Hpos : pos m ∈ map pos (moves p))
      by (apply list_elem_of_fmap; exists m; auto).
    revert Hpos. unfold p, MovePicker_ROOT. simpl.
    repeat match goal with
           | |- context [if ?c then _ else _] => destruct c
           end;
      try (intros H; left; eexists; exact H).
    + rewrite map_app. intros H. apply elem_of_app in H as [H|H]; left; eexists; exact H.
    + destruct (generate b (DEFEND_B4F3_of rule_)) as [|d0 d] eqn:Hd0.
      * intros H; left; eexists; exact H.
      * change (d0 :: d ++ generate b VCF) with ((d0 :: d) ++ generate b VCF).
        rewrite <- Hd0, map_app. intros H.
        apply elem_of_app in H as [H|H]; left; eexists; exact H.
  - intros Hr Hb. rewrite Hr, Hb in Hfb. simpl in Hfb.
    apply negb_true_iff in Hfb. exact Hfb.
Qed.

(** Calls at [ALLMOVES] leave the stage and the buffer alone. *)
Lemma ALLMOVES_stable (n : nat) :
  forall q,
    stage q = ALLMOVES ->
    stage (after_ n q) = ALLMOVES /\ moves (after_ n q) = moves q
    /\ same_node q (after_ n q) /\ curMove q <= curMove (after_ n q).
Proof.
  induction n as [|n IH]; intros q Hs.
  - repeat split; auto.
  - change (after_ (S n) q) with (after_ n (snd (call q))).
    rewrite (call_ALLMOVES MAX_MOVES Score_lowest q Hs).
    destruct (stage_ALLMOVES q) as [r q'] eqn:E. simpl.
    destruct (stage_ALLMOVES_spec q q' r E) as (Hn & Hst & Hmv & Hle & _).
    destruct (IH q') as (H1 & H2 & H3 & H4); [congruence|].
    split; [exact H1|]. split; [congruence|].
    split; [eapply same_node_trans; eauto | lia].
Qed.

(** X3: a picker generates once.  From the call made at a generation stage
    on, the stage is [ALLMOVES] and the buffer is the one that call filled:
    no later call regenerates, rescores or reorders it. *)
Theorem buffer_filled_once (p : MovePicker) (n : nat) :
  is_gen_stage (stage p) ->
  stage (after_ (S n) p) = ALLMOVES
  /\ moves (after_ (S n) p) = moves (after_ 1 p)
  /\ board (after_ (S n) p) = board p /\ ttMove (after_ (S n) p) = ttMove p.
Proof.
  intros Hg.
  destruct (generation_stage_enters MAX_MOVES Score_lowest p Hg) as (q & E & He & _).
  pose proof (entered_same_node _ _ He) as Hpq.
  destruct He as (_ & _ & _ & Hsq & _).
  change (after_ (S n) p) with (after_ n (snd (call p))).
  change (after_ 1 p) with (snd (call p)).
  destruct (stage_ALLMOVES q) as [r q'] eqn:Eq. rewrite E. simpl.
  destruct (stage_ALLMOVES_spec q q' r Eq) as (Hn & Hst & Hmv & _).
  destruct (ALLMOVES_stable n q') as (H1 & H2 & H3 & _); [congruence|].
  pose proof (same_node_trans _ _ _ Hpq (same_node_trans _ _ _ Hn H3)) as (Hb & _ & Ht).
  auto.
Qed.

(** A yield at [ALLMOVES] is [NONE] or the position of a buffer move. *)
Lemma ALLMOVES_yield_in_buffer (n : nat) (q : MovePicker) :
  stage q = ALLMOVES ->
  yield_ n q = NONE \/ yield_ n q ∈ map pos (moves q).
Proof.
  intros Hs. destruct (ALLMOVES_stable n q Hs) as (Hsn & Hmn & _).
  unfold yield. rewrite (call_ALLMOVES MAX_MOVES Score_lowest _ Hsn).
  destruct (stage_ALLMOVES (after_ n q)) as [r q'] eqn:E. simpl.
  destruct (stage_ALLMOVES_spec _ q' r E)
    as (_ & _ & _ & _ & [(-> & _)|(m & Hm & _ & -> & _)]); [auto|].
  right. rewrite <- Hmn. apply list_elem_of_fmap. exists m. split; [reflexivity|].
  apply list_elem_of_lookup. eauto.
Qed.

(** X4: a picker never invents a move.  Every position yielded from a
    generation stage on, by whatever call, was written by a generator of the
    board. *)
Theorem yields_are_generated (p : MovePicker) (n : nat) :
  is_gen_stage (stage p) ->
  yield_ n p = NONE \/ generated (board p) (yield_ n p).
Proof.
  intros Hg.
  destruct (generation_stage_enters MAX_MOVES Score_lowest p Hg) as (q & E & He & _ & Hgen).
  destruct He as (_ & _ & _ & Hsq & _).
  rewrite <- (call_ALLMOVES MAX_MOVES Score_lowest q Hsq) in E.
  rewrite (yield_congr MAX_MOVES Score_lowest p q E).
  destruct (ALLMOVES_yield_in_buffer n q Hsq) as [H|H]; auto.
Qed.

Lemma pickLoop_bound (n : nat) :
  forall (p p' : MovePicker) (r : Pos),
    pickLoop Next (fun _ => true) n p = (r, p') ->
    curMove p <= length (moves p) -> curMove p' <= length (moves p').
Proof.
  induction n as [|n IH]; intros p p' r H Hle; simpl in H.
  - injection H as <- <-. exact Hle.
  - destruct (moves p !! curMove p) as [m|] eqn:Hm.
    + apply lookup_lt_Some in Hm.
      destruct (_ && _).
      * injection H as <- <-. simpl. lia.
      * apply IH in H; simpl in *; [exact H | lia].
    + injection H as <- <-. exact Hle.
Qed.

Lemma call_keeps_cursor (p : MovePicker) :
  curMove p <= length (moves p) ->
  curMove (snd (call p)) <= length (moves (snd (call p))).
Proof.
  intros Hle.
  destruct (stage_cases (stage p)) as [HT|[Hg|[Ha|(HT & Hg & Ha)]]].
  - rewrite (call_TT MAX_MOVES Score_lowest p HT). exact Hle.
  - destruct (generation_stage_enters MAX_MOVES Score_lowest p Hg) as (q & E & He & _).
    destruct He as (_ & _ & _ & _ & Hc & _).
    rewrite E. destruct (stage_ALLMOVES q) as [r q'] eqn:Eq. simpl.
    apply (pickLoop_bound _ q q' r Eq). lia.
  - rewrite (call_ALLMOVES MAX_MOVES Score_lowest p Ha).
    destruct (stage_ALLMOVES p) as [r q'] eqn:Eq. simpl.
    apply (pickLoop_bound _ p q' r Eq Hle).
  - rewrite (call_unknown MAX_MOVES Score_lowest p HT Hg Ha). exact Hle.
Qed.

(** X5: [curMove] never passes [endMove].  A picker whose cursor lies
    within its buffer, as that of every constructed picker does, keeps it
    there through any number of calls. *)
Theorem cursor_stays_within_buffer (p : MovePicker) (n : nat) :
  curMove p <= length (moves p) ->
  curMove (after_ n p) <= length (moves (after_ n p)).
Proof.
  revert p. induction n as [|n IH]; intros p Hle; [exact Hle|].
  change (after_ (S n) p) with (after_ n (snd (call p))).
  apply IH, call_keeps_cursor, Hle.
Qed.

(** When the loop of [pickNextMove] is given the whole of what is left, it
    either returns a buffer move or has used the buffer up. *)
Lemma pickLoop_exhaust (n : nat) :
  forall (p p' : MovePicker) (r : Pos),
    length (moves p) - curMove p <= n ->
    pickLoop Next (fun _ => true) n p = (r, p') ->
    (exists m, m ∈ moves p /\ r = pos m)
    \/ (r = NONE /\ length (moves p') <= curMove p').
Proof.
  induction n as [|n IH]; intros p p' r Hn H; simpl in H.
  - injection H as <- <-. right. split; [reflexivity | lia].
  - destruct (moves p !! curMove p) as [m|] eqn:Hm.
    + destruct (_ && _).
      * injection H as <- <-. left. exists m. split; [|reflexivity].
        apply list_elem_of_lookup. eauto.
      * apply IH in H; simpl in *; [exact H | lia].
    + injection H as <- <-. apply lookup_ge_None in Hm. right. auto.
Qed.

Lemma exhausted_fixed (q : MovePicker) :
  stage q = ALLMOVES -> length (moves q) <= curMove q -> call q = (NONE, q).
Proof.
  intros Hs Hle. rewrite (call_ALLMOVES MAX_MOVES Score_lowest q Hs).
  unfold stage_ALLMOVES, pickNextMove.
  replace (length (moves q) - curMove q) with 0 by lia. reflexivity.
Qed.

Lemma yield_after (n k : nat) :
  forall p, yield_ (n + k) p = yield_ k (after_ n p).
Proof.
  induction n as [|n IH]; intros p; [reflexivity|].
  change (yield_ (S n + k) p) with (yield_ (n + k) (snd (call p))).
  rewrite IH. reflexivity.
Qed.

(** X6: [NONE] is terminal.  At [ALLMOVES], over a buffer that holds no
    move at [NONE], a call that returns [NONE] has used the buffer up, and
    every later call returns [NONE] as well. *)
Theorem NONE_is_terminal (q : MovePicker) (n k : nat) :
  stage q = ALLMOVES ->
  (forall m, m ∈ moves q -> pos m <> NONE) ->
  yield_ n q = NONE ->
  yield_ (n + k) q = NONE
  /\ length (moves q) <= curMove (after_ (S n) q).
Proof.
  intros Hs Hbuf Hy.
  destruct (ALLMOVES_stable n q Hs) as (Hsn & Hmn & _).
  set (qn := after_ n q) in *.
  assert (Hcall : call qn = (NONE, snd (call qn))).
  { unfold yield in Hy. fold qn in Hy. rewrite <- Hy. apply surjective_pairing. }
  assert (Hex : length (moves (snd (call qn))) <= curMove (snd (call qn))).
  { rewrite (call_ALLMOVES MAX_MOVES Score_lowest qn Hsn) in Hcall |- *.
    destruct (pickLoop_exhaust _ qn _ NONE (Nat.le_refl _) Hcall)
      as [(m & Hm & Hp)|(_ & H)]; [|exact H].
    rewrite Hmn in Hm. symmetry in Hp. destruct (Hbuf m Hm Hp). }
  assert (Hq' : stage (snd (call qn)) = ALLMOVES /\ moves (snd (call qn)) = moves q).
  { rewrite (call_ALLMOVES MAX_MOVES Score_lowest qn Hsn).
    destruct (stage_ALLMOVES qn) as [r q'] eqn:E. simpl.
    destruct (stage_ALLMOVES_spec qn q' r E) as (_ & Hst & Hmv & _).
    split; congruence. }
  destruct Hq' as [Hs' Hm'].
  split.
  - rewrite yield_after. fold qn. destruct k as [|k].
    + exact Hy.
    + change (yield_ (S k) qn) with (yield_ k (snd (call qn))).
      apply (always_NONE MAX_MOVES Score_lowest).
      apply exhausted_fixed; auto.
  - rewrite (after_calls_S MAX_MOVES Score_lowest). fold qn. rewrite <- Hm'. exact Hex.
Qed.

(** X7: the scorer rewrites scores only.  [scoreMoves] keeps the number,
    the order and the positions of the buffer moves, the moves in front of
    the cursor untouched, and the cursor, the stage, the TT move and the
    scores of the current move as they were. *)
Theorem scoreMoves_changes_scores_only (Type_ : Z) (p : MovePicker) :
  let p' := scoreMoves Score_lowest Type_ p in
  map pos (moves p') = map pos (moves p)
  /\ length (moves p') = length (moves p)
  /\ take (curMove p) (moves p') = take (curMove p) (moves p)
  /\ curMove p' = curMove p /\ stage p' = stage p /\ ttMove p' = ttMove p
  /\ rule p' = rule p /\ board p' = board p
  /\ curScore p' = curScore p /\ curPolicyScore p' = curPolicyScore p.
Proof.
  intros p'.
  destruct (scoreMoves_keeps Score_lowest Type_ p)
    as (Hb & Hr & Ht & Hs & Hc & Hcs & Hcp & Hpos).
  fold p' in Hb, Hr, Ht, Hs, Hc, Hcs, Hcp, Hpos.
  assert (Hmv : moves p' = take (curMove p) (moves p)
                           ++ map (scoreMove Score_lowest Type_ p (policyBuffer Type_ p))
                                (drop (curMove p) (moves p))).
  { unfold p', scoreMoves. destruct (policyBuffer Type_ p); reflexivity. }
  repeat split; auto.
  - rewrite <- (length_map pos), Hpos, length_map. reflexivity.
  - rewrite Hmv. destruct (decide (curMove p <= length (moves p))) as [Hle|Hgt].
    + rewrite take_app_length'; [reflexivity|]. rewrite length_take. lia.
    + rewrite drop_ge by lia. simpl. rewrite app_nil_r.
      rewrite !take_ge; try lia; try reflexivity.
      rewrite length_take. lia.
Qed.

Lemma foldl_max_spec (l : list Z) :
  forall a : Z,
    (a <= foldl Z.max a l)%Z
    /\ (forall x, x ∈ l -> (x <= foldl Z.max a l)%Z)
    /\ (foldl Z.max a l = a \/ foldl Z.max a l ∈ l).
Proof.
  induction l as [|y l IH]; intros a; simpl.
  - split; [lia|]. split; [|auto]. intros x Hx. apply elem_of_nil in Hx. contradiction.
  - destruct (IH (Z.max a y)) as (H1 & H2 & H3). split; [lia|]. split.
    + intros x Hx. apply elem_of_cons in Hx as [->|Hx]; [lia | auto].
    + destruct H3 as [H3|H3].
      * destruct (Z.max_spec a y) as [[_ E]|[_ E]].
        -- right. rewrite H3, E. apply elem_of_cons. auto.
        -- left. rewrite H3. exact E.
      * right. apply elem_of_cons. auto.
Qed.

Lemma scoreMove_rawScore (Type_ : Z) (p : MovePicker) (buf : option (Pos -> Score))
    (m : Move) :
  rawScore (scoreMove Score_lowest Type_ p buf m) = rawScore (baseScore Type_ (board p) buf m).
Proof.
  unfold scoreMove.
  rewrite (proj2 (addCounterMove_keeps _ _ _ _)), (proj2 (addMainHistory_keeps _ _ _ _)).
  reflexivity.
Qed.

(** The range the scorer writes, read back from the buffer. *)
Lemma scoreMoves_range (Type_ : Z) (p : MovePicker) :
  drop (curMove p) (moves (scoreMoves Score_lowest Type_ p))
  = map (scoreMove Score_lowest Type_ p (policyBuffer Type_ p)) (drop (curMove p) (moves p)).
Proof.
  assert (Hmv : moves (scoreMoves Score_lowest Type_ p)
                = take (curMove p) (moves p)
                  ++ map (scoreMove Score_lowest Type_ p (policyBuffer Type_ p))
                       (drop (curMove p) (moves p))).
  { unfold scoreMoves. destruct (policyBuffer Type_ p); reflexivity. }
  rewrite Hmv. destruct (decide (curMove p <= length (moves p))) as [Hle|Hgt].
  - apply drop_app_length'. rewrite length_take. lia.
  - rewrite (drop_ge (moves p)) by lia. simpl. rewrite app_nil_r.
    apply drop_ge. rewrite length_take. lia.
Qed.

(** X8: policy parity.  When [scoreMoves] runs with [POLICY] on a board
    that has an evaluator, [hasPolicy] is set, the raw score of every move
    of the range is the policy of its position, and [maxPolicyScore] is the
    greatest of these raw scores and of the initial [lowest / 2]: no raw
    score exceeds it and it is attained.  Without the flag or without an
    evaluator the policy members are left as they were. *)
Theorem policy_scoring_parity (Type_ : Z) (p : MovePicker) :
  let p' := scoreMoves Score_lowest Type_ p in
  let range := drop (curMove p) (moves p') in
  (forall ev,
     has Type_ POLICY = true -> evaluator (board p) = Some ev ->
     hasPolicyScore p' = true
     /\ (forall m, m ∈ range ->
           rawScore m
           = evaluatePolicy ev (map pos (drop (curMove p) (moves p))) (pos m))
     /\ exists mx,
          maxMovePolicy p' = Some mx
          /\ (Score_lowest ÷ 2 <= mx)%Z
          /\ (forall m, m ∈ range -> (rawScore m <= mx)%Z)
          /\ (mx = (Score_lowest ÷ 2)%Z \/ exists m, m ∈ range /\ rawScore m = mx))
  /\ (has Type_ POLICY = false \/ evaluator (board p) = None ->
      hasPolicyScore p' = hasPolicyScore p /\ maxMovePolicy p' = maxMovePolicy p).
Proof.
  intros p' range.
  pose proof (scoreMoves_range Type_ p) as Hrange. fold p' range in Hrange.
  split.
  - intros ev Hflag Hev.
    assert (Hbuf : policyBuffer Type_ p
                   = Some (evaluatePolicy ev (map pos (drop (curMove p) (moves p))))).
    { unfold policyBuffer. rewrite Hflag, Hev. reflexivity. }
    rewrite Hbuf in Hrange.
    set (buf := evaluatePolicy ev (map pos (drop (curMove p) (moves p)))) in *.
    assert (Hraw : forall m, m ∈ range -> rawScore m = buf (pos m)).
    { intros m Hm. rewrite Hrange in Hm.
      apply list_elem_of_fmap in Hm as (m0 & -> & _).
      rewrite scoreMove_rawScore, scoreMove_pos. reflexivity. }
    assert (Hmax : maxPolicyScore p'
                   = Some (foldl Z.max (Score_lowest ÷ 2)%Z (map rawScore range))
                   /\ hasPolicy p' = true).
    { rewrite Hrange. unfold p', scoreMoves. rewrite Hbuf. split; reflexivity. }
    destruct Hmax as [Hmax Hhas].
    destruct (foldl_max_spec (map rawScore range) (Score_lowest ÷ 2)%Z) as (H1 & H2 & H3).
    split; [exact Hhas|]. split; [exact Hraw|].
    eexists. split; [exact Hmax|]. split; [exact H1|]. split.
    + intros m Hm. apply H2. apply list_elem_of_fmap. eauto.
    + destruct H3 as [H3|H3]; [left; exact H3|]. right.
      apply list_elem_of_fmap in H3 as (m & Hm1 & Hm2). eauto.
  - intros Hno.
    assert (Hbuf : policyBuffer Type_ p = None).
    { unfold policyBuffer. destruct Hno as [-> | ->]; [reflexivity|].
      destruct (has Type_ POLICY); reflexivity. }
    unfold p', scoreMoves. rewrite Hbuf. split; reflexivity.
Qed.

Lemma has_lor_CONT_HISTORY (Type_ f : Z) :
  Z.land CONT_HISTORY f = 0%Z ->
  has (Z.lor Type_ CONT_HISTORY) f = has Type_ f.
Proof.
  intros H. unfold has. rewrite Z.land_lor_distr_l, H, Z.lor_0_r. reflexivity.
Qed.

Lemma scoreMove_CONT_HISTORY (Type_ : Z) (p : MovePicker) (buf : option (Pos -> Score))
    (m : Move) :
  scoreMove Score_lowest (Z.lor Type_ CONT_HISTORY) p buf m = scoreMove Score_lowest Type_ p buf m.
Proof.
  unfold scoreMove, addCounterMove, addMainHistory, baseScore.
  rewrite !has_lor_CONT_HISTORY by reflexivity. reflexivity.
Qed.

(** X9: [CONT_HISTORY] is without effect.  Scoring with the flag added to
    any score type gives the very picker that scoring without it gives. *)
Theorem CONT_HISTORY_changes_nothing (Type_ : Z) (p : MovePicker) :
  scoreMoves Score_lowest (Z.lor Type_ CONT_HISTORY) p = scoreMoves Score_lowest Type_ p.
Proof.
  assert (Hbuf : policyBuffer (Z.lor Type_ CONT_HISTORY) p = policyBuffer Type_ p).
  { unfold policyBuffer. rewrite has_lor_CONT_HISTORY by reflexivity. reflexivity. }
  unfold scoreMoves. cbv zeta. rewrite Hbuf.
  rewrite (map_ext _ _ (scoreMove_CONT_HISTORY Type_ p (policyBuffer Type_ p))).
  reflexivity.
Qed.

(** The [MAIN_HISTORY] block in one equation. *)
Lemma addMainHistory_term (Type_ : Z) (p : MovePicker) (h : MainHistory) (x : Move) :
  has Type_ MAIN_HISTORY = true -> mainHistory p = Some h ->
  addMainHistory Score_lowest Type_ p x
  = mkMove (pos x)
      (to_Score Score_lowest (score x + mainHistory_term h (board p) x)) (rawScore x).
Proof.
  intros Hf Hh. unfold addMainHistory, mainHistory_term, add_score. rewrite Hf, Hh.
  destruct (p4_geb _ _); reflexivity.
Qed.

(** Whether the [COUNTER_MOVE] block adds its bonus depends on the position
    of the move only. *)
Lemma addCounterMove_by_pos (Type_ : Z) (p : MovePicker) (x y : Move) :
  pos x = pos y ->
  (addCounterMove Score_lowest Type_ p x = x
   /\ addCounterMove Score_lowest Type_ p y = y)
  \/ (addCounterMove Score_lowest Type_ p x = add_score Score_lowest CounterMoveBonus x
      /\ addCounterMove Score_lowest Type_ p y = add_score Score_lowest CounterMoveBonus y).
Proof.
  intros Hp. unfold addCounterMove. rewrite Hp.
  destruct (has Type_ COUNTER_MOVE); [|auto].
  destruct (isInBoard _ _); [|auto].
  destruct (counterMoveHistory p) as [cmh|]; [|auto].
  destruct (cmh _ _) as [cm cp]. destruct (_ && _); auto.
Qed.

(** X10: history monotonicity.  With everything else fixed, raising the
    main-history entries of a position never lowers the score the scorer
    gives the move at that position, as long as the sums fit [Score]: the
    base score plus the lesser quotient is not below the least [Score], and
    the base score plus the greater quotient plus the counter-move bonus is
    a [Score].  Raw score and position are the same in any case, and a move
    at whose position the two tables agree is scored the same under
    both. *)
Theorem mainHistory_monotone (Type_ : Z) (p : MovePicker) (h h' : MainHistory)
    (buf : option (Pos -> Score)) (m : Move) :
  let self := sideToMove (board p) in
  let base := baseScore Type_ (board p) buf m in
  let s := scoreMove Score_lowest Type_ (with_mainHistory h p) buf m in
  let s' := scoreMove Score_lowest Type_ (with_mainHistory h' p) buf m in
  ((forall k, (h self (pos m) k <= h' self (pos m) k)%Z) ->
   (Score_lowest <= score base + mainHistory_term h (board p) m)%Z ->
   (score base + mainHistory_term h' (board p) m + CounterMoveBonus < - Score_lowest)%Z ->
   (score s <= score s')%Z)
  /\ (rawScore s = rawScore s' /\ pos s = pos s')
  /\ ((forall k, h self (pos m) k = h' self (pos m) k) -> s = s').
Proof.
  intros self base s s'.
  assert (Hpos : pos base = pos m) by apply baseScore_pos.
  set (x := addMainHistory Score_lowest Type_ (with_mainHistory h p) base).
  set (x' := addMainHistory Score_lowest Type_ (with_mainHistory h' p) base).
  assert (Hs : s = addCounterMove Score_lowest Type_ p x) by reflexivity.
  assert (Hs' : s' = addCounterMove Score_lowest Type_ p x') by reflexivity.
  assert (Hxp : pos x = pos x' /\ rawScore x = rawScore x').
  { unfold x, x'.
    rewrite !(proj1 (addMainHistory_keeps _ _ _ _)), !(proj2 (addMainHistory_keeps _ _ _ _)).
    split; reflexivity. }
  destruct Hxp as [Hxp Hxr].
  assert (Hterm : forall g, mainHistory_term g (board p) base = mainHistory_term g (board p) m).
  { intros g. unfold mainHistory_term. rewrite Hpos. reflexivity. }
  split; [|split].
  - intros Hle Hlo Hhi.
    assert (Hd : (mainHistory_term h (board p) m <= mainHistory_term h' (board p) m)%Z).
    { unfold mainHistory_term. fold self.
      destruct (p4_geb _ _); apply Z.quot_le_mono; auto; lia. }
    assert (Hb : (0 <= CounterMoveBonus)%Z) by (unfold CounterMoveBonus; lia).
    destruct (has Type_ MAIN_HISTORY) eqn:Hflag.
    + assert (Ex : x = mkMove (pos base)
                         (score base + mainHistory_term h (board p) m) (rawScore base)).
      { unfold x. rewrite (addMainHistory_term Type_ (with_mainHistory h p) h base Hflag eq_refl).
        change (board (with_mainHistory h p)) with (board p).
        rewrite Hterm, to_Score_fits; [reflexivity|]. unfold fits_Score. lia. }
      assert (Ex' : x' = mkMove (pos base)
                          (score base + mainHistory_term h' (board p) m) (rawScore base)).
      { unfold x'. rewrite (addMainHistory_term Type_ (with_mainHistory h' p) h' base Hflag eq_refl).
        change (board (with_mainHistory h' p)) with (board p).
        rewrite Hterm, to_Score_fits; [reflexivity|]. unfold fits_Score. lia. }
      rewrite Hs, Hs'.
      destruct (addCounterMove_by_pos Type_ p x x' Hxp) as [[-> ->]|[-> ->]].
      * rewrite Ex, Ex'. simpl. lia.
      * rewrite Ex, Ex'. unfold add_score. simpl.
        rewrite !to_Score_fits by (unfold fits_Score; lia). lia.
    + assert (E : x = x').
      { unfold x, x', addMainHistory. rewrite Hflag. reflexivity. }
      rewrite Hs, Hs', E. lia.
  - rewrite Hs, Hs'.
    rewrite !(proj1 (addCounterMove_keeps _ _ _ _)), !(proj2 (addCounterMove_keeps _ _ _ _)).
    split; assumption.
  - intros Heq. rewrite Hs, Hs'. f_equal.
    unfold x, x', addMainHistory. simpl. rewrite Hpos. fold self. rewrite !Heq. reflexivity.
Qed.

(** What a scoring stage runs: the scorer on the freshly generated list,
    then the sorter and the first pick. *)
Lemma scored_stage_call (p : MovePicker) :
  is_scored_stage (stage p) ->
  exists Type_ gen,
    call p
    = sort_and_stream MAX_MOVES (scoreMoves Score_lowest Type_ (set_buffer 0 gen p))
    /\ (is_policy_stage (stage p) -> has Type_ POLICY = true).
Proof.
  intros [Hs|[Hs|[Hs|Hs]]]; unfold operator_call; rewrite Hs; simpl.
  - do 2 eexists. split; [reflexivity|]. intros _. reflexivity.
  - do 2 eexists. split; [reflexivity|]. intros _. reflexivity.
  - unfold stage_DEFENDB4F3_MOVES.
    destruct (generate (board p) (DEFEND_B4F3_of (rule p))) as [|d0 d].
    + rewrite stage_MAIN_MOVES_restart.
      do 2 eexists. split; [reflexivity|]. intros _. reflexivity.
    + do 2 eexists. split; [reflexivity|]. intros _. reflexivity.
  - do 2 eexists. split; [reflexivity|].
    intros [H|[H|H]]; discriminate H.
Qed.

Lemma pickLoop_keeps_policy (n : nat) :
  forall (p p' : MovePicker) (r : Pos),
    pickLoop Next (fun _ => true) n p = (r, p') ->
    maxPolicyScore p' = maxPolicyScore p /\ hasPolicy p' = hasPolicy p.
Proof.
  induction n as [|n IH]; intros p p' r E; simpl in E.
  - injection E as _ <-. auto.
  - destruct (moves p !! curMove p) as [m|].
    + destruct (_ && _).
      * injection E as _ <-. auto.
      * apply IH in E. exact E.
    + injection E as _ <-. auto.
Qed.

Lemma sort_and_stream_buffer (p : MovePicker) :
  curMove p = 0 ->
  let p' := snd (sort_and_stream MAX_MOVES p) in
  moves p' = fastPartialSort MAX_MOVES (moves p) 0
  /\ maxPolicyScore p' = maxPolicyScore p.
Proof.
  intros Hc p'. unfold p', sort_and_stream. rewrite Hc, take_0, drop_0. simpl.
  destruct (stage_ALLMOVES _) as [r q'] eqn:E. simpl.
  destruct (stage_ALLMOVES_spec _ q' r E) as (_ & _ & Hmv & _).
  split; [exact Hmv|].
  apply (pickLoop_keeps_policy _ _ q' r E).
Qed.

(** X11: after a stage that scores, a buffer of at most
    [2 * MAX_MOVES / 3] moves is partially sorted at threshold 0: the moves of
    score 0 or more come first, in descending score order, the negative ones
    behind them. *)
Theorem scored_stage_leaves_sorted_buffer (p : MovePicker) :
  is_scored_stage (stage p) ->
  length (moves (snd (call p))) <= MAX_MOVES * 2 / 3 ->
  partially_sorted 0 (moves (snd (call p))).
Proof.
  intros Hs Hlen.
  destruct (scored_stage_call p Hs) as (T & gen & E & _).
  rewrite E in Hlen |- *.
  set (sp := scoreMoves Score_lowest T (set_buffer 0 gen p)) in *.
  assert (Hc : curMove sp = 0).
  { destruct (scoreMoves_keeps Score_lowest T (set_buffer 0 gen p))
      as (_ & _ & _ & _ & Hc & _). exact Hc. }
  destruct (sort_and_stream_buffer sp Hc) as [Hmv _].
  rewrite Hmv in Hlen |- *.
  apply fastPartialSort_short.
  rewrite (Permutation_length (fastPartialSort_perm MAX_MOVES 0 (moves sp))). exact Hlen.
Qed.

Lemma after_add (a d : nat) :
  forall p, after_ (a + d) p = after_ d (after_ a p).
Proof.
  induction a as [|a IH]; intros p; [reflexivity|].
  change (after_ (S a + d) p) with (after_ (a + d) (snd (call p))).
  rewrite IH. reflexivity.
Qed.

(** A call at [ALLMOVES] that yields a position has passed a buffer move,
    whose scores it records. *)
Lemma ALLMOVES_yield_index (q : MovePicker) (n : nat) :
  stage q = ALLMOVES -> yield_ n q <> NONE ->
  exists m,
    moves q !! (curMove (after_ (S n) q) - 1) = Some m
    /\ curMove (after_ n q) < curMove (after_ (S n) q)
    /\ yield_ n q = pos m
    /\ curScore (after_ (S n) q) = Some (score m)
    /\ curPolicyScore (after_ (S n) q) = Some (rawScore m).
Proof.
  intros Hs Hy. destruct (ALLMOVES_stable n q Hs) as (Hsn & Hmn & _).
  rewrite (after_calls_S MAX_MOVES Score_lowest). unfold yield in *.
  rewrite (call_ALLMOVES MAX_MOVES Score_lowest _ Hsn) in Hy |- *.
  destruct (stage_ALLMOVES (after_ n q)) as [r q'] eqn:E. simpl in *.
  destruct (stage_ALLMOVES_spec _ q' r E)
    as (_ & _ & _ & _ & [(-> & _)|(m & Hm & Hlt & -> & _ & H1 & H2)]); [congruence|].
  exists m. rewrite <- Hmn. auto.
Qed.

Lemma ALLMOVES_cursor_mono (q : MovePicker) (a b : nat) :
  stage q = ALLMOVES -> a <= b -> curMove (after_ a q) <= curMove (after_ b q).
Proof.
  intros Hs Hab. replace b with (a + (b - a)) by lia. rewrite after_add.
  destruct (ALLMOVES_stable a q Hs) as (Hsa & _).
  destruct (ALLMOVES_stable (b - a) (after_ a q) Hsa) as (_ & _ & _ & H). exact H.
Qed.

(** X12: over a buffer that is partially sorted at [limit], the calls at
    [ALLMOVES] yield in descending order of score as long as the scores
    reach the limit: of two yields, the later one, when its score is at
    least [limit], does not score higher than the earlier one. *)
Theorem yields_descend_above_limit (q : MovePicker) (limit : Score) (i j : nat) :
  stage q = ALLMOVES -> partially_sorted limit (moves q) -> i < j ->
  yield_ i q <> NONE -> yield_ j q <> NONE ->
  exists si sj,
    curMoveScore (after_ (S i) q) = Some si
    /\ curMoveScore (after_ (S j) q) = Some sj
    /\ ((limit <= sj)%Z -> (sj <= si)%Z).
Proof.
  intros Hs Hps Hij Hi Hj.
  destruct (ALLMOVES_yield_index q i Hs Hi) as (mi & Hmi & Hci & _ & Hsi & _).
  destruct (ALLMOVES_yield_index q j Hs Hj) as (mj & Hmj & Hcj & _ & Hsj & _).
  exists (score mi), (score mj). split; [exact Hsi|]. split; [exact Hsj|].
  intros Hge.
  pose proof (ALLMOVES_cursor_mono q (S i) j Hs ltac:(lia)) as Hmono.
  apply (partially_sorted_order limit (moves q)
           (curMove (after_ (S i) q) - 1) (curMove (after_ (S j) q) - 1) mi mj);
    auto. lia.
Qed.

Lemma scoreMoves_policy_max (Type_ : Z) (p : MovePicker) (ev : Evaluator) :
  has Type_ POLICY = true -> evaluator (board p) = Some ev ->
  let sp := scoreMoves Score_lowest Type_ p in
  hasPolicy sp = true
  /\ exists mx,
       maxPolicyScore sp = Some mx
       /\ forall m, m ∈ drop (curMove p) (moves sp) -> (rawScore m <= mx)%Z.
Proof.
  intros Hflag Hev sp.
  pose proof (scoreMoves_range Type_ p) as Hrange. fold sp in Hrange.
  assert (Hbuf : policyBuffer Type_ p
                 = Some (evaluatePolicy ev (map pos (drop (curMove p) (moves p))))).
  { unfold policyBuffer. rewrite Hflag, Hev. reflexivity. }
  assert (Hmax : maxPolicyScore sp
                 = Some (foldl Z.max (Score_lowest ÷ 2)%Z
                           (map rawScore (drop (curMove p) (moves sp))))
                 /\ hasPolicy sp = true).
  { rewrite Hrange. unfold sp, scoreMoves. rewrite Hbuf. split; reflexivity. }
  destruct Hmax as [Hmax Hhas]. split; [exact Hhas|].
  eexists. split; [exact Hmax|]. intros m Hm.
  apply (foldl_max_spec _ (Score_lowest ÷ 2)%Z). apply list_elem_of_fmap. eauto.
Qed.

Lemma ALLMOVES_keeps_policy (n : nat) :
  forall q,
    stage q = ALLMOVES ->
    maxPolicyScore (after_ n q) = maxPolicyScore q
    /\ hasPolicy (after_ n q) = hasPolicy q.
Proof.
  induction n as [|n IH]; intros q Hs; [auto|].
  change (after_ (S n) q) with (after_ n (snd (call q))).
  rewrite (call_ALLMOVES MAX_MOVES Score_lowest q Hs).
  destruct (stage_ALLMOVES q) as [r q'] eqn:E. simpl.
  destruct (stage_ALLMOVES_spec q q' r E) as (_ & Hst & _).
  destruct (pickLoop_keeps_policy _ q q' r E) as [H1 H2].
  destruct (IH q') as [H3 H4]; [congruence|]. split; congruence.
Qed.

(** The raw scores and the maximum the scorer leaves lie where the
    policies of the evaluator lie. *)
Lemma scoreMoves_policy_range (Type_ : Z) (p : MovePicker) (ev : Evaluator) (lo hi : Z) :
  has Type_ POLICY = true -> evaluator (board p) = Some ev ->
  (forall l x, (lo <= evaluatePolicy ev l x < hi)%Z) ->
  let sp := scoreMoves Score_lowest Type_ p in
  forall m, m ∈ drop (curMove p) (moves sp) ->
    (lo <= rawScore m < hi)%Z
    /\ exists mx,
         maxPolicyScore sp = Some mx /\ (rawScore m <= mx)%Z
         /\ (mx = (Score_lowest ÷ 2)%Z \/ (lo <= mx < hi)%Z).
Proof.
  intros Hflag Hev Hpol sp m Hm.
  pose proof (scoreMoves_range Type_ p) as Hrange. fold sp in Hrange.
  assert (Hbuf : policyBuffer Type_ p
                 = Some (evaluatePolicy ev (map pos (drop (curMove p) (moves p))))).
  { unfold policyBuffer. rewrite Hflag, Hev. reflexivity. }
  assert (Hraw : forall x, x ∈ drop (curMove p) (moves sp) -> (lo <= rawScore x < hi)%Z).
  { intros x Hx. rewrite Hrange, Hbuf in Hx.
    apply list_elem_of_fmap in Hx as (m0 & -> & _).
    rewrite scoreMove_rawScore. simpl. apply Hpol. }
  assert (Hmax : maxPolicyScore sp
                 = Some (foldl Z.max (Score_lowest ÷ 2)%Z
                           (map rawScore (drop (curMove p) (moves sp))))).
  { rewrite Hrange. unfold sp, scoreMoves. rewrite Hbuf. reflexivity. }
  destruct (foldl_max_spec (map rawScore (drop (curMove p) (moves sp)))
              (Score_lowest ÷ 2)%Z) as (_ & H2 & H3).
  split; [apply Hraw, Hm|].
  eexists. split; [exact Hmax|]. split.
  - apply H2. apply list_elem_of_fmap. eauto.
  - destruct H3 as [H3|H3]; [left; exact H3|]. right.
    apply list_elem_of_fmap in H3 as (x & -> & Hx). apply Hraw, Hx.
Qed.

(** X13: the policy difference is never negative.  On a board whose
    evaluator gives policies between [lowest / 2] and [- lowest / 2 - 1],
    from a stage that scores with [POLICY] on, every call that yields a
    position leaves [hasPolicyScore] set, and [curMovePolicyDiff] returns
    the exact difference of [maxMovePolicy] and [curMovePolicy], which
    fits [Score] and is at least 0. *)
Theorem policy_diff_nonnegative (p : MovePicker) (ev : Evaluator) (n : nat) :
  is_policy_stage (stage p) -> evaluator (board p) = Some ev ->
  (forall l x,
     (Score_lowest ÷ 2 <= evaluatePolicy ev l x < - (Score_lowest ÷ 2))%Z) ->
  yield_ n p <> NONE ->
  hasPolicyScore (after_ (S n) p) = true
  /\ exists mx c,
       maxMovePolicy (after_ (S n) p) = Some mx
       /\ curMovePolicy (after_ (S n) p) = Some c
       /\ curMovePolicyDiff Score_lowest (after_ (S n) p) = Some (mx - c)%Z
       /\ (0 <= mx - c)%Z /\ fits_Score Score_lowest (mx - c).
Proof.
  intros Hs Hev Hpol Hy.
  assert (Hsc : is_scored_stage (stage p)).
  { unfold is_scored_stage. destruct Hs as [H|[H|H]]; auto. }
  destruct (scored_stage_call p Hsc) as (T & gen & E & Hflag).
  specialize (Hflag Hs).
  set (sp := scoreMoves Score_lowest T (set_buffer 0 gen p)) in *.
  destruct (scoreMoves_policy_max T (set_buffer 0 gen p) ev Hflag Hev)
    as (Hhas & _).
  fold sp in Hhas.
  pose proof (scoreMoves_policy_range T (set_buffer 0 gen p) ev _ _ Hflag Hev Hpol)
    as Hrange.
  cbv zeta in Hrange. fold sp in Hrange.
  change (curMove (set_buffer 0 gen p)) with 0 in Hrange. rewrite drop_0 in Hrange.
  assert (Hc : curMove sp = 0).
  { destruct (scoreMoves_keeps Score_lowest T (set_buffer 0 gen p))
      as (_ & _ & _ & _ & Hc & _). exact Hc. }
  set (q := set_stage ALLMOVES
              (set_buffer 0 (fastPartialSort MAX_MOVES (moves sp) 0) sp)).
  assert (Eq : call p = call q).
  { rewrite E, (call_ALLMOVES MAX_MOVES Score_lowest q eq_refl).
    unfold sort_and_stream. rewrite Hc, take_0, drop_0. reflexivity. }
  assert (Hafter : after_ (S n) p = after_ (S n) q).
  { change (after_ (S n) p) with (after_ n (snd (call p))). rewrite Eq. reflexivity. }
  rewrite (yield_congr MAX_MOVES Score_lowest p q Eq) in Hy. rewrite Hafter.
  destruct (ALLMOVES_yield_index q n eq_refl Hy) as (m & Hm & _ & _ & _ & Hcp).
  destruct (ALLMOVES_keeps_policy (S n) q eq_refl) as [Hk1 Hk2].
  split; [unfold hasPolicyScore; rewrite Hk2; exact Hhas|].
  assert (Hin : m ∈ moves sp).
  { apply (list_elem_of_lookup_2 _ _ _) in Hm. simpl in Hm.
    rewrite <- (fastPartialSort_perm MAX_MOVES 0 (moves sp)) in Hm. exact Hm. }
  destruct (Hrange m Hin) as (Hraw & mx & Hmx & Hle & Hmxr).
  pose proof (Z.quot_rem' Score_lowest 2) as Hqr.
  pose proof (Z.rem_bound_abs Score_lowest 2 ltac:(lia)) as Hra.
  assert (Hfit : (0 <= mx - rawScore m)%Z /\ fits_Score Score_lowest (mx - rawScore m)).
  { unfold fits_Score. clear - Hraw Hle Hmxr Hqr Hra.
    assert (Hl : (Score_lowest <= 0)%Z).
    { set (q := (Score_lowest ÷ 2)%Z) in *. set (r := Z.rem Score_lowest 2) in *.
      clearbody q r. lia. }
    pose proof (Z.rem_nonpos Score_lowest 2 ltac:(lia) Hl) as Hr.
    set (q := (Score_lowest ÷ 2)%Z) in *. set (r := Z.rem Score_lowest 2) in *.
    clearbody q r. lia. }
  exists mx, (rawScore m).
  split; [unfold maxMovePolicy; rewrite Hk1; exact Hmx|].
  split; [exact Hcp|]. split; [|exact Hfit].
  unfold curMovePolicyDiff. rewrite Hk1, Hcp.
  change (maxPolicyScore q) with (maxPolicyScore sp). rewrite Hmx.
  rewrite to_Score_fits by apply Hfit. reflexivity.
Qed.

End MoreStreaming.

(** * Further properties of the partial sorter *)

Lemma insertion_view_below (limit : Score) (rest : list Move) :
  forall pre mid,
    Forall (fun m => (score m < limit)%Z) rest ->
    insertion_view limit pre mid rest = pre ++ mid ++ rest.
Proof.
  induction rest as [|x rest IH]; intros pre mid Hlo; simpl.
  - rewrite app_nil_r. reflexivity.
  - apply Forall_cons in Hlo as [Hx Hlo]. apply Z.leb_gt in Hx. rewrite Hx.
    rewrite IH by exact Hlo. rewrite <- app_assoc. reflexivity.
Qed.

Lemma insert_back_at_end (tmp : Move) (pre : list Move) :
  Forall (fun x => (score tmp <= score x)%Z) pre ->
  insert_back tmp pre = pre ++ [tmp].
Proof.
  intros H. destruct pre as [|x0 pre0] using rev_ind; [reflexivity|].
  rewrite insert_back_snoc. apply Forall_app in H as [_ H].
  apply Forall_cons in H as [H _]. apply Move_lt_false in H. rewrite H.
  rewrite <- app_assoc. reflexivity.
Qed.

Lemma insertion_view_sorted (limit : Score) (hi : list Move) :
  forall pre lo,
    desc_sorted (pre ++ hi) ->
    Forall (fun m => (limit <= score m)%Z) hi ->
    Forall (fun m => (score m < limit)%Z) lo ->
    insertion_view limit pre [] (hi ++ lo) = pre ++ hi ++ lo.
Proof.
  induction hi as [|t hi IH]; intros pre lo Hs Hhi Hlo.
  - simpl. apply (insertion_view_below limit lo pre [] Hlo).
  - apply Forall_cons in Hhi as [Ht Hhi]. simpl.
    apply Z.leb_le in Ht. rewrite Ht.
    rewrite insert_back_at_end.
    + simpl. rewrite IH; auto.
      * rewrite <- app_assoc. reflexivity.
      * rewrite <- app_assoc. exact Hs.
    + apply StronglySorted_app in Hs as (Hle & _ & _).
      apply Forall_forall. intros x Hx. apply (Hle x t Hx). apply elem_of_cons. auto.
Qed.

(** X14: sorting a sorted buffer changes nothing.  The insertion branch
    leaves a range that is already partially sorted at the limit exactly as
    it is, moves of equal score included; so [fastPartialSort] is the
    identity on such a range of at most [MAX_MOVES / 4] moves, and the
    insertion branch applied twice is the insertion branch applied once. *)
Theorem partial_insertion_sort_fixes_sorted (MAX_MOVES : nat) (limit : Score)
    (l : list Move) :
  (partially_sorted limit l -> partial_insertion_sort limit l = l)
  /\ (partially_sorted limit l -> length l <= MAX_MOVES / 4 ->
      fastPartialSort MAX_MOVES l limit = l)
  /\ partial_insertion_sort limit (partial_insertion_sort limit l)
     = partial_insertion_sort limit l.
Proof.
  assert (Hfix : forall l0, partially_sorted limit l0 ->
                            partial_insertion_sort limit l0 = l0).
  { intros l0 (hi & lo & -> & Hs & Hhi & Hlo).
    destruct hi as [|x hi].
    - destruct lo as [|x lo]; [reflexivity|]. simpl app.
      rewrite partial_insertion_sort_view.
      apply Forall_cons in Hlo as [_ Hlo].
      apply (insertion_view_below limit lo [x] [] Hlo).
    - simpl app. rewrite partial_insertion_sort_view.
      apply Forall_cons in Hhi as [_ Hhi].
      apply (insertion_view_sorted limit hi [x] lo); auto. }
  split; [apply Hfix|]. split.
  - intros Hps Hlen. unfold fastPartialSort.
    apply Nat.leb_le in Hlen. rewrite Hlen. apply Hfix, Hps.
  - apply Hfix. apply partial_insertion_sort_spec.
Qed.

(** X15: what the two library branches leave.  A range longer than
    [MAX_MOVES / 4] and of at most [2 * MAX_MOVES / 3] moves comes out in
    descending score order as a whole.  Of a longer range the first
    [2 * MAX_MOVES / 3] moves come out in descending order and none of the
    moves behind them scores higher than any of them.  In both cases the
    range is reordered, nothing is lost or added. *)
Theorem fastPartialSort_library_branches (MAX_MOVES : nat) (limit : Score)
    (l : list Move) :
  let r := fastPartialSort MAX_MOVES l limit in
  (MAX_MOVES / 4 < length l -> length l <= MAX_MOVES * 2 / 3 ->
   desc_sorted r /\ Permutation l r)
  /\ (MAX_MOVES * 2 / 3 < length l ->
      exists h t,
        r = h ++ t /\ length h = MAX_MOVES * 2 / 3 /\ desc_sorted h
        /\ (forall a b, a ∈ h -> b ∈ t -> (score b <= score a)%Z)
        /\ Permutation l (h ++ t)).
Proof.
  intros r. split.
  - intros H4 Hlen. unfold r, fastPartialSort.
    destruct (Nat.leb_spec (length l) (MAX_MOVES / 4)); [lia|].
    destruct (Nat.leb_spec (length l) (MAX_MOVES * 2 / 3)); [|lia].
    split; [apply std_sort_sorted | symmetry; apply std_sort_perm].
  - intros Hlen.
    destruct (fastPartialSort_long MAX_MOVES limit l Hlen) as (h & t & E & Hh & Hs & Ht).
    exists h, t. fold r in E. repeat split; auto.
    + intros a b Ha Hb. apply (Ht b Hb a Ha).
    + rewrite <- E. apply fastPartialSort_perm.
Qed.

(** * The [Best] pick *)



(** The loop for a predicate without state is the general loop. *)
Lemma pickLoop_Pred_stateless (T : PickType) (filter : unit -> bool) (n : nat) :
  forall p,
    pickLoop_Pred T (fun u : unit => (filter u, u)) n p tt
    = (pickLoop T filter n p, tt).
Proof.
  induction n as [|n IH]; intros p; [reflexivity|].
  cbn [pickLoop_Pred pickLoop]. cbv zeta.
  destruct (moves _ !! curMove _) as [m|]; [|reflexivity].
  destruct (negb (Pos_eqb (pos m) (ttMove _)) && _) eqn:E.
  - rewrite andb_true_l. destruct (filter tt); [reflexivity|]. apply IH.
  - rewrite andb_false_l. apply IH.
Qed.


(** * The dataset readers *)

Lemma bit_of_testbit (byte : Z) (i : nat) :
  i < 8 -> Dataset.bit_of byte i = Z.b2z (Z.testbit byte (7 - Z.of_nat i)).
Proof.
  intros Hi. unfold Dataset.bit_of.
  change 1%Z with (Z.ones 1). rewrite Z.land_ones by lia.
  change (2 ^ 1)%Z with 2%Z. rewrite <- Z.bit0_mod.
  rewrite Z.shiftr_spec by lia. reflexivity.
Qed.

Lemma unpack_byte_length (byte : Z) (n : nat) :
  length (Dataset.unpack_byte byte n) = n.
Proof. unfold Dataset.unpack_byte. rewrite length_map, length_seq. reflexivity. Qed.

Lemma unpack_byte_lookup (byte : Z) (n k : nat) :
  k < n -> Dataset.unpack_byte byte n !! k = Some (Dataset.bit_of byte k).
Proof.
  intros Hk. unfold Dataset.unpack_byte.
  rewrite list_lookup_fmap, lookup_seq_lt by lia. reflexivity.
Qed.

Lemma unpack_whole_Some (n : nat) (bytes : list Z) :
  n <= length bytes ->
  exists bits,
    Dataset.unpack_whole n bytes = Some (bits, drop n bytes)
    /\ length bits = 8 * n
    /\ forall k, k < 8 * n ->
         exists byte, bytes !! (k / 8) = Some byte
                      /\ bits !! k = Some (Dataset.bit_of byte (k mod 8)).
Proof.
  revert bytes. induction n as [|n IH]; intros bytes Hn.
  - exists []. simpl. repeat split; try reflexivity. intros k Hk. lia.
  - destruct bytes as [|byte bytes]; [simpl in Hn; lia|].
    simpl in Hn. destruct (IH bytes ltac:(lia)) as (bits & He & Hl & Hb).
    exists (Dataset.unpack_byte byte 8 ++ bits). simpl Dataset.unpack_whole.
    rewrite He. split; [reflexivity|]. split.
    + rewrite length_app, unpack_byte_length. lia.
    + intros k Hk. destruct (Nat.lt_ge_cases k 8) as [Hlt|Hge].
      * exists byte. rewrite Nat.div_small, Nat.mod_small by lia.
        split; [reflexivity|].
        rewrite lookup_app_l by (rewrite unpack_byte_length; lia).
        apply unpack_byte_lookup; lia.
      * destruct (Hb (k - 8) ltac:(lia)) as (b & Hb1 & Hb2).
        exists b.
        assert (Hd : k / 8 = S ((k - 8) / 8)).
        { replace k with ((k - 8) + 1 * 8) at 1 by lia.
          rewrite Nat.div_add by lia. lia. }
        assert (Hm : k mod 8 = (k - 8) mod 8).
        { replace k with ((k - 8) + 1 * 8) at 1 by lia.
          rewrite Nat.Div0.mod_add. reflexivity. }
        rewrite Hd, Hm. split; [exact Hb1|].
        rewrite lookup_app_r by (rewrite unpack_byte_length; lia).
        rewrite unpack_byte_length. exact Hb2.
Qed.

Lemma unpack_whole_None (n : nat) (bytes : list Z) :
  length bytes < n -> Dataset.unpack_whole n bytes = None.
Proof.
  revert bytes. induction n as [|n IH]; intros bytes Hn; [lia|].
  destruct bytes as [|byte bytes]; [reflexivity|].
  simpl in *. rewrite IH by lia. reflexivity.
Qed.

(** X17: [unpackBytesToBits] writes [numBits] bits, each 0 or 1, and bit
    [k] is bit [7 - k mod 8] of byte [k / 8]: the most significant bit of
    a byte comes first. *)
Theorem unpackBytesToBits_big_endian (bytes : list Z) (numBits : nat) (bits : list Z) :
  Dataset.unpackBytesToBits bytes numBits = Some bits ->
  length bits = numBits
  /\ forall k, k < numBits ->
       exists byte,
         bytes !! (k / 8) = Some byte
         /\ bits !! k = Some (Z.b2z (Z.testbit byte (7 - Z.of_nat (k mod 8)))).
Proof.
  unfold Dataset.unpackBytesToBits.
  pose proof (Nat.div_mod_eq numBits 8) as Hdm.
  pose proof (Nat.mod_upper_bound numBits 8 ltac:(lia)) as Hmb.
  set (d := numBits / 8) in *. set (r := numBits mod 8) in *.
  clearbody d r. cbv zeta. intros H.
  destruct (Nat.le_gt_cases d (length bytes)) as [Hle|Hgt].
  2: { rewrite unpack_whole_None in H by lia. discriminate. }
  destruct (unpack_whole_Some _ _ Hle) as (whole & He & Hl & Hb).
  rewrite He in H.
  destruct (drop d bytes) as [|byte rest] eqn:Hd; [discriminate|].
  injection H as <-. split.
  - rewrite length_app, unpack_byte_length, Hl. lia.
  - intros k Hk. destruct (Nat.lt_ge_cases k (8 * d)) as [Hlt|Hge].
    + destruct (Hb k Hlt) as (b & Hb1 & Hb2). exists b. split; [exact Hb1|].
      rewrite lookup_app_l by (rewrite Hl; lia). rewrite Hb2. f_equal.
      apply bit_of_testbit. apply Nat.mod_upper_bound. lia.
    + assert (Hkd : k / 8 = d).
      { symmetry. apply (Nat.div_unique k 8 d (k - 8 * d)); lia. }
      assert (Hkm : k mod 8 = k - 8 * d).
      { symmetry. apply (Nat.mod_unique k 8 d); lia. }
      exists byte. split.
      * rewrite Hkd. rewrite <- (Nat.add_0_r d).
        rewrite <- lookup_drop, Hd. reflexivity.
      * rewrite lookup_app_r by (rewrite Hl; lia). rewrite Hl, <- Hkm.
        rewrite unpack_byte_lookup by lia. f_equal.
        apply bit_of_testbit. lia.
Qed.

(** X18: [unpackBytesToBits] completes exactly when [bytes] holds more than
    [numBits / 8] bytes: it reads byte [numBits / 8] also when [numBits] is
    a multiple of 8 and no bit of that byte is written. *)
Theorem unpackBytesToBits_reads_one_byte_more (bytes : list Z) (numBits : nat) :
  (Dataset.unpackBytesToBits bytes numBits <> None <-> numBits / 8 < length bytes)
  /\ (numBits mod 8 = 0 -> length bytes = numBits / 8 ->
      Dataset.unpackBytesToBits bytes numBits = None).
Proof.
  assert (Hiff : Dataset.unpackBytesToBits bytes numBits <> None
                 <-> numBits / 8 < length bytes).
  { unfold Dataset.unpackBytesToBits.
    destruct (Nat.le_gt_cases (numBits / 8) (length bytes)) as [Hle|Hgt].
    - destruct (unpack_whole_Some _ _ Hle) as (whole & He & _). rewrite He.
      destruct (drop (numBits / 8) bytes) as [|byte rest] eqn:Hd.
      + apply (f_equal length) in Hd. rewrite length_drop in Hd. cbn [length] in Hd.
        split; [congruence|lia].
      + apply (f_equal length) in Hd. rewrite length_drop in Hd. cbn [length] in Hd.
        split; [lia|discriminate].
    - rewrite unpack_whole_None by lia. split; [congruence|lia]. }
  split; [exact Hiff|].
  intros _ Hlen. destruct (Dataset.unpackBytesToBits bytes numBits) eqn:E; [|reflexivity].
  exfalso. assert (numBits / 8 < length bytes) by (apply Hiff; congruence). lia.
Qed.

Lemma split_colors_stones (bs i : nat) (a : list (option Color)) :
  Dataset.split_colors bs i a
  = (map (Dataset.pos_of_index bs) (Dataset.stones_of BLACK i a),
     map (Dataset.pos_of_index bs) (Dataset.stones_of WHITE i a)).
Proof.
  revert i. induction a as [|c a IH]; intros i; [reflexivity|].
  cbn [Dataset.split_colors Dataset.stones_of]. rewrite IH.
  destruct c as [[|]|]; reflexivity.
Qed.

Lemma interleave_length (n : nat) (bl wh : list Pos) :
  n <= length bl -> n <= length wh ->
  length (Dataset.interleave n bl wh) = 2 * n.
Proof.
  revert bl wh. induction n as [|n IH]; intros bl wh Hb Hw; [reflexivity|].
  destruct bl as [|b bl]; [simpl in Hb; lia|].
  destruct wh as [|w wh]; [simpl in Hw; lia|].
  cbn [Dataset.interleave length]. simpl in Hb, Hw. rewrite IH by lia. lia.
Qed.

Lemma interleave_lookup (n : nat) (bl wh : list Pos) (k : nat) :
  n <= length bl -> n <= length wh -> k < n ->
  Dataset.interleave n bl wh !! (2 * k) = bl !! k
  /\ Dataset.interleave n bl wh !! (2 * k + 1) = wh !! k.
Proof.
  revert bl wh k. induction n as [|n IH]; intros bl wh k Hb Hw Hk; [lia|].
  destruct bl as [|b bl]; [simpl in Hb; lia|].
  destruct wh as [|w wh]; [simpl in Hw; lia|].
  cbn [Dataset.interleave]. simpl in Hb, Hw.
  destruct k as [|k]; [split; reflexivity|].
  replace (2 * S k) with (S (S (2 * k))) by lia.
  replace (S (S (2 * k)) + 1) with (S (S (2 * k + 1))) by lia.
  cbn [lookup list_lookup]. apply IH; lia.
Qed.

Lemma interleave_Permutation (n : nat) (bl wh : list Pos) :
  n <= length bl -> n <= length wh ->
  Permutation (Dataset.interleave n bl wh) (take n bl ++ take n wh).
Proof.
  revert bl wh. induction n as [|n IH]; intros bl wh Hb Hw; [reflexivity|].
  destruct bl as [|b bl]; [simpl in Hb; lia|].
  destruct wh as [|w wh]; [simpl in Hw; lia|].
  cbn [Dataset.interleave take]. simpl in Hb, Hw.
  rewrite (IH bl wh) by lia.
  change ((b :: take n bl) ++ w :: take n wh)
    with (b :: (take n bl ++ w :: take n wh)).
  constructor. apply Permutation_middle.
Qed.

(** The sequence in terms of the two colour lists. *)
Lemma boardArrayToPosSequence_unfold (a : list (option Color)) (bs : nat) :
  let bl := map (Dataset.pos_of_index bs) (Dataset.stones_of BLACK 0 a) in
  let wh := map (Dataset.pos_of_index bs) (Dataset.stones_of WHITE 0 a) in
  let n := Nat.min (length bl) (length wh) in
  Dataset.boardArrayToPosSequence a bs
  = Dataset.interleave n bl wh
    ++ (if length wh <? length bl then take 1 (drop n bl) else []).
Proof.
  intros bl wh n. unfold Dataset.boardArrayToPosSequence.
  rewrite split_colors_stones. fold bl wh n. f_equal.
  destruct (Nat.ltb_spec n (length bl)) as [H1|H1];
    destruct (Nat.ltb_spec (length wh) (length bl)) as [H2|H2]; try lia.
  - destruct (lookup_lt_is_Some_2 bl n H1) as [b Hb]. rewrite Hb.
    rewrite (drop_S _ _ _ Hb). reflexivity.
  - reflexivity.
Qed.

(** X19: the sequence alternates the two colours, black first: its element
    [2k] is the [k]-th black stone and its element [2k+1] the [k]-th white
    stone, both counted in cell order; it holds as many pairs as the
    colour with fewer stones has stones, and one more black stone when
    Black has more. *)
Theorem boardArrayToPosSequence_alternates (a : list (option Color)) (bs : nat) :
  0 < bs ->
  let bl := map (Dataset.pos_of_index bs) (Dataset.stones_of BLACK 0 a) in
  let wh := map (Dataset.pos_of_index bs) (Dataset.stones_of WHITE 0 a) in
  let s := Dataset.boardArrayToPosSequence a bs in
  length s = 2 * Nat.min (length bl) (length wh)
             + (if length wh <? length bl then 1 else 0)
  /\ (forall k, 2 * k < length s -> s !! (2 * k) = bl !! k)
  /\ (forall k, 2 * k + 1 < length s -> s !! (2 * k + 1) = wh !! k).
Proof.
  intros _ bl wh s.
  pose proof (boardArrayToPosSequence_unfold a bs) as Hu. cbv zeta in Hu.
  fold bl wh s in Hu.
  set (n := Nat.min (length bl) (length wh)) in *.
  assert (Hnb : n <= length bl) by (unfold n; lia).
  assert (Hnw : n <= length wh) by (unfold n; lia).
  pose proof (interleave_length n bl wh Hnb Hnw) as Hil.
  assert (Hlen : length s = 2 * n + (if length wh <? length bl then 1 else 0)).
  { rewrite Hu, length_app, Hil. f_equal.
    destruct (Nat.ltb_spec (length wh) (length bl)) as [H|H]; [|reflexivity].
    rewrite length_take, length_drop. unfold n. lia. }
  split; [exact Hlen|]. split.
  - intros k Hk. rewrite Hu.
    destruct (Nat.lt_ge_cases k n) as [Hlt|Hge].
    + rewrite lookup_app_l by lia.
      apply (interleave_lookup n bl wh k Hnb Hnw Hlt).
    + destruct (Nat.ltb_spec (length wh) (length bl)) as [H|H]; [|lia].
      assert (k = n) as -> by lia.
      rewrite lookup_app_r by lia. rewrite Hil, Nat.sub_diag.
      rewrite lookup_take_lt by lia. rewrite lookup_drop. f_equal. lia.
  - intros k Hk. rewrite Hu.
    assert (Hlt : k < n).
    { destruct (length wh <? length bl); lia. }
    rewrite lookup_app_l by lia.
    apply (interleave_lookup n bl wh k Hnb Hnw Hlt).
Qed.

(** X20: the sequence holds every stone of the board exactly when Black has
    as many stones as White or one more; otherwise stones are left out
    (white stones also when White has more, which the assertion of the
    function does not exclude). *)
Theorem boardArrayToPosSequence_complete_iff (a : list (option Color)) (bs : nat) :
  0 < bs ->
  let bl := map (Dataset.pos_of_index bs) (Dataset.stones_of BLACK 0 a) in
  let wh := map (Dataset.pos_of_index bs) (Dataset.stones_of WHITE 0 a) in
  Permutation (Dataset.boardArrayToPosSequence a bs) (bl ++ wh)
  <-> length wh <= length bl <= length wh + 1.
Proof.
  intros Hbs bl wh.
  pose proof (boardArrayToPosSequence_alternates a bs Hbs) as (Hlen & _).
  fold bl wh in Hlen.
  pose proof (boardArrayToPosSequence_unfold a bs) as Hu. cbv zeta in Hu.
  fold bl wh in Hu.
  set (n := Nat.min (length bl) (length wh)) in *.
  split.
  - intros HP. apply Permutation_length in HP.
    rewrite Hlen, length_app in HP.
    destruct (Nat.ltb_spec (length wh) (length bl)); unfold n in HP; lia.
  - intros [H1 H2]. rewrite Hu.
    rewrite interleave_Permutation by (unfold n; lia).
    destruct (Nat.ltb_spec (length wh) (length bl)) as [H|H].
    + assert (Hn : n = length wh) by (unfold n; lia).
      rewrite Hn. rewrite (take_ge wh) by lia.
      rewrite <- app_assoc. rewrite (Permutation_app_comm wh).
      rewrite app_assoc. apply Permutation_app; [|reflexivity].
      rewrite (take_ge (drop (length wh) bl)) by (rewrite length_drop; lia).
      rewrite take_drop. reflexivity.
    + assert (Hn : n = length bl) by (unfold n; lia).
      rewrite app_nil_r, Hn.
      rewrite (take_ge bl) by lia. rewrite (take_ge wh) by lia. reflexivity.
Qed.

Lemma stones_of_elem (c : Color) (i : nat) (a : list (option Color)) (j : nat) :
  j ∈ Dataset.stones_of c i a <-> i <= j /\ a !! (j - i) = Some (Some c).
Proof.
  revert i. induction a as [|x a IH]; intros i.
  - simpl. split; [intros H; inversion H|intros [_ H]; discriminate].
  - cbn [Dataset.stones_of].
    assert (Hrest : j ∈ Dataset.stones_of c (S i) a
                    <-> i < j /\ (x :: a) !! (j - i) = Some (Some c)).
    { rewrite IH. split.
      - intros [H1 H2]. split; [lia|].
        replace (j - i) with (S (j - S i)) by lia. exact H2.
      - intros [H1 H2]. split; [lia|].
        replace (j - i) with (S (j - S i)) in H2 by lia. exact H2. }
    destruct (bool_decide_reflect (x = Some c)) as [Hx|Hx].
    + rewrite elem_of_cons, Hrest. split.
      * intros [->|[H1 H2]]; [|split; [lia|exact H2]].
        split; [lia|]. rewrite Nat.sub_diag. simpl. congruence.
      * intros [H1 H2]. destruct (Nat.eq_dec j i) as [->|Hne]; [left; reflexivity|].
        right. split; [lia|exact H2].
    + rewrite Hrest. split.
      * intros [H1 H2]. split; [lia|exact H2].
      * intros [H1 H2]. split; [|exact H2].
        destruct (Nat.eq_dec j i) as [->|Hne]; [|lia].
        rewrite Nat.sub_diag in H2. simpl in H2. congruence.
Qed.

Lemma stones_of_NoDup (c : Color) (i : nat) (a : list (option Color)) :
  NoDup (Dataset.stones_of c i a).
Proof.
  revert i. induction a as [|x a IH]; intros i; [constructor|].
  cbn [Dataset.stones_of]. destruct (bool_decide (x = Some c)); [|apply IH].
  constructor; [|apply IH].
  rewrite stones_of_elem. lia.
Qed.

Lemma pos_of_index_inj (bs i j : nat) :
  0 < bs -> Dataset.pos_of_index bs i = Dataset.pos_of_index bs j -> i = j.
Proof.
  unfold Dataset.pos_of_index. intros Hbs H. injection H as Hm Hd.
  apply Nat2Z.inj in Hm, Hd.
  rewrite (Nat.div_mod_eq i bs), (Nat.div_mod_eq j bs), Hm, Hd. reflexivity.
Qed.

(** Every element of the sequence is a stone of the board. *)
Lemma boardArrayToPosSequence_lookup (a : list (option Color)) (bs k : nat) (p : Pos) :
  0 < bs ->
  Dataset.boardArrayToPosSequence a bs !! k = Some p ->
  exists j,
    p = Dataset.pos_of_index bs j
    /\ Dataset.stones_of (if Nat.even k then BLACK else WHITE) 0 a !! (k / 2) = Some j
    /\ a !! j = Some (Some (if Nat.even k then BLACK else WHITE)).
Proof.
  intros Hbs Hk.
  pose proof (boardArrayToPosSequence_alternates a bs Hbs) as (_ & Hev & Hod).
  cbv zeta in Hev, Hod.
  pose proof (lookup_lt_Some _ _ _ Hk) as Hlt.
  assert (Hgen : forall c m,
            map (Dataset.pos_of_index bs) (Dataset.stones_of c 0 a) !! m = Some p ->
            exists j, p = Dataset.pos_of_index bs j
                      /\ Dataset.stones_of c 0 a !! m = Some j
                      /\ a !! j = Some (Some c)).
  { intros c m Hm. change (map ?f ?l) with (f <$> l) in Hm.
    rewrite list_lookup_fmap in Hm.
    destruct (Dataset.stones_of c 0 a !! m) as [j|] eqn:Hj; [|discriminate].
    injection Hm as <-. exists j. split; [reflexivity|]. split; [reflexivity|].
    apply list_elem_of_lookup_2 in Hj. apply stones_of_elem in Hj.
    destruct Hj as [_ Hj]. rewrite Nat.sub_0_r in Hj. exact Hj. }
  destruct (Nat.Even_or_Odd k) as [[m ->]|[m ->]].
  - rewrite Nat.even_even.
    replace (2 * m / 2) with m by (rewrite Nat.mul_comm, Nat.div_mul; lia).
    apply Hgen. rewrite <- Hev by exact Hlt. exact Hk.
  - rewrite Nat.even_odd.
    replace ((2 * m + 1) / 2) with m
      by (apply (Nat.div_unique _ 2 m 1); lia).
    apply Hgen. rewrite <- Hod by exact Hlt. exact Hk.
Qed.

(** X21: every position of the sequence is a stone of the board array, of
    the colour its place in the sequence gives it (black at the even
    places), with the column as first and the row as second coordinate,
    and no position occurs twice. *)
Theorem boardArrayToPosSequence_stones (a : list (option Color)) (bs : nat) :
  0 < bs ->
  let s := Dataset.boardArrayToPosSequence a bs in
  NoDup s
  /\ forall k p, s !! k = Some p ->
       exists x y : nat,
         p = At (Z.of_nat x) (Z.of_nat y)
         /\ x < bs
         /\ (length a <= bs * bs -> y < bs)
         /\ a !! (y * bs + x) = Some (Some (if Nat.even k then BLACK else WHITE)).
Proof.
  intros Hbs s. split.
  - apply NoDup_alt. intros i j p Hi Hj.
    destruct (boardArrayToPosSequence_lookup a bs i p Hbs Hi) as (ji & Hpi & Hsi & Hai).
    destruct (boardArrayToPosSequence_lookup a bs j p Hbs Hj) as (jj & Hpj & Hsj & Haj).
    assert (ji = jj) as <- by (apply (pos_of_index_inj bs); [exact Hbs|congruence]).
    assert (Hpar : Nat.even i = Nat.even j).
    { rewrite Hai in Haj. destruct (Nat.even i), (Nat.even j); congruence. }
    rewrite <- Hpar in Hsj.
    pose proof (stones_of_NoDup (if Nat.even i then BLACK else WHITE) 0 a) as Hnd.
    pose proof (proj1 (NoDup_alt _) Hnd _ _ _ Hsi Hsj) as Hhalf.
    pose proof (Nat.div_mod_eq i 2) as Hdi. pose proof (Nat.div_mod_eq j 2) as Hdj.
    assert (Hmod : i mod 2 = j mod 2).
    { destruct (Nat.Even_or_Odd i) as [[m Hm]|[m Hm]];
        destruct (Nat.Even_or_Odd j) as [[m' Hm']|[m' Hm']]; subst i j;
        rewrite ?Nat.even_even, ?Nat.even_odd in Hpar; try discriminate.
      - rewrite !(Nat.mul_comm 2), !Nat.Div0.mod_mul. reflexivity.
      - rewrite !(Nat.add_comm _ 1), !(Nat.mul_comm 2), !Nat.Div0.mod_add.
        reflexivity. }
    lia.
  - intros k p Hk.
    destruct (boardArrayToPosSequence_lookup a bs k p Hbs Hk) as (j & Hp & _ & Ha).
    exists (j mod bs), (j / bs). split; [exact Hp|].
    pose proof (Nat.div_mod_eq j bs) as Hdm.
    pose proof (Nat.mod_upper_bound j bs ltac:(lia)) as Hmb.
    split; [exact Hmb|]. split.
    + intros Hlen. pose proof (lookup_lt_Some _ _ _ Ha) as Hj.
      apply Nat.Div0.div_lt_upper_bound. lia.
    + replace (j / bs * bs + j mod bs) with j by lia. exact Ha.
Qed.

Lemma off_board_false (bs x y : Z) :
  Dataset.off_board bs x y = false <-> Dataset.on_board bs (At x y).
Proof. unfold Dataset.off_board, Dataset.on_board. lia. Qed.


Lemma read_moves_complete (bs : Z) (ws : list Z) (moved pos : list Pos) :
  Forall (Dataset.on_board bs) (map Dataset.word_pos ws) ->
  NoDup (map Dataset.word_pos ws) ->
  Forall (fun p => p ∉ moved) (map Dataset.word_pos ws) ->
  Dataset.read_moves bs ws moved pos
  = inr (rev (map Dataset.word_pos ws) ++ moved, pos ++ map Dataset.word_pos ws).
Proof.
  revert moved pos. induction ws as [|w ws IH]; intros moved pos Hob Hnd Hnm.
  - simpl. rewrite app_nil_r. reflexivity.
  - cbn [map] in *. inversion Hob as [|? ? Hw Hob']; subst.
    inversion Hnd as [|? ? Hnw Hnd']; subst.
    inversion Hnm as [|? ? Hwm Hnm']; subst.
    cbn [Dataset.read_moves]. cbv zeta.
    fold (Dataset.word_pos w).
    replace (Dataset.off_board bs (Dataset.coordX w) (Dataset.coordY w)) with false
      by (symmetry; apply off_board_false; exact Hw).
    rewrite bool_decide_eq_false_2 by exact Hwm.
    rewrite IH; [| exact Hob' | exact Hnd' |].
    + cbn [rev]. rewrite <- !app_assoc. reflexivity.
    + rewrite Forall_forall in Hnm'. apply Forall_forall. intros p Hp Hpm.
      apply elem_of_cons in Hpm as [-> | Hpm]; [exact (Hnw Hp)|exact (Hnm' _ Hp Hpm)].
Qed.

(** The bounds the widths of the bit fields give. *)
Lemma head_bits_spec (ehead : Dataset.EntryHead) :
  (0 <= Dataset.result ehead < 4)%Z /\ Dataset.ply ehead < 512
  /\ (0 <= Dataset.boardsize ehead < 32)%Z /\ (0 <= Dataset.rule ehead < 8)%Z
  /\ (0 <= Dataset.move ehead < 8192)%Z.
Proof.
  pose proof (Dataset.head_bits ehead) as H. unfold Dataset.head_fits in H.
  repeat (apply andb_true_iff in H as [H ?]).
  repeat match goal with
         | H : (_ <=? _)%Z = true |- _ => apply Z.leb_le in H
         | H : (_ <? _)%Z = true |- _ => apply Z.ltb_lt in H
         | H : (_ <? _) = true |- _ => apply Nat.ltb_lt in H
         end.
  lia.
Qed.


Lemma coord_pack (x y : Z) :
  (0 <= x < 32)%Z -> (0 <= y < 32)%Z ->
  Dataset.coordX (Dataset.pack x y) = x /\ Dataset.coordY (Dataset.pack x y) = y.
Proof.
  intros Hx Hy. unfold Dataset.coordX, Dataset.coordY, Dataset.pack. split.
  - rewrite Z.shiftr_lor, Z.shiftr_shiftl_l by lia.
    rewrite Z.sub_diag, Z.shiftl_0_r.
    rewrite (Z.shiftr_div_pow2 y 5) by lia.
    rewrite (Z.div_small y) by (change (2 ^ 5)%Z with 32%Z; lia).
    rewrite Z.lor_0_r. change 31%Z with (Z.ones 5).
    rewrite Z.land_ones by lia. apply Z.mod_small.
    change (2 ^ 5)%Z with 32%Z. lia.
  - rewrite Z.land_lor_distr_l. change 31%Z with (Z.ones 5).
    rewrite !Z.land_ones by lia. rewrite Z.shiftl_mul_pow2 by lia.
    rewrite Z.mod_mul by (change (2 ^ 5)%Z with 32%Z; lia).
    rewrite Z.lor_0_l. apply Z.mod_small. change (2 ^ 5)%Z with 32%Z. lia.
Qed.

Lemma word_pos_pack (x y : Z) :
  (0 <= x < 32)%Z -> (0 <= y < 32)%Z ->
  Dataset.word_pos (Dataset.pack x y) = At x y.
Proof.
  intros Hx Hy. unfold Dataset.word_pos.
  destruct (coord_pack x y Hx Hy) as [-> ->]. reflexivity.
Qed.

(** A board of size [bs] has room for [bs * bs] different positions. *)
Lemma on_board_count (bs : Z) (ps : list Pos) :
  Forall (Dataset.on_board bs) ps -> NoDup ps ->
  (Z.of_nat (length ps) <= bs * bs)%Z.
Proof.
  intros Hob Hnd.
  set (all := map (fun q : Z * Z => At q.1 q.2) (list_prod (seqZ 0 bs) (seqZ 0 bs))).
  assert (Hsub : ps ⊆+ all).
  { apply NoDup_submseteq; [exact Hnd|]. intros p Hp.
    rewrite Forall_forall in Hob. specialize (Hob p Hp).
    destruct p as [|x y]; [destruct Hob|]. destruct Hob as [Hx Hy].
    apply list_elem_of_In. unfold all.
    apply (in_map (fun q : Z * Z => At q.1 q.2) _ (x, y)).
    apply in_prod; apply list_elem_of_In, elem_of_seqZ; lia. }
  apply submseteq_length in Hsub. unfold all in Hsub.
  rewrite length_map, length_prod, !length_seqZ in Hsub.
  destruct (Z.le_gt_cases 0 bs); [|destruct ps; [simpl; nia|]].
  - nia.
  - exfalso. rewrite Forall_forall in Hob. specialize (Hob p ltac:(left)).
    destruct p; simpl in Hob; lia.
Qed.

(** X23: [next] accepts every legal entry packed as its comments describe.
    For a head with a board size other than 0, a rule code 0, 1 or 4, a
    result code other than 3 and a [ply] of at most [MAX_MOVES], followed
    by [ply] different points of the board packed as [(x << 5) | y], with a
    best move that is the marker or a point of the board outside the
    sequence, the entry returned holds the sequence and the best move
    unchanged; the check of [ply] against the square of the board size
    never rejects such an entry. *)
Theorem next_accepts_packed (MAX_MOVES : nat) (ehead : Dataset.EntryHead)
    (ps : list (Z * Z)) (best : Z * Z) (rest : list Z) :
  let bs := Dataset.boardsize ehead in
  bs <> 0%Z ->
  Dataset.rule ehead = 0%Z \/ Dataset.rule ehead = 1%Z \/ Dataset.rule ehead = 4%Z ->
  Dataset.result ehead <> 3%Z ->
  Dataset.ply ehead = length ps ->
  length ps <= MAX_MOVES ->
  Forall (fun q => (0 <= q.1 < bs)%Z /\ (0 <= q.2 < bs)%Z) ps ->
  NoDup ps ->
  Dataset.move ehead = Dataset.pack best.1 best.2 ->
  best = (bs, bs)
  \/ ((0 <= best.1 < bs)%Z /\ (0 <= best.2 < bs)%Z /\ best ∉ ps) ->
  Dataset.next MAX_MOVES ehead (map (fun q => Dataset.pack q.1 q.2) ps ++ rest) true
  = inr (Some (Dataset.mkEntry bs (Dataset.Rule_of (Dataset.rule ehead))
                 (Dataset.Result_of (Dataset.result ehead))
                 (map (fun q => At q.1 q.2) ps) (At best.1 best.2))).
Proof.
  intros bs Hbs0 Hrul Hres Hply Hcap Hob Hnd Hmove Hbest.
  pose proof (head_bits_spec ehead) as (Hr & _ & Hb & _ & _). fold bs in Hb.
  assert (Hbs : (0 < bs < 32)%Z) by lia.
  set (words := map (fun q : Z * Z => Dataset.pack q.1 q.2) ps).
  assert (Hdec : map Dataset.word_pos words = map (fun q : Z * Z => At q.1 q.2) ps).
  { unfold words. rewrite map_map. apply map_ext_in. intros q Hq.
    rewrite Forall_forall in Hob.
    destruct (Hob q (proj2 (list_elem_of_In _ _) Hq)) as [Hx Hy].
    apply word_pos_pack; lia. }
  assert (Hinj : forall a b : Z * Z, At a.1 a.2 = At b.1 b.2 -> a = b).
  { intros [a1 a2] [b1 b2] H. simpl in H. congruence. }
  assert (Hnd' : NoDup (map (fun q : Z * Z => At q.1 q.2) ps)).
  { apply (NoDup_fmap_2_strong (fun q : Z * Z => At q.1 q.2)); [|exact Hnd].
    intros a b _ _. apply Hinj. }
  assert (Hob' : Forall (Dataset.on_board bs) (map (fun q : Z * Z => At q.1 q.2) ps)).
  { apply Forall_forall. intros p Hp.
    apply list_elem_of_In, in_map_iff in Hp. destruct Hp as (q & <- & Hq).
    rewrite Forall_forall in Hob. apply (Hob q). apply list_elem_of_In. exact Hq. }
  pose proof (on_board_count bs _ Hob' Hnd') as Hcount.
  rewrite length_map in Hcount.
  unfold Dataset.next, Dataset.check_head. fold bs. rewrite Hply, Hmove.
  replace (bs =? 0)%Z with false by lia.
  replace (negb ((Dataset.rule ehead =? 0)%Z || (Dataset.rule ehead =? 1)%Z
                 || (Dataset.rule ehead =? 4)%Z)) with false by lia.
  replace (negb ((Dataset.result ehead =? 0)%Z || (Dataset.result ehead =? 1)%Z
                 || (Dataset.result ehead =? 2)%Z)) with false by lia.
  replace (bs * bs <? Z.of_nat (length ps))%Z with false by lia.
  replace (MAX_MOVES <? length ps) with false by (symmetry; apply Nat.ltb_ge; lia).
  replace (length (words ++ rest) <? length ps) with false.
  2: { symmetry. apply Nat.ltb_ge. unfold words. rewrite length_app, length_map. lia. }
  assert (Htake : take (length ps) (words ++ rest) = words).
  { rewrite take_app_le by (unfold words; rewrite length_map; lia).
    apply take_ge. unfold words. rewrite length_map. lia. }
  rewrite Htake.
  rewrite read_moves_complete; rewrite ?Hdec; try assumption.
  2: { apply Forall_forall. intros p _ Hp. inversion Hp. }
  rewrite app_nil_l, app_nil_r.
  assert (Hbw : Dataset.coordX (Dataset.pack best.1 best.2) = best.1
                /\ Dataset.coordY (Dataset.pack best.1 best.2) = best.2).
  { apply coord_pack; destruct Hbest as [-> | (H1 & H2 & _)]; simpl; lia. }
  destruct Hbw as [-> ->].
  destruct Hbest as [-> | (H1 & H2 & H3)].
  - cbn [fst snd]. rewrite !Z.eqb_refl. reflexivity.
  - replace ((best.1 =? bs)%Z && (best.2 =? bs)%Z) with false by lia.
    replace (Dataset.off_board bs best.1 best.2) with false
      by (symmetry; apply off_board_false; simpl; lia).
    rewrite bool_decide_eq_false_2; [reflexivity|].
    intros Hin. apply list_elem_of_In, in_rev in Hin.
    rewrite ?rev_involutive in Hin. apply in_map_iff in Hin.
    destruct Hin as (q & Hq & Hqin). apply Hinj in Hq. subst q.
    apply H3, list_elem_of_In. exact Hqin.
Qed.

(** ** The readers on sample data *)

Lemma unpackBytesToBits_big_endian_witness :
  Dataset.unpackBytesToBits [165; 192]%Z 10 = Some [1; 0; 1; 0; 0; 1; 0; 1; 1; 1]%Z
  /\ length [1; 0; 1; 0; 0; 1; 0; 1; 1; 1]%Z = 10
  /\ forall k, k < 10 ->
       exists byte,
         [165; 192]%Z !! (k / 8) = Some byte
         /\ [1; 0; 1; 0; 0; 1; 0; 1; 1; 1]%Z !! k
            = Some (Z.b2z (Z.testbit byte (7 - Z.of_nat (k mod 8)))).
Proof.
  assert (H : Dataset.unpackBytesToBits [165; 192]%Z 10
              = Some [1; 0; 1; 0; 0; 1; 0; 1; 1; 1]%Z) by reflexivity.
  split; [exact H|].
  exact (unpackBytesToBits_big_endian [165; 192]%Z 10 _ H).
Defined.

Lemma boardArrayToPosSequence_alternates_witness :
  0 < 3
  /\ Dataset.boardArrayToPosSequence Dataset.sample_board 3
     = [At 1 0; At 0 0; At 1 1; At 2 1; At 0 2]
  /\ length (Dataset.boardArrayToPosSequence Dataset.sample_board 3) = 5.
Proof.
  assert (H : 0 < 3) by lia.
  split; [exact H|]. split; [reflexivity|].
  destruct (boardArrayToPosSequence_alternates Dataset.sample_board 3 H) as [Hl _].
  exact Hl.
Defined.

Lemma boardArrayToPosSequence_complete_iff_witness :
  0 < 3
  /\ Permutation (Dataset.boardArrayToPosSequence Dataset.sample_board 3)
       ([At 1 0; At 1 1; At 0 2] ++ [At 0 0; At 2 1]).
Proof.
  assert (H : 0 < 3) by lia.
  split; [exact H|].
  apply (proj2 (boardArrayToPosSequence_complete_iff Dataset.sample_board 3 H)).
  simpl. lia.
Defined.

Lemma boardArrayToPosSequence_stones_witness :
  0 < 3 /\ NoDup (Dataset.boardArrayToPosSequence Dataset.sample_board 3).
Proof.
  assert (H : 0 < 3) by lia.
  split; [exact H|].
  exact (proj1 (boardArrayToPosSequence_stones Dataset.sample_board 3 H)).
Defined.


Lemma next_accepts_packed_witness :
  Dataset.next 484 Dataset.sample_head Dataset.sample_words true
  = inr (Some Dataset.sample_entry).
Proof.
  apply (next_accepts_packed 484 Dataset.sample_head
           [(7, 7); (8, 7); (6, 8)]%Z (15, 15)%Z [999%Z]).
  - discriminate.
  - right. right. reflexivity.
  - discriminate.
  - reflexivity.
  - simpl. lia.
  - repeat constructor; simpl; lia.
  - apply (bool_decide_unpack (NoDup [(7, 7); (8, 7); (6, 8)]%Z)). vm_compute. exact I.
  - reflexivity.
  - left. reflexivity.
Defined.

(** With an array of 484 words, a head that announces 485 plies on a
    board of size 23 passes the checks of the head, and the read of the
    words runs over the array. *)
Example next_position_overflow :
  Dataset.next 484 (Dataset.mkHead 2 485 23 0 0 eq_refl) [] true
  = inl Dataset.position_overflow.
Proof. reflexivity. Qed.

(** * Invariants across the stages *)

Section AcrossStages.

Variable MAX_MOVES : nat.
Variable Score_lowest : Z.

Local Abbreviation call := (operator_call MAX_MOVES Score_lowest).
Local Abbreviation drain_ := (drain MAX_MOVES Score_lowest).
Local Abbreviation yield_ := (yield MAX_MOVES Score_lowest).
Local Abbreviation after_ := (after_calls MAX_MOVES Score_lowest).

Lemma stage_ALLMOVES_policy (q : MovePicker) :
  hasPolicy (snd (stage_ALLMOVES q)) = hasPolicy q
  /\ maxPolicyScore (snd (stage_ALLMOVES q)) = maxPolicyScore q.
Proof.
  destruct (stage_ALLMOVES q) as [r q'] eqn:E.
  destruct (pickLoop_keeps_policy _ q q' r E) as [H1 H2]. split; assumption.
Qed.

Lemma sort_and_stream_policy (q : MovePicker) :
  hasPolicy (snd (sort_and_stream MAX_MOVES q)) = hasPolicy q
  /\ maxPolicyScore (snd (sort_and_stream MAX_MOVES q)) = maxPolicyScore q.
Proof.
  unfold sort_and_stream. cbv zeta.
  match goal with
  | |- context [stage_ALLMOVES ?x] => destruct (stage_ALLMOVES_policy x) as [-> ->]
  end.
  split; reflexivity.
Qed.

Lemma scoreMoves_policy (Type_ : Z) (p : MovePicker) :
  let sp := scoreMoves Score_lowest Type_ p in
  (hasPolicy sp = hasPolicy p /\ maxPolicyScore sp = maxPolicyScore p)
  \/ (has Type_ POLICY = true /\ evaluator (board p) <> None
      /\ hasPolicy sp = true /\ exists mx, maxPolicyScore sp = Some mx).
Proof.
  unfold scoreMoves. destruct (policyBuffer Type_ p) as [buf|] eqn:Hbuf.
  - right. unfold policyBuffer in Hbuf.
    destruct (has Type_ POLICY); [|discriminate].
    destruct (evaluator (board p)); [|discriminate].
    split; [reflexivity|]. split; [discriminate|]. split; [reflexivity|].
    eexists. reflexivity.
  - left. split; reflexivity.
Qed.

(** What one call does to the policy members: nothing, or, at a stage that
    scores with [POLICY] on a board with an evaluator, it sets both. *)
Lemma call_policy (p : MovePicker) :
  (hasPolicy (snd (call p)) = hasPolicy p
   /\ maxPolicyScore (snd (call p)) = maxPolicyScore p)
  \/ (is_policy_stage (stage p) /\ evaluator (board p) <> None
      /\ hasPolicy (snd (call p)) = true
      /\ exists mx, maxPolicyScore (snd (call p)) = Some mx).
Proof.
  assert (Hscored : forall Type_ gen,
            (has Type_ POLICY = true -> is_policy_stage (stage p)) ->
            call p = sort_and_stream MAX_MOVES
                       (scoreMoves Score_lowest Type_ (set_buffer 0 gen p)) ->
            (hasPolicy (snd (call p)) = hasPolicy p
             /\ maxPolicyScore (snd (call p)) = maxPolicyScore p)
            \/ (is_policy_stage (stage p) /\ evaluator (board p) <> None
                /\ hasPolicy (snd (call p)) = true
                /\ exists mx, maxPolicyScore (snd (call p)) = Some mx)).
  { intros Type_ gen Hflag E. rewrite E.
    destruct (sort_and_stream_policy
                (scoreMoves Score_lowest Type_ (set_buffer 0 gen p))) as [-> ->].
    destruct (scoreMoves_policy Type_ (set_buffer 0 gen p))
      as [[H1 H2]|(Hf & Hev & H1 & H2)].
    - left. split; [exact H1|exact H2].
    - right. split; [exact (Hflag Hf)|]. split; [exact Hev|]. split; assumption. }
  destruct (stage_cases (stage p)) as [HT|[Hg|[Ha|(HT & Hg & Ha)]]].
  - left. rewrite (call_TT MAX_MOVES Score_lowest p HT). split; reflexivity.
  - destruct Hg as [Hs|[Hs|[Hs|[Hs|Hs]]]].
    + apply (Hscored
               (Z.lor BALANCED
                  (Z.lor POLICY (Z.lor MAIN_HISTORY (Z.lor COUNTER_MOVE CONT_HISTORY))))
               (generate (board p) ALL)).
      * intros _. left. exact Hs.
      * unfold operator_call. rewrite Hs. reflexivity.
    + left. assert (E : call p = stage_DEFENDFIVE_MOVES p)
        by (unfold operator_call; rewrite Hs; reflexivity).
      rewrite E. unfold stage_DEFENDFIVE_MOVES.
      destruct (stage_ALLMOVES_policy
                  (set_stage ALLMOVES
                     (set_buffer 0
                        (if Pos_eqb (ttMove p) NONE
                         then generate (board p) DEFEND_FIVE else []) p)))
        as [-> ->].
      split; reflexivity.
    + apply (Hscored (Z.lor BALANCED (Z.lor POLICY MAIN_HISTORY))
               (generate (board p) DEFEND_FOUR ++ generate (board p) VCF)).
      * intros _. right. left. exact Hs.
      * unfold operator_call. rewrite Hs. reflexivity.
    + assert (E : call p = stage_DEFENDB4F3_MOVES MAX_MOVES Score_lowest p)
        by (unfold operator_call; rewrite Hs; reflexivity).
      unfold stage_DEFENDB4F3_MOVES in E.
      destruct (generate (board p) (DEFEND_B4F3_of (rule p))) as [|d0 d].
      * rewrite stage_MAIN_MOVES_restart in E.
        apply (Hscored
                 (Z.lor BALANCED
                    (Z.lor POLICY (Z.lor MAIN_HISTORY (Z.lor COUNTER_MOVE CONT_HISTORY))))
                 (generate (board p) ALL)); [|exact E].
        intros _. right. right. exact Hs.
      * apply (Hscored (Z.lor BALANCED (Z.lor POLICY MAIN_HISTORY))
                 ((d0 :: d) ++ generate (board p) VCF)); [|exact E].
        intros _. right. right. exact Hs.
    + apply (Hscored BALANCED
               (generateNeighbors (board p)
                  (if allowPlainB4InVCF p then VCF else GenOr VCF COMB)
                  (getLastActualMoveOfSide (board p) (sideToMove (board p))))).
      * intros H. discriminate H.
      * unfold operator_call. rewrite Hs. reflexivity.
  - left. rewrite (call_ALLMOVES MAX_MOVES Score_lowest p Ha).
    apply stage_ALLMOVES_policy.
  - left. rewrite (call_unknown MAX_MOVES Score_lowest p HT Hg Ha). split; reflexivity.
Qed.

(** The stage behind a call. *)
Lemma call_stage (p : MovePicker) :
  (is_TT_stage (stage p) = true /\ stage (snd (call p)) = (stage p + 1)%Z)
  \/ (is_TT_stage (stage p) = false
      /\ (is_gen_stage (stage p) \/ stage p = ALLMOVES)
      /\ stage (snd (call p)) = ALLMOVES)
  \/ (is_TT_stage (stage p) = false /\ ~ is_gen_stage (stage p)
      /\ stage p <> ALLMOVES /\ snd (call p) = p).
Proof.
  destruct (stage_cases (stage p)) as [HT|[Hg|[Ha|(HT & Hg & Ha)]]].
  - left. rewrite (call_TT MAX_MOVES Score_lowest p HT). split; [exact HT|reflexivity].
  - right. left. split; [apply gen_stage_not_TT; exact Hg|]. split; [left; exact Hg|].
    destruct (generation_stage_enters MAX_MOVES Score_lowest p Hg)
      as (q & E & (_ & _ & _ & Hsq & _) & _).
    rewrite E. destruct (stage_ALLMOVES q) as [r q'] eqn:E'.
    destruct (stage_ALLMOVES_spec q q' r E') as (_ & Hst & _). simpl. congruence.
  - right. left. split; [rewrite Ha; reflexivity|]. split; [right; exact Ha|].
    rewrite (call_ALLMOVES MAX_MOVES Score_lowest p Ha).
    destruct (stage_ALLMOVES p) as [r q'] eqn:E'.
    destruct (stage_ALLMOVES_spec p q' r E') as (_ & Hst & _). simpl. congruence.
  - right. right. rewrite (call_unknown MAX_MOVES Score_lowest p HT Hg Ha). auto.
Qed.

Lemma policy_guarded_after (n : nat) :
  forall p,
    policy_guarded p ->
    policy_guarded (after_ n p)
    /\ (hasPolicy (after_ n p) = true ->
        hasPolicy p = true \/ evaluator (board p) <> None).
Proof.
  induction n as [|n IH]; intros p Hp.
  - split; [exact Hp|]. intros H. left. exact H.
  - change (after_ (S n) p) with (after_ n (snd (call p))).
    assert (Hq : policy_guarded (snd (call p))
                 /\ (hasPolicy (snd (call p)) = true ->
                     hasPolicy p = true \/ evaluator (board p) <> None)).
    { destruct (call_policy p) as [[H1 H2]|(_ & Hev & H1 & H2)].
      - unfold policy_guarded. rewrite H1, H2. split; [exact Hp|]. intros H. left. exact H.
      - unfold policy_guarded. rewrite H1. split; [tauto|]. intros _. right. exact Hev. }
    destruct Hq as [Hq Hq'].
    destruct (IH (snd (call p)) Hq) as [H1 H2]. split; [exact H1|].
    intros H. destruct (H2 H) as [H3|H3]; [exact (Hq' H3)|].
    right. destruct (call_same_node MAX_MOVES Score_lowest p) as (Hb & _).
    rewrite Hb in H3. exact H3.
Qed.

(** A picker whose stages score without [POLICY] never sets the policy
    members. *)
Lemma quiescence_stage_never_policy (n : nat) :
  forall p,
    quiescence_stage (stage p) ->
    hasPolicy (after_ n p) = hasPolicy p
    /\ maxPolicyScore (after_ n p) = maxPolicyScore p.
Proof.
  induction n as [|n IH]; intros p Hs; [split; reflexivity|].
  change (after_ (S n) p) with (after_ n (snd (call p))).
  assert (Hnp : ~ is_policy_stage (stage p)).
  { intros [H|[H|H]]; destruct Hs as [E|[E|[E|[E|E]]]]; rewrite E in H; discriminate H. }
  assert (Hnext : quiescence_stage (stage (snd (call p)))).
  { destruct (call_stage p) as [[HT E]|[(_ & _ & E)|(_ & _ & _ & E)]].
    - rewrite E. destruct Hs as [E'|[E'|[E'|[E'|E']]]]; rewrite E' in HT |- *;
        try discriminate HT; unfold quiescence_stage; compute; tauto.
    - rewrite E. unfold quiescence_stage. tauto.
    - rewrite E. exact Hs. }
  destruct (IH _ Hnext) as [-> ->].
  destruct (call_policy p) as [H|(Hp & _)]; [exact H|contradiction].
Qed.

(** X24: [hasPolicyScore] guards [maxMovePolicy].  For a constructed
    picker, after any number of calls, [maxPolicyScore] has been assigned
    exactly when [hasPolicyScore] answers true; this happens only for a main
    picker over a board with an evaluator, never for a root or a
    quiescence picker. *)
Theorem hasPolicyScore_guards_maxMovePolicy (DEPTH_QVCF_FULL : Z) (rule_ : Rule)
    (b : Board) (margs : MainArgs.t) (qargs : QvcfArgs.t) (p : MovePicker) (n : nat) :
  p = MovePicker_ROOT rule_ b \/ p = MovePicker_MAIN rule_ b margs
  \/ p = MovePicker_QVCF DEPTH_QVCF_FULL rule_ b qargs ->
  (hasPolicyScore (after_ n p) = true <-> exists mx, maxMovePolicy (after_ n p) = Some mx)
  /\ (hasPolicyScore (after_ n p) = true ->
      evaluator b <> None /\ p = MovePicker_MAIN rule_ b margs).
Proof.
  intros Hp. unfold hasPolicyScore, maxMovePolicy.
  assert (H0 : hasPolicy p = false /\ maxPolicyScore p = None /\ board p = b).
  { destruct Hp as [->|[->| ->]].
    - repeat split.
    - unfold MovePicker_MAIN. destruct (dispatch_MAIN _ _ _). repeat split.
    - unfold MovePicker_QVCF. destruct (dispatch_QVCF _ _). repeat split. }
  destruct H0 as (Hh & Hm & Hb).
  assert (Hg : policy_guarded p).
  { unfold policy_guarded. rewrite Hh, Hm. split; [discriminate|].
    intros [mx H]. discriminate H. }
  destruct (policy_guarded_after n p Hg) as [H1 H2]. split; [exact H1|].
  intros H. split.
  - destruct (H2 H) as [H3|H3]; [congruence|]. rewrite Hb in H3. exact H3.
  - destruct Hp as [Hp|[Hp|Hp]]; [exfalso | exact Hp | exfalso].
    + destruct (quiescence_stage_never_policy n p) as [H3 _].
      * rewrite Hp. unfold quiescence_stage. simpl. tauto.
      * congruence.
    + destruct (quiescence_stage_never_policy n p) as [H3 _].
      * rewrite Hp. unfold MovePicker_QVCF, dispatch_QVCF, quiescence_stage.
        destruct (0 <? _);
          destruct (_ && isEmpty b (QvcfArgs.ttMove qargs)); simpl; tauto.
      * congruence.
Qed.

(** *** The TT move a constructor keeps *)

(** X25: a constructor keeps the TT move only when it fits the threat.  A
    main or quiescence picker starts at a TT stage exactly when it has kept
    the TT move of its arguments; that move is then an empty point and the
    first yield, and it lies on the five of the opponent when there is
    one, otherwise on a four or a forbidden point under a four of the
    opponent (main picker) or on a four of the side to move (quiescence
    picker).  A picker that starts behind the TT stage stores [NONE]. *)
Theorem kept_ttMove_fits_threat (DEPTH_QVCF_FULL : Z) (rule_ : Rule) (b : Board)
    (margs : MainArgs.t) (qargs : QvcfArgs.t) :
  let self := sideToMove b in
  let oppo := opposite self in
  let pm := MovePicker_MAIN rule_ b margs in
  let pq := MovePicker_QVCF DEPTH_QVCF_FULL rule_ b qargs in
  let tm := MainArgs.ttMove margs in
  let tq := QvcfArgs.ttMove qargs in
  (is_TT_stage (stage pm) = false -> ttMove pm = NONE)
  /\ (is_TT_stage (stage pm) = true ->
      ttMove pm = tm /\ isEmpty b tm = true /\ yield_ 0 pm = tm
      /\ ((0 <? p4Count b oppo A_FIVE) = true ->
          Cell.pattern4 (cell b tm) oppo = A_FIVE)
      /\ ((0 <? p4Count b oppo A_FIVE) = false ->
          (0 <? p4Count b oppo B_FLEX4) = true ->
          p4_geb (Cell.pattern4 (cell b tm) BLACK) E_BLOCK4
          || p4_eqb (Cell.pattern4 (cell b tm) BLACK) FORBID
          || p4_geb (Cell.pattern4 (cell b tm) WHITE) E_BLOCK4 = true))
  /\ (is_TT_stage (stage pq) = false -> ttMove pq = NONE)
  /\ (is_TT_stage (stage pq) = true ->
      ttMove pq = tq /\ isEmpty b tq = true /\ yield_ 0 pq = tq
      /\ ((0 <? p4Count b oppo A_FIVE) = true ->
          Cell.pattern4 (cell b tq) oppo = A_FIVE)
      /\ ((0 <? p4Count b oppo A_FIVE) = false ->
          p4_geb (Cell.pattern4 (cell b tq) self) E_BLOCK4 = true)).
Proof.
  intros self oppo pm pq tm tq.
  assert (Hm : let d := dispatch_MAIN rule_ b tm in
               (snd d && isEmpty b tm = true ->
                stage pm = fst d /\ ttMove pm = tm /\ yield_ 0 pm = tm)
               /\ (snd d && isEmpty b tm = false ->
                   ttMove pm = NONE /\ is_TT_stage (stage pm) = false)
               /\ is_TT_stage (fst d) = true).
  { cbv zeta. pose proof (dispatch_MAIN_stage rule_ b tm) as HT.
    subst pm tm. unfold MovePicker_MAIN.
    destruct (dispatch_MAIN rule_ b (MainArgs.ttMove margs)) as [s0 v0].
    cbn [fst snd] in *.
    match goal with
    | |- context [yield MAX_MOVES Score_lowest 0 ?p] => set (pk := p)
    end.
    destruct (constructed_tt MAX_MOVES Score_lowest pk b s0 v0 (MainArgs.ttMove margs) HT
                eq_refl eq_refl eq_refl) as [H1 H2].
    split; [exact H1|]. split; [|exact HT].
    intros Hv. destruct (H2 Hv) as (_ & Hn & Hf & _). split; assumption. }
  assert (Hq : let d := dispatch_QVCF b tq in
               (snd d && isEmpty b tq = true ->
                stage pq = fst d /\ ttMove pq = tq /\ yield_ 0 pq = tq)
               /\ (snd d && isEmpty b tq = false ->
                   ttMove pq = NONE /\ is_TT_stage (stage pq) = false)
               /\ is_TT_stage (fst d) = true).
  { cbv zeta. pose proof (dispatch_QVCF_stage b tq) as HT.
    subst pq tq. unfold MovePicker_QVCF.
    destruct (dispatch_QVCF b (QvcfArgs.ttMove qargs)) as [s0 v0].
    cbn [fst snd] in *.
    match goal with
    | |- context [yield MAX_MOVES Score_lowest 0 ?p] => set (pk := p)
    end.
    destruct (constructed_tt MAX_MOVES Score_lowest pk b s0 v0 (QvcfArgs.ttMove qargs) HT
                eq_refl eq_refl eq_refl) as [H1 H2].
    split; [exact H1|]. split; [|exact HT].
    intros Hv. destruct (H2 Hv) as (_ & Hn & Hf & _). split; assumption. }
  cbv zeta in Hm, Hq.
  destruct Hm as (Hm1 & Hm2 & Hm3). destruct Hq as (Hq1 & Hq2 & Hq3).
  split; [|split; [|split]].
  - intros Hf.
    destruct (snd (dispatch_MAIN rule_ b tm) && isEmpty b tm) eqn:Hv.
    + destruct (Hm1 eq_refl) as (Hs & _). rewrite Hs, Hm3 in Hf. discriminate Hf.
    + exact (proj1 (Hm2 eq_refl)).
  - intros Ht.
    destruct (snd (dispatch_MAIN rule_ b tm) && isEmpty b tm) eqn:Hv.
    2: { destruct (Hm2 eq_refl) as (_ & Hf). rewrite Hf in Ht. discriminate Ht. }
    destruct (Hm1 eq_refl) as (_ & Htt & Hy).
    apply andb_true_iff in Hv as [Hv He].
    split; [exact Htt|]. split; [exact He|]. split; [exact Hy|].
    unfold dispatch_MAIN in Hv. fold self oppo in Hv. split.
    + intros H5. rewrite H5 in Hv. simpl in Hv.
      unfold p4_eqb in Hv. apply bool_decide_eq_true in Hv. exact Hv.
    + intros H5 H4. rewrite H5, H4 in Hv. exact Hv.
  - intros Hf.
    destruct (snd (dispatch_QVCF b tq) && isEmpty b tq) eqn:Hv.
    + destruct (Hq1 eq_refl) as (Hs & _). rewrite Hs, Hq3 in Hf. discriminate Hf.
    + exact (proj1 (Hq2 eq_refl)).
  - intros Ht.
    destruct (snd (dispatch_QVCF b tq) && isEmpty b tq) eqn:Hv.
    2: { destruct (Hq2 eq_refl) as (_ & Hf). rewrite Hf in Ht. discriminate Ht. }
    destruct (Hq1 eq_refl) as (_ & Htt & Hy).
    apply andb_true_iff in Hv as [Hv He].
    split; [exact Htt|]. split; [exact He|]. split; [exact Hy|].
    unfold dispatch_QVCF in Hv. fold self oppo in Hv. split.
    + intros H5. rewrite H5 in Hv. simpl in Hv.
      unfold p4_eqb in Hv. apply bool_decide_eq_true in Hv. exact Hv.
    + intros H5. rewrite H5 in Hv. exact Hv.
Qed.

(** *** The fall-back of the defence against a three *)

(** X26: at [DEFENDB4F3_MOVES], when the defence generator writes no move,
    the call is the call at [MAIN_MOVES]: it yields what a picker at
    [MAIN_MOVES] yields and leaves the same picker, and so do all calls
    after it. *)
Theorem DEFENDB4F3_falls_back_to_MAIN (p : MovePicker) :
  stage p = DEFENDB4F3_MOVES ->
  generate (board p) (DEFEND_B4F3_of (rule p)) = [] ->
  call p = call (set_stage MAIN_MOVES p)
  /\ forall n, yield_ n p = yield_ n (set_stage MAIN_MOVES p).
Proof.
  intros Hs Hgen.
  assert (E : call p = call (set_stage MAIN_MOVES p)).
  { assert (E1 : call p = stage_DEFENDB4F3_MOVES MAX_MOVES Score_lowest p)
      by (unfold operator_call; rewrite Hs; reflexivity).
    rewrite E1. unfold stage_DEFENDB4F3_MOVES. rewrite Hgen.
    rewrite stage_MAIN_MOVES_restart.
    change (call (set_stage MAIN_MOVES p))
      with (stage_MAIN_MOVES MAX_MOVES Score_lowest (set_stage MAIN_MOVES p)).
    rewrite <- (stage_MAIN_MOVES_restart MAX_MOVES Score_lowest
                  MAIN_MOVES (curMove p) (moves p) p).
    reflexivity. }
  split; [exact E|].
  apply (yield_congr MAX_MOVES Score_lowest _ _ E).
Qed.

(** *** No move is lost *)

Lemma until_NONE_id (l : list Pos) : NONE ∉ l -> until_NONE l = l.
Proof.
  induction l as [|x l IH]; intros H; [reflexivity|]. simpl.
  unfold Pos_eqb. rewrite bool_decide_eq_false_2.
  - rewrite IH; [reflexivity|]. intros Hin. apply H. right. exact Hin.
  - intros ->. apply H. left.
Qed.

Lemma filter_Permutation_compat {A : Type} (f : A -> bool) (l l' : list A) :
  Permutation l l' -> Permutation (List.filter f l) (List.filter f l').
Proof.
  induction 1 as [|x l l' _ IH|x y l|l l' l'' _ IH1 _ IH2]; simpl.
  - reflexivity.
  - destruct (f x); [constructor|]; exact IH.
  - destruct (f x), (f y); try reflexivity. constructor.
  - etransitivity; eassumption.
Qed.

Lemma accepted_filter_pos (p : MovePicker) (l : list Move) :
  map pos (List.filter (accepted p) l)
  = List.filter (fun x => accepted p (mkMove x 0 0)) (map pos l).
Proof.
  induction l as [|m l IH]; [reflexivity|]. simpl.
  change (accepted p (mkMove (pos m) 0 0)) with (accepted p m).
  destruct (accepted p m); simpl; rewrite IH; reflexivity.
Qed.

(** X27: the main stage loses no move.  At [MAIN_MOVES], over a generated
    list without a move at [NONE], the positions yielded up to the first
    [NONE] are a permutation of the generated positions that pass the yield
    predicate: scoring and sorting neither drop nor repeat a move. *)
Theorem MAIN_MOVES_yields_every_move (p : MovePicker) (fuel : nat) :
  stage p = MAIN_MOVES ->
  (forall m, m ∈ generate (board p) ALL -> pos m <> NONE) ->
  length (generate (board p) ALL) < fuel ->
  Permutation (drain_ fuel p)
    (map pos (List.filter (accepted p) (generate (board p) ALL))).
Proof.
  intros Hs Hnone Hfuel.
  assert (E1 : call p = stage_MAIN_MOVES MAX_MOVES Score_lowest p)
    by (unfold operator_call; rewrite Hs; reflexivity).
  unfold stage_MAIN_MOVES in E1. cbv zeta in E1.
  destruct (scored_stage_enters MAX_MOVES Score_lowest
              (Z.lor BALANCED
                 (Z.lor POLICY (Z.lor MAIN_HISTORY (Z.lor COUNTER_MOVE CONT_HISTORY))))
              (generate (board p) ALL) p) as (q & E & Hent & Hperm).
  pose proof (entered_same_node p q Hent) as Hnode.
  destruct Hent as (_ & _ & _ & Hsq & Hcq & _).
  assert (Ecall : call p = call q).
  { rewrite E1, E. symmetry. apply (call_ALLMOVES MAX_MOVES Score_lowest q Hsq). }
  rewrite (drain_congr MAX_MOVES Score_lowest p q fuel Ecall).
  assert (Hlen : length (moves q) = length (generate (board p) ALL)).
  { apply Permutation_length in Hperm. rewrite !length_map in Hperm. lia. }
  rewrite (drain_until_NONE MAX_MOVES Score_lowest q fuel Hsq) by lia.
  rewrite Hcq, drop_0.
  rewrite (List.filter_ext _ _ (fun a => accepted_same_node p q a Hnode)).
  rewrite !accepted_filter_pos.
  rewrite until_NONE_id.
  - apply filter_Permutation_compat. symmetry. exact Hperm.
  - intros Hin. apply list_elem_of_In, List.filter_In in Hin as [Hin _].
    apply list_elem_of_In in Hin. rewrite <- Hperm in Hin.
    apply list_elem_of_fmap in Hin as (m & Hm & Hin). apply (Hnone m Hin). auto.
Qed.

End AcrossStages.

(** * The further properties on the sample positions *)

Lemma ALLMOVES_streams_buffer_order_witness :
  let q := MovePicker_ROOT FREESTYLE Sample.quiet in
  stage q = ALLMOVES
  /\ length (moves q) - curMove q < 4
  /\ drain 484 (-32768) 4 q = [Sample.G7; Sample.H8; Sample.J9].
Proof.
  intros q.
  assert (H1 : stage q = ALLMOVES) by reflexivity.
  assert (H2 : length (moves q) - curMove q < 4) by (vm_compute; lia).
  split; [exact H1|]. split; [exact H2|].
  rewrite (ALLMOVES_streams_buffer_order 484 (-32768) q 4 H1 H2).
  reflexivity.
Defined.

Lemma ROOT_streams_generation_order_witness :
  length (moves (MovePicker_ROOT FREESTYLE Sample.quiet)) < 4
  /\ drain 484 (-32768) 4 (MovePicker_ROOT FREESTYLE Sample.quiet)
     = map pos (List.filter (accepted (MovePicker_ROOT FREESTYLE Sample.quiet))
                  (moves (MovePicker_ROOT FREESTYLE Sample.quiet))).
Proof.
  assert (H : length (moves (MovePicker_ROOT FREESTYLE Sample.quiet)) < 4)
    by (vm_compute; lia).
  split; [exact H|].
  exact (proj1 (proj2 (proj2
           (ROOT_streams_generation_order 484 (-32768) FREESTYLE Sample.quiet 4 H)))).
Defined.

Lemma buffer_filled_once_witness :
  let p := MovePicker_MAIN FREESTYLE Sample.quiet (Sample.main_args NONE) in
  is_gen_stage (stage p)
  /\ stage (after_calls 484 (-32768) 3 p) = ALLMOVES
  /\ moves (after_calls 484 (-32768) 3 p) = moves (after_calls 484 (-32768) 1 p).
Proof.
  intros p.
  assert (H : is_gen_stage (stage p)) by (left; reflexivity).
  split; [exact H|].
  destruct (buffer_filled_once 484 (-32768) p 2 H) as (H1 & H2 & _).
  split; [exact H1|exact H2].
Defined.

Lemma yields_are_generated_witness :
  let p := MovePicker_MAIN FREESTYLE Sample.quiet (Sample.main_args NONE) in
  is_gen_stage (stage p)
  /\ (yield 484 (-32768) 1 p = NONE
      \/ generated (board p) (yield 484 (-32768) 1 p)).
Proof.
  intros p.
  assert (H : is_gen_stage (stage p)) by (left; reflexivity).
  split; [exact H|].
  exact (yields_are_generated 484 (-32768) p 1 H).
Defined.

Lemma cursor_stays_within_buffer_witness :
  let p := MovePicker_MAIN FREESTYLE Sample.quiet (Sample.main_args Sample.H8) in
  curMove p <= length (moves p)
  /\ curMove (after_calls 484 (-32768) 9 p)
     <= length (moves (after_calls 484 (-32768) 9 p)).
Proof.
  intros p.
  assert (H : curMove p <= length (moves p)) by (vm_compute; lia).
  split; [exact H|].
  exact (cursor_stays_within_buffer 484 (-32768) p 9 H).
Defined.

Lemma NONE_is_terminal_witness :
  let q := MovePicker_ROOT FREESTYLE Sample.quiet in
  stage q = ALLMOVES
  /\ yield 484 (-32768) 3 q = NONE
  /\ yield 484 (-32768) (3 + 4) q = NONE.
Proof.
  intros q.
  assert (H1 : stage q = ALLMOVES) by reflexivity.
  assert (H2 : forall m, m ∈ moves q -> pos m <> NONE).
  { intros m Hm. change (moves q)
      with [mkMove Sample.G7 0 0; mkMove Sample.H8 0 0; mkMove Sample.J9 0 0] in Hm.
    repeat (apply elem_of_cons in Hm as [-> | Hm]; [discriminate|]).
    inversion Hm. }
  assert (H3 : yield 484 (-32768) 3 q = NONE) by (vm_compute; reflexivity).
  split; [exact H1|]. split; [exact H3|].
  exact (proj1 (NONE_is_terminal 484 (-32768) q 3 4 H1 H2 H3)).
Defined.

Lemma policy_scoring_parity_witness :
  let p := after_calls 484 (-32768) 1
             (MovePicker_ROOT FREESTYLE Sample.quiet_policy) in
  hasPolicyScore p = false
  /\ hasPolicyScore (scoreMoves (-32768) POLICY p) = true.
Proof.
  intros p. split; [reflexivity|].
  destruct (evaluator (board p)) as [ev|] eqn:He; [|discriminate He].
  exact (proj1 (proj1 (policy_scoring_parity (-32768) POLICY p) ev eq_refl He)).
Defined.

Lemma mainHistory_monotone_witness :
  let zero : MainHistory := fun _ _ _ => 0%Z in
  let T := Z.lor BALANCED MAIN_HISTORY in
  let m := mkMove Sample.H8 0 0 in
  (score (scoreMove (-32768) T (with_mainHistory Sample.minus_one Sample.scoring) None m)
   <= score (scoreMove (-32768) T (with_mainHistory zero Sample.scoring) None m))%Z.
Proof.
  intros zero T m.
  refine (proj1 (mainHistory_monotone (-32768) T Sample.scoring
                   Sample.minus_one zero None m) _ _ _).
  - intros k. unfold Sample.minus_one, zero. lia.
  - vm_compute. discriminate.
  - vm_compute. reflexivity.
Defined.

Lemma scored_stage_leaves_sorted_buffer_witness :
  let p := MovePicker_MAIN FREESTYLE Sample.quiet_policy (Sample.main_args NONE) in
  is_scored_stage (stage p)
  /\ length (moves (snd (operator_call 484 (-32768) p))) <= 484 * 2 / 3
  /\ partially_sorted 0 (moves (snd (operator_call 484 (-32768) p))).
Proof.
  intros p.
  assert (H1 : is_scored_stage (stage p)) by (left; reflexivity).
  assert (H2 : length (moves (snd (operator_call 484 (-32768) p))) <= 484 * 2 / 3)
    by (vm_compute; lia).
  split; [exact H1|]. split; [exact H2|].
  exact (scored_stage_leaves_sorted_buffer 484 (-32768) p H1 H2).
Defined.

Lemma yields_descend_above_limit_witness :
  let q := after_calls 484 (-32768) 1
             (MovePicker_MAIN FREESTYLE Sample.quiet_policy (Sample.main_args NONE)) in
  stage q = ALLMOVES
  /\ yield 484 (-32768) 0 q = Sample.H8
  /\ yield 484 (-32768) 1 q = Sample.G7
  /\ exists si sj,
       curMoveScore (after_calls 484 (-32768) 1 q) = Some si
       /\ curMoveScore (after_calls 484 (-32768) 2 q) = Some sj
       /\ ((0 <= sj)%Z -> (sj <= si)%Z).
Proof.
  intros q.
  assert (H1 : stage q = ALLMOVES) by reflexivity.
  assert (H2 : partially_sorted 0 (moves q)).
  { exists [mkMove Sample.J9 40 40; mkMove Sample.H8 20 20; mkMove Sample.G7 10 10], [].
    split; [vm_compute; reflexivity|]. split.
    - repeat constructor; unfold desc; simpl; lia.
    - split; repeat constructor; simpl; lia. }
  assert (H3 : yield 484 (-32768) 0 q = Sample.H8) by (vm_compute; reflexivity).
  assert (H4 : yield 484 (-32768) 1 q = Sample.G7) by (vm_compute; reflexivity).
  split; [exact H1|]. split; [exact H3|]. split; [exact H4|].
  apply (yields_descend_above_limit 484 (-32768) q 0 0 1 H1 H2).
  - lia.
  - rewrite H3. discriminate.
  - rewrite H4. discriminate.
Defined.

Lemma policy_diff_nonnegative_witness :
  let p := MovePicker_MAIN FREESTYLE Sample.quiet_policy (Sample.main_args NONE) in
  is_policy_stage (stage p)
  /\ yield 484 (-32768) 1 p = Sample.H8
  /\ hasPolicyScore (after_calls 484 (-32768) 2 p) = true
  /\ curMovePolicyDiff (-32768) (after_calls 484 (-32768) 2 p) = Some 20%Z.
Proof.
  intros p.
  assert (H1 : is_policy_stage (stage p)) by (left; reflexivity).
  assert (H3 : yield 484 (-32768) 1 p = Sample.H8) by (vm_compute; reflexivity).
  split; [exact H1|]. split; [exact H3|].
  assert (H2 : forall l x,
             ((-32768) ÷ 2
              <= evaluatePolicy
                   (mkEvaluator (fun _ q => if Pos_eqb q Sample.J9 then 40%Z
                                            else if Pos_eqb q Sample.H8 then 20%Z
                                            else 10%Z)) l x
              < - ((-32768) ÷ 2))%Z).
  { intros l x. change ((-32768) ÷ 2)%Z with (-16384)%Z. cbn [evaluatePolicy].
    destruct (Pos_eqb x Sample.J9); [lia|].
    destruct (Pos_eqb x Sample.H8); lia. }
  assert (H4 : yield 484 (-32768) 1 p <> NONE) by (rewrite H3; discriminate).
  destruct (policy_diff_nonnegative 484 (-32768) p _ 1 H1 eq_refl H2 H4)
    as (Hh & mx & c & _ & _ & Hd & _).
  split; [exact Hh|]. vm_compute. reflexivity.
Defined.

Lemma partial_insertion_sort_fixes_sorted_witness :
  partially_sorted 0 [mv 5; mv 3; mv (-1); mv (-4)]
  /\ fastPartialSort 484 [mv 5; mv 3; mv (-1); mv (-4)] 0
     = [mv 5; mv 3; mv (-1); mv (-4)].
Proof.
  assert (H : partially_sorted 0 [mv 5; mv 3; mv (-1); mv (-4)]).
  { exists [mv 5; mv 3], [mv (-1); mv (-4)]. split; [reflexivity|]. split.
    - repeat constructor; unfold desc; simpl; lia.
    - split; repeat constructor; simpl; lia. }
  split; [exact H|].
  apply (proj1 (proj2 (partial_insertion_sort_fixes_sorted 484 0 _)) H).
  vm_compute. lia.
Defined.

Lemma fastPartialSort_library_branches_witness :
  8 / 4 < length [mv 1; mv 4; mv 2; mv 3]
  /\ length [mv 1; mv 4; mv 2; mv 3] <= 8 * 2 / 3
  /\ desc_sorted (fastPartialSort 8 [mv 1; mv 4; mv 2; mv 3] 0).
Proof.
  assert (H1 : 8 / 4 < length [mv 1; mv 4; mv 2; mv 3]) by (vm_compute; lia).
  assert (H2 : length [mv 1; mv 4; mv 2; mv 3] <= 8 * 2 / 3) by (vm_compute; lia).
  split; [exact H1|]. split; [exact H2|].
  exact (proj1 (proj1 (fastPartialSort_library_branches 8 0 _) H1 H2)).
Defined.


Lemma unpackBytesToBits_reads_one_byte_more_witness :
  16 mod 8 = 0
  /\ length [255; 1]%Z = 16 / 8
  /\ Dataset.unpackBytesToBits [255; 1]%Z 16 = None.
Proof.
  assert (H1 : 16 mod 8 = 0) by reflexivity.
  assert (H2 : length [255; 1]%Z = 16 / 8) by reflexivity.
  split; [exact H1|]. split; [exact H2|].
  exact (proj2 (unpackBytesToBits_reads_one_byte_more [255; 1]%Z 16) H1 H2).
Defined.

Lemma hasPolicyScore_guards_maxMovePolicy_witness :
  let p := MovePicker_MAIN FREESTYLE Sample.quiet_policy (Sample.main_args NONE) in
  hasPolicyScore (after_calls 484 (-32768) 2 p) = true
  /\ (hasPolicyScore (after_calls 484 (-32768) 2 p) = true
      <-> exists mx, maxMovePolicy (after_calls 484 (-32768) 2 p) = Some mx).
Proof.
  intros p. split; [vm_compute; reflexivity|].
  refine (proj1 (hasPolicyScore_guards_maxMovePolicy 484 (-32768) 0 FREESTYLE
                   Sample.quiet_policy (Sample.main_args NONE)
                   (QvcfArgs.mk NONE 0 (NONE_P4, NONE_P4)) p 2 _)).
  right. left. reflexivity.
Defined.

Lemma kept_ttMove_fits_threat_witness :
  let p := MovePicker_MAIN FREESTYLE Sample.quiet (Sample.main_args Sample.H8) in
  is_TT_stage (stage p) = true
  /\ ttMove p = Sample.H8 /\ isEmpty Sample.quiet Sample.H8 = true.
Proof.
  intros p.
  assert (H : is_TT_stage (stage p) = true) by reflexivity.
  split; [exact H|].
  destruct (proj1 (proj2 (kept_ttMove_fits_threat 484 (-32768) 0 FREESTYLE Sample.quiet
                            (Sample.main_args Sample.H8)
                            (QvcfArgs.mk NONE 0 (NONE_P4, NONE_P4)))) H)
    as (H1 & H2 & _).
  split; [exact H1|exact H2].
Defined.

Lemma DEFENDB4F3_falls_back_to_MAIN_witness :
  let p := set_stage DEFENDB4F3_MOVES
             (MovePicker_MAIN FREESTYLE Sample.quiet (Sample.main_args NONE)) in
  stage p = DEFENDB4F3_MOVES
  /\ generate (board p) (DEFEND_B4F3_of (rule p)) = []
  /\ operator_call 484 (-32768) p
     = operator_call 484 (-32768) (set_stage MAIN_MOVES p).
Proof.
  intros p.
  assert (H1 : stage p = DEFENDB4F3_MOVES) by reflexivity.
  assert (H2 : generate (board p) (DEFEND_B4F3_of (rule p)) = []) by reflexivity.
  split; [exact H1|]. split; [exact H2|].
  exact (proj1 (DEFENDB4F3_falls_back_to_MAIN 484 (-32768) p H1 H2)).
Defined.

Lemma MAIN_MOVES_yields_every_move_witness :
  let p := MovePicker_MAIN FREESTYLE Sample.quiet_policy (Sample.main_args NONE) in
  stage p = MAIN_MOVES
  /\ length (generate (board p) ALL) < 4
  /\ drain 484 (-32768) 4 p = [Sample.J9; Sample.H8; Sample.G7]
  /\ Permutation (drain 484 (-32768) 4 p)
       (map pos (List.filter (accepted p) (generate (board p) ALL))).
Proof.
  intros p.
  assert (H1 : stage p = MAIN_MOVES) by reflexivity.
  assert (H2 : forall m, m ∈ generate (board p) ALL -> pos m <> NONE).
  { intros m Hm. change (generate (board p) ALL)
      with [mkMove Sample.G7 0 0; mkMove Sample.H8 0 0; mkMove Sample.J9 0 0] in Hm.
    repeat (apply elem_of_cons in Hm as [-> | Hm]; [discriminate|]).
    inversion Hm. }
  assert (H3 : length (generate (board p) ALL) < 4) by (vm_compute; lia).
  split; [exact H1|]. split; [exact H3|]. split; [vm_compute; reflexivity|].
  exact (MAIN_MOVES_yields_every_move 484 (-32768) p 4 H1 H2 H3).
Defined.
